(** * ZeroGraph: the node lifecycle and the flow orchestrator

    A shallow embedding of [src/index.ts]: the classes [BaseNode], [Node],
    [BatchNode], [Flow], [BatchFlow] and their suspendable counterparts, and
    the properties the specification states about them.

    Node objects live in a heap and are referred to by address, because the
    orchestrator clones the node it is about to run
    ([Object.assign(Object.create(proto), node)]) and then mutates the clone:
    what is shared and what is private is part of what is verified.

    The callbacks a user supplies by subclassing ([prep], [exec],
    [execFallback], [post] and the [...Async] ones) are functions on a world
    [W] that holds everything they can reach: the shared stores and the
    variables their closures capture.  They read the fields of [this] through
    a [view] and never write to engine objects.  The console is not part
    of the state: a warning is the no-op [console_warn], spelled out in
    [run] and [runAsync], where it is the only reason the successor table
    is read, and left out of [next] and [getNextNode], as is the busy-wait
    between two attempts.

    The file has the program first (values, the engine, the suspendable
    engine, the rest of the interface), with the vocabulary of the
    properties and the example graphs, then the properties, and last the
    properties at the example graphs. *)

From Stdlib Require Import ZArith Lia.
From stdpp Require Import base option list strings gmap pretty.

Set Warnings "-register-all".
Open Scope Z_scope.

(** ** JavaScript values *)

Inductive value : Type :=
| VUndefined
| VNull
| VBool (b : bool)
| VNum (n : Z)
| VStr (s : string)
| VArr (xs : list value)
| VObj (m : gmap string value)
| VError (msg : string).

(** [ActionType | null], the type of [getNextNode]'s second argument. *)
Definition action : Type := option string.

Definition addr : Type := nat.

(** How a call ends: [return a] or [throw e]. *)
Inductive completion (A : Type) : Type :=
| Return (a : A)
| Throw (e : value).
Arguments Return {A} a.
Arguments Throw {A} e.

(** JavaScript truthiness, as used by [x || y]. *)
Definition truthy (v : value) : bool :=
  match v with
  | VUndefined | VNull | VBool false | VNum 0 | VStr "" => false
  | _ => true
  end.

(** A string holds the bytes of the UTF-8 encoding of the JavaScript
    string (a lone surrogate as its three bytes).  A byte [10xxxxxx]
    continues the code point of the byte before it. *)
Definition continuation (b : Ascii.ascii) : bool :=
  match b with
  | Ascii.Ascii _ _ _ _ _ _ b6 b7 => b7 && negb b6
  end.

(** The code points of a string, each with its bytes. *)
Definition code_points (bs : list Ascii.ascii) : list (list Ascii.ascii) :=
  foldr (λ b acc,
    match acc with
    | (c :: cs) :: rest =>
        if continuation c then (b :: c :: cs) :: rest else [b] :: acc
    | _ => [b] :: acc
    end) [] bs.

Definition three_bytes (u : N) : list Ascii.ascii :=
  [Ascii.ascii_of_N (224 + u / 4096);
   Ascii.ascii_of_N (128 + (u / 64) mod 64);
   Ascii.ascii_of_N (128 + u mod 64)]%N.

(** The UTF-16 code units of a code point: itself in the basic plane, and
    the two surrogates for a code point that takes four bytes. *)
Definition code_units (cp : list Ascii.ascii) : list (list Ascii.ascii) :=
  match cp with
  | [b0; b1; b2; b3] =>
      let u := ((Ascii.N_of_ascii b0 mod 8) * 262144
                + (Ascii.N_of_ascii b1 mod 64) * 4096
                + (Ascii.N_of_ascii b2 mod 64) * 64
                + Ascii.N_of_ascii b3 mod 64 - 65536)%N in
      [three_bytes (55296 + u / 1024); three_bytes (56320 + u mod 1024)]
  | _ => [cp]
  end.

(** What the string iterator yields: one string for each code point. *)
Definition chars (s : string) : list value :=
  (λ cp, VStr (String.string_of_list_ascii cp))
    <$> code_points (String.list_ascii_of_string s).

(** The indexed properties of a string: one for each UTF-16 code unit. *)
Definition units (s : string) : list value :=
  (λ u, VStr (String.string_of_list_ascii u))
    <$> (code_points (String.list_ascii_of_string s) ≫= code_units).

Definition index_entries (xs : list value) : gmap string value :=
  list_to_map (imap (λ (i : nat) v, (pretty i, v)) xs).

(** [{...v}]: the own enumerable properties of [v]. *)
Definition spread (v : value) : gmap string value :=
  match v with
  | VObj m => m
  | VArr xs => index_entries xs
  | VStr s => index_entries (units s)
  | _ => ∅
  end.

(** [{...base, ...bp}]: the entries of [bp] win on shared keys. *)
Definition merge_params (base : gmap string value) (bp : value)
  : gmap string value :=
  spread bp ∪ base.

(** What [for (const x of v)] iterates over; [None] when [v] is not
    iterable and the loop throws a [TypeError]. *)
Definition iterate (v : value) : option (list value) :=
  match v with
  | VArr xs => Some xs
  | VStr s => Some (chars s)
  | _ => None
  end.

Definition action_value (a : action) : value :=
  match a with
  | Some l => VStr l
  | None => VNull
  end.

(** The property names every object literal inherits from
    [Object.prototype]: [successors[k]] is a truthy non-node value for
    them when [k] was never registered. *)
Definition object_prototype_names : list string :=
  [ "constructor"; "__proto__"; "hasOwnProperty"; "isPrototypeOf";
    "propertyIsEnumerable"; "toLocaleString"; "toString"; "valueOf";
    "__defineGetter__"; "__defineSetter__"; "__lookupGetter__";
    "__lookupSetter__" ]%string.

(** What [curr.successors[key]] evaluates to when it is truthy. *)
Inductive target : Type :=
| NodeRef (a : addr)
| Inherited (name : string).

Definition js_get (t : gmap string addr) (key : string) : option target :=
  match t !! key with
  | Some a => Some (NodeRef a)
  | None =>
      if bool_decide (key ∈ object_prototype_names)
      then Some (Inherited key) else None
  end.

(** [action || 'default'] *)
Definition key_of (a : action) : string :=
  match a with
  | Some l => if bool_decide (l = ""%string) then "default"%string else l
  | None => "default"%string
  end.

Inductive class : Type :=
| CBaseNode | CNode | CBatchNode | CFlow | CBatchFlow
| CAsyncNode | CAsyncBatchNode | CAsyncParallelBatchNode
| CAsyncFlow | CAsyncBatchFlow | CAsyncParallelBatchFlow.

(** [x instanceof AsyncNode] *)
Definition instanceof_AsyncNode (c : class) : bool :=
  match c with
  | CAsyncNode | CAsyncBatchNode | CAsyncParallelBatchNode => true
  | _ => false
  end.

(** The classes whose [_run] is [Flow._run]. *)
Definition runs_as_Flow (c : class) : bool :=
  match c with
  | CFlow | CAsyncFlow | CAsyncBatchFlow | CAsyncParallelBatchFlow => true
  | _ => false
  end.

(** The fields of [this] a callback can read. *)
Record view : Type := mkView {
  v_params : gmap string value;
  v_maxRetries : Z;
  v_wait : Z;
  v_curRetry : Z
}.

(** ** Objects, heap and the engine monad *)

(** What an application of the framework fixes: the world [W] its
    callbacks act on, and the type [Shared] of the store handed to [run]. *)
Class Application : Type := mkApplication {
  W : Type;
  Shared : Type
}.

Section Engine.

Context {App : Application}.

(** A synchronous callback: it may change the world and it returns or
    throws. *)
Definition cb (A : Type) : Type := W → completion A * W.

(** The promise an [async] callback returns: settled, or suspended at an
    [await] with the block to run when it is resumed. *)
Inductive job (A : Type) : Type :=
| Settled (c : completion A)
| Suspended (resume : W → W * job A).
Arguments Settled {A} c.
Arguments Suspended {A} resume.

(** Calling an [async] callback runs its body up to the first [await]. *)
Definition acb (A : Type) : Type := W → W * job A.

(** The methods a subclass overrides; [None] is the inherited default. *)
Record methods : Type := mkMethods {
  prep : option (view → Shared → cb value);
  exec : option (view → value → cb value);
  execFallback : option (view → value → value → cb value);
  post : option (view → Shared → value → value → cb action);
  prepAsync : option (view → Shared → acb value);
  execAsync : option (view → value → acb value);
  execFallbackAsync : option (view → value → value → acb value);
  postAsync : option (view → Shared → value → value → acb action)
}.

(** A node object: its class (the prototype [Object.create] keeps), the
    overridden methods, and its own fields.  [successors] is a reference:
    [Object.assign] copies the reference, so a clone shares the table.
    [maxRetries] and [wait] are integers, as the constructor is given.
    Fields a class does not declare are never read for it. *)
Record obj : Type := mkObj {
  cls : class;
  meths : methods;
  params : gmap string value;
  successors : addr;
  maxRetries : Z;
  wait : Z;
  curRetry : Z;
  startNode : option addr
}.

Definition view_of (o : obj) : view :=
  mkView (params o) (maxRetries o) (wait o) (curRetry o).

Definition with_params (p : gmap string value) (o : obj) : obj :=
  mkObj (cls o) (meths o) p (successors o) (maxRetries o) (wait o)
        (curRetry o) (startNode o).

Definition with_curRetry (n : Z) (o : obj) : obj :=
  mkObj (cls o) (meths o) (params o) (successors o) (maxRetries o) (wait o)
        n (startNode o).

Record state : Type := mkState {
  nodes : list obj;
  tables : list (gmap string addr);
  world : W
}.

Definition with_nodes (ns : list obj) (s : state) : state :=
  mkState ns (tables s) (world s).

Definition with_world (w : W) (s : state) : state :=
  mkState (nodes s) (tables s) w.

(** Engine computations: state passing, exceptions, and [None] when the
    fuel is spent (or a reference dangles, which no well-formed heap
    allows). *)
Definition M (A : Type) : Type := state → option (completion A * state).

Definition ret {A} (a : A) : M A := λ s, Some (Return a, s).

Definition throw {A} (e : value) : M A := λ s, Some (Throw e, s).

Definition stuck {A} : M A := λ _, None.

Definition bind {A B} (m : M A) (k : A → M B) : M B := λ s,
  match m s with
  | Some (Return a, s') => k a s'
  | Some (Throw e, s') => Some (Throw e, s')
  | None => None
  end.

(** [try { m } catch (e) { ... }]: the completion is handed to the
    continuation instead of propagating. *)
Definition try_catch {A B} (m : M A) (k : completion A → M B) : M B := λ s,
  match m s with
  | Some (c, s') => k c s'
  | None => None
  end.

Notation "'let*' x ':=' m 'in' k" := (bind m (λ x, k))
  (at level 10, x name, m at level 100, k at level 200, only parsing).

Definition call {A} (f : cb A) : M A := λ s,
  let '(c, w) := f (world s) in Some (c, with_world w s).

Definition get_node (a : addr) : M obj := λ s,
  match nodes s !! a with
  | Some o => Some (Return o, s)
  | None => None
  end.

Definition set_node (a : addr) (o : obj) : M unit := λ s,
  Some (Return tt, with_nodes (<[a := o]> (nodes s)) s).

Definition get_table (t : addr) : M (gmap string addr) := λ s,
  match tables s !! t with
  | Some m => Some (Return m, s)
  | None => None
  end.

Fixpoint traverse {A B} (f : A → M B) (xs : list A) : M (list B) :=
  match xs with
  | [] => ret []
  | x :: xs' =>
      let* y := f x in
      let* ys := traverse f xs' in
      ret (y :: ys)
  end.

(** ** BaseNode *)

(** [setParams(params) { this.params = params }] *)
Definition setParams (this : addr) (p : gmap string value) : M unit :=
  let* o := get_node this in
  set_node this (with_params p o).

(** [next(node, action = 'default')]: [this.successors[action] = node].
    Assigning to the key [__proto__] sets the table's prototype instead of
    an entry; that assignment is outside this model. *)
Definition next (this node : addr) (act : string) : M addr := λ s,
  if bool_decide (act = "__proto__"%string) then None else
  match nodes s !! this with
  | Some o =>
      match tables s !! successors o with
      | Some t =>
          Some (Return node,
                mkState (nodes s)
                        (<[successors o := <[act := node]> t]> (tables s))
                        (world s))
      | None => None
      end
  | None => None
  end.

(** The three phases, dispatched on the object at [this]; a method that
    is not overridden is [BaseNode]'s. *)
Definition call_prep (this : addr) (shared : Shared) : M value :=
  let* o := get_node this in
  match prep (meths o) with
  | Some f => call (f (view_of o) shared)
  | None => ret VUndefined
  end.

Definition call_exec (this : addr) (prepRes : value) : M value :=
  let* o := get_node this in
  match exec (meths o) with
  | Some f => call (f (view_of o) prepRes)
  | None => ret VUndefined
  end.

Definition call_post (this : addr) (shared : Shared) (prepRes execRes : value)
  : M action :=
  let* o := get_node this in
  match post (meths o) with
  | Some f => call (f (view_of o) shared prepRes execRes)
  | None => ret (Some "default"%string)
  end.

(** [Node.execFallback(prepRes, exc) { throw exc }] unless overridden. *)
Definition call_execFallback (this : addr) (prepRes exc : value) : M value :=
  let* o := get_node this in
  match execFallback (meths o) with
  | Some f => call (f (view_of o) prepRes exc)
  | None => throw exc
  end.

(** [Flow.post(shared, prepRes, execRes) { return execRes }] unless
    overridden; [execRes] is the label [_orch] returned, or [null]. *)
Definition call_flow_post (this : addr) (shared : Shared) (prepRes : value)
    (execRes : action) : M action :=
  let* o := get_node this in
  match post (meths o) with
  | Some f => call (f (view_of o) shared prepRes (action_value execRes))
  | None => ret execRes
  end.

(** ** Node: execute with retry *)

(** The body of [Node._exec]'s loop, [n] iterations before
    [this.curRetry < this.maxRetries] fails:
<<
    try { return this.exec(prepRes); }
    catch (e) {
      if (this.curRetry === this.maxRetries - 1)
        return this.execFallback(prepRes, e);
      ...wait...
    }
>>
    followed by [this.curRetry++].  Leaving the loop returns [undefined]. *)
Fixpoint exec_attempts (n : nat) (this : addr) (prepRes : value) : M value :=
  match n with
  | O => ret VUndefined
  | S n' =>
      try_catch (call_exec this prepRes) (λ c,
        match c with
        | Return r => ret r
        | Throw e =>
            let* o := get_node this in
            if bool_decide (curRetry o = maxRetries o - 1)
            then call_execFallback this prepRes e
            else
              let* _ := set_node this (with_curRetry (curRetry o + 1) o) in
              exec_attempts n' this prepRes
        end)
  end.

(** [Node._exec]: [for (this.curRetry = 0; this.curRetry < this.maxRetries;
    this.curRetry++)]. *)
Definition Node_exec (this : addr) (prepRes : value) : M value :=
  let* o := get_node this in
  let* _ := set_node this (with_curRetry 0 o) in
  exec_attempts (Z.to_nat (maxRetries o)) this prepRes.

(** [BatchNode._exec]: [(items || []).map(item => super._exec(item))]. *)
Definition BatchNode_exec (this : addr) (items : value) : M value :=
  match (if truthy items then items else VArr []) with
  | VArr xs =>
      let* rs := traverse (Node_exec this) xs in
      ret (VArr rs)
  | _ => throw (VError "(items || []).map is not a function")
  end.

(** ** Flow: the orchestrator *)

(** [Object.assign(Object.create(Object.getPrototypeOf(n)), n)]: a new
    object of the same class whose own fields are copies of [n]'s. *)
Definition clone (a : addr) : M addr := λ s,
  match nodes s !! a with
  | Some o => Some (Return (length (nodes s)), with_nodes (nodes s ++ [o]) s)
  | None => None
  end.

(** The copy [_orch] takes of what [getNextNode] returned.  The copy of an
    inherited [Object.prototype] member is a plain object, not a node. *)
Definition clone_target (t : option target) : M (option target) :=
  match t with
  | Some (NodeRef a) =>
      let* c := clone a in
      ret (Some (NodeRef c))
  | Some (Inherited k) => ret (Some (Inherited k))
  | None => ret None
  end.

(** [Flow.getNextNode(curr, action)]:
    [const next = curr.successors[action || 'default']; return next || null] *)
Definition getNextNode (curr : addr) (act : action) : M (option target) :=
  let* o := get_node curr in
  let* t := get_table (successors o) in
  ret (js_get t (key_of act)).

(** The head of [Flow._orch(shared, params)], before its loop:
<<
    let curr = this.startNode ? Object.assign(Object.create(...), this.startNode) : null;
    const p = params || { ...this.params };
    let lastAction = 'default';
>> *)
Definition orch_from
    (loop : option target → gmap string value → Shared → action → M action)
    (this : addr) (shared : Shared) (ps : option (gmap string value))
  : M action :=
  let* f := get_node this in
  let* curr := clone_target (NodeRef <$> startNode f) in
  loop curr (default (params f) ps) shared (Some "default"%string).

(** [this._run(shared)], dispatched on the class of [this]; [loop] is the
    [while] loop of [_orch]. *)
Definition run_body
    (loop : option target → gmap string value → Shared → action → M action)
    (this : addr) (shared : Shared) (o : obj) : M action :=
  match cls o with
  | CBaseNode =>
      (* BaseNode._run, with BaseNode._exec *)
      let* p := call_prep this shared in
      let* e := call_exec this p in
      call_post this shared p e
  | CNode =>
      (* BaseNode._run, with Node._exec *)
      let* p := call_prep this shared in
      let* e := Node_exec this p in
      call_post this shared p e
  | CBatchNode =>
      (* BaseNode._run, with BatchNode._exec *)
      let* p := call_prep this shared in
      let* e := BatchNode_exec this p in
      call_post this shared p e
  | CFlow | CAsyncFlow | CAsyncBatchFlow | CAsyncParallelBatchFlow =>
      (* Flow._run: const p = this.prep(shared);
         const o = this._orch(shared); return this.post(shared, p, o) *)
      let* p := call_prep this shared in
      let* a := orch_from loop this shared None in
      call_flow_post this shared p a
  | CBatchFlow =>
      (* BatchFlow._run: const pr = this.prep(shared) || [];
         for (const bp of pr) this._orch(shared, {...this.params, ...bp});
         return this.post(shared, pr, null) *)
      let* p := call_prep this shared in
      let pr := if truthy p then p else VArr [] in
      match iterate pr with
      | Some bps =>
          let* _ := traverse (λ bp,
              let* f := get_node this in
              orch_from loop this shared
                (Some (merge_params (params f) bp))) bps in
          call_flow_post this shared pr None
      | None => throw (VError "pr is not iterable")
      end
  | CAsyncNode | CAsyncBatchNode | CAsyncParallelBatchNode =>
      (* AsyncNode._run *)
      throw (VError "Use runAsync.")
  end.

(** One [_run] of any node and the [while (curr)] loop of [Flow._orch],
    which call each other: a flow runs nodes, and a node may be a flow.
    [fuel] bounds the depth of that recursion, since a graph may loop. *)
Fixpoint _run (fuel : nat) (this : addr) (shared : Shared) {struct fuel}
  : M action :=
  match fuel with
  | O => stuck
  | S fuel' =>
      let* o := get_node this in
      run_body (orch_loop fuel') this shared o
  end

(** [while (curr) { curr.setParams(p); lastAction = curr._run(shared);
      curr = this.getNextNode(curr, lastAction);
      if (curr) curr = Object.assign(Object.create(...), curr); }
    return lastAction;] *)
with orch_loop (fuel : nat) (curr : option target) (p : gmap string value)
    (shared : Shared) (lastAction : action) {struct fuel} : M action :=
  match curr with
  | None => ret lastAction
  | Some (Inherited _) => throw (VError "curr.setParams is not a function")
  | Some (NodeRef c) =>
      match fuel with
      | O => stuck
      | S fuel' =>
          let* _ := setParams c p in
          let* a := _run fuel' c shared in
          let* nxt := getNextNode c a in
          let* curr' := clone_target nxt in
          orch_loop fuel' curr' p shared a
      end
  end.

(** [Flow._orch(shared, params)] *)
Definition _orch (fuel : nat) (this : addr) (shared : Shared)
    (ps : option (gmap string value)) : M action :=
  orch_from (orch_loop fuel) this shared ps.

(** [console.warn(msg)]: the console is not part of the state. *)
Definition console_warn (msg : string) : M unit := ret tt.

(** [Object.keys(this.successors).length > 0] *)
Definition has_successors (this : addr) (s : state) : bool :=
  match nodes s !! this ≫= (λ o, tables s !! successors o) with
  | Some t => bool_decide (t ≠ ∅)
  | None => false
  end.

(** [BaseNode.run(shared)]:
<<
    if (Object.keys(this.successors).length > 0)
      console.warn("Node won't run successors. Use Flow.");
    return this._run(shared);
>> *)
Definition run (fuel : nat) (this : addr) (shared : Shared) : M action :=
  λ s,
    (let* _ := if has_successors this s
               then console_warn "Node won't run successors. Use Flow."
               else ret tt in
     _run fuel this shared) s.

(** ** Suspendable computations

    A [proc] is a promise seen from the scheduler: settled ([Fin]), or
    suspended with the block to run when it is resumed ([Atom]); blocks run
    to their next [await] without interruption, and other tasks may run
    between two blocks.  [Par] is a pending [Promise.all]; [Bg] is a task
    whose [Promise.all] was rejected while siblings were still running:
    they go on in the background and their results are dropped.  [Stuck]
    stands for spent fuel. *)
Inductive proc : Type → Type :=
| Fin {A} (c : completion A) : proc A
| Stuck {A} : proc A
| Atom {A} (resume : state → state * proc A) : proc A
| Par {B A} (ps : list (proc B)) (k : completion (list B) → proc A) : proc A
| Bg {B A} (bg : list (proc B)) (main : proc A) : proc A.

(** A call of an [async] function: its first block runs at once. *)
Definition acall (A : Type) : Type := state → state * proc A.

(** [return c] / [throw e] at the end of an [async] function. *)
Definition finish {A} (c : completion A) : acall A := λ s, (s, Fin c).

(** [await p], then [k] on how [p] settled, in a later block. *)
Fixpoint await {A} (p : proc A) {B} (k : completion A → acall B) : proc B :=
  match p in proc A0 return (completion A0 → acall B) → proc B with
  | Fin c => λ k, Atom (k c)
  | Stuck => λ _, Stuck
  | Atom f => λ k, Atom (λ s, let '(s', p') := f s in (s', await p' k))
  | Par ps k0 => λ k, Par ps (λ r, await (k0 r) k)
  | Bg bg m => λ k, Bg bg (await m k)
  end k.

(** [const a = await m; k a] inside an [async] function; a rejection
    propagates. *)
Definition abind {A B} (m : acall A) (k : A → acall B) : acall B := λ s,
  let '(s1, p) := m s in
  (s1, await p (λ c, match c with
                     | Return a => k a
                     | Throw e => finish (Throw e)
                     end)).

(** Synchronous engine code inside an [async] function: it runs in the
    current block, and what it throws rejects the promise. *)
Definition sync {A B} (m : M A) (k : A → acall B) : acall B := λ s,
  match m s with
  | Some (Return a, s') => k a s'
  | Some (Throw e, s') => (s', Fin (Throw e))
  | None => (s, Stuck)
  end.

Fixpoint outcome_of {A} (p : proc A) : option (completion A) :=
  match p with
  | Fin c => Some c
  | Bg _ m => outcome_of m
  | _ => None
  end.

Fixpoint is_stuck {A} (p : proc A) : bool :=
  match p with
  | Stuck => true
  | Bg _ m => is_stuck m
  | _ => false
  end.

Definition rejection {A} (p : proc A) : option value :=
  match outcome_of p with
  | Some (Throw e) => Some e
  | _ => None
  end.

Definition fulfilment {A} (p : proc A) : option A :=
  match outcome_of p with
  | Some (Return a) => Some a
  | _ => None
  end.

Fixpoint first_rejection {B} (ps : list (proc B)) : option value :=
  match ps with
  | [] => None
  | p :: ps' =>
      match rejection p with
      | Some e => Some e
      | None => first_rejection ps'
      end
  end.

Fixpoint all_fulfilled {B} (ps : list (proc B)) : option (list B) :=
  match ps with
  | [] => Some []
  | p :: ps' =>
      match fulfilment p, all_fulfilled ps' with
      | Some v, Some vs => Some (v :: vs)
      | _, _ => None
      end
  end.

(** [Promise.all(ps)] awaited with continuation [k]: rejected as soon as
    one promise is (the others keep running), fulfilled with the results
    in index order once all are, pending otherwise. *)
Definition par {B A} (ps : list (proc B)) (k : completion (list B) → proc A)
  : proc A :=
  match first_rejection ps with
  | Some e => Bg ps (k (Throw e))
  | None =>
      if existsb is_stuck ps then Stuck
      else match all_fulfilled ps with
           | Some vs => k (Return vs)
           | None => Par ps k
           end
  end.

(** [xs.map(x => f(x))] for an [async] [f]: every call runs its first
    block, in index order. *)
Fixpoint launch {B} (calls : list (acall B)) (s : state)
  : state * list (proc B) :=
  match calls with
  | [] => (s, [])
  | c :: calls' =>
      let '(s1, p) := c s in
      let '(s2, ps) := launch calls' s1 in
      (s2, p :: ps)
  end.

(** Resume the [i]-th task of a pool with [resume]; the others stay as
    they are. *)
Fixpoint step_at {B} (resume : proc B → state * proc B) (s : state)
    (qs : list (proc B)) (i : nat) : state * list (proc B) :=
  match qs, i with
  | [], _ => (s, [])
  | q :: qs', O => let '(s', q') := resume q in (s', q' :: qs')
  | q :: qs', S i' =>
      let '(s', qs'') := step_at resume s qs' i' in (s', q :: qs'')
  end.

(** One scheduling decision: the path [c] picks, through nested
    [Promise.all]s, the suspended task that runs its next block.  In a
    [Bg], index [0] is the main task.  Every order in which the event loop
    can resume the tasks (job queue, timers, input and output) is a
    schedule; what holds under every schedule holds in every execution. *)
Fixpoint step {A} (p : proc A) (c : list nat) (s : state) {struct p}
  : state * proc A :=
  match p with
  | Fin c0 => (s, Fin c0)
  | Stuck => (s, Stuck)
  | Atom f => f s
  | Par ps k =>
      match c with
      | [] => (s, Par ps k)
      | i :: c' =>
          let '(s', ps') := step_at (λ q, step q c' s) s ps i in
          (s', par ps' k)
      end
  | Bg bg m =>
      match c with
      | [] => (s, Bg bg m)
      | O :: c' => let '(s', m') := step m c' s in (s', Bg bg m')
      | S i :: c' =>
          let '(s', bg') := step_at (λ q, step q c' s) s bg i in
          (s', Bg bg' m)
      end
  end.

(** Run under a schedule: one decision after the other. *)
Fixpoint run_sched {A} (sched : list (list nat)) (p : proc A) (s : state)
  : state * proc A :=
  match sched with
  | [] => (s, p)
  | c :: sched' => let '(s', p') := step p c s in run_sched sched' p' s'
  end.

(** ** AsyncNode and its batched variants *)

Fixpoint lift_job {A} (j : job A) : proc A :=
  match j with
  | Settled c => Fin c
  | Suspended f =>
      Atom (λ s, let '(w, j') := f (world s) in (with_world w s, lift_job j'))
  end.

Definition call_async {A} (f : acb A) : acall A := λ s,
  let '(w, j) := f (world s) in (with_world w s, lift_job j).

Definition call_prepAsync (this : addr) (shared : Shared) : acall value :=
  sync (get_node this) (λ o,
    match prepAsync (meths o) with
    | Some f => call_async (f (view_of o) shared)
    | None => finish (Return VUndefined)
    end).

Definition call_execAsync (this : addr) (prepRes : value) : acall value :=
  sync (get_node this) (λ o,
    match execAsync (meths o) with
    | Some f => call_async (f (view_of o) prepRes)
    | None => finish (Return VUndefined)
    end).

(** [AsyncNode.execFallbackAsync(prepRes, exc) { throw exc }] unless
    overridden. *)
Definition call_execFallbackAsync (this : addr) (prepRes exc : value)
  : acall value :=
  sync (get_node this) (λ o,
    match execFallbackAsync (meths o) with
    | Some f => call_async (f (view_of o) prepRes exc)
    | None => finish (Throw exc)
    end).

Definition call_postAsync (this : addr) (shared : Shared)
    (prepRes execRes : value) : acall action :=
  sync (get_node this) (λ o,
    match postAsync (meths o) with
    | Some f => call_async (f (view_of o) shared prepRes execRes)
    | None => finish (Return (Some "default"%string))
    end).

(** [AsyncFlow.postAsync(shared, prepRes, execRes) { return execRes }]
    unless overridden. *)
Definition call_flow_postAsync (this : addr) (shared : Shared)
    (prepRes : value) (execRes : action) : acall action :=
  sync (get_node this) (λ o,
    match postAsync (meths o) with
    | Some f => call_async (f (view_of o) shared prepRes (action_value execRes))
    | None => finish (Return execRes)
    end).

(** The loop of [AsyncNode._exec], [n] iterations before
    [i < this.maxRetries] fails, at loop counter [i]:
<<
    try { return await this.execAsync(prepRes); }
    catch (e) {
      if (i === this.maxRetries - 1)
        return await this.execFallbackAsync(prepRes, e);
      if (this.wait > 0)
        await new Promise(resolve => setTimeout(resolve, this.wait * 1000));
    }
>> *)
Fixpoint aexec_attempts (n : nat) (i : Z) (this : addr) (prepRes : value)
  : acall value :=
  match n with
  | O => finish (Return VUndefined)
  | S n' => λ s,
      let '(s1, p) := call_execAsync this prepRes s in
      (s1, await p (λ c,
         match c with
         | Return r => finish (Return r)
         | Throw e =>
             sync (get_node this) (λ o,
               if bool_decide (i = maxRetries o - 1)
               then abind (call_execFallbackAsync this prepRes e)
                          (λ r, finish (Return r))
               else if bool_decide (0 < wait o)
               then λ s, (s, Atom (aexec_attempts n' (i + 1) this prepRes))
               else aexec_attempts n' (i + 1) this prepRes)
         end))
  end.

(** [AsyncNode._exec] *)
Definition AsyncNode_exec (this : addr) (prepRes : value) : acall value :=
  sync (get_node this) (λ o,
    aexec_attempts (Z.to_nat (maxRetries o)) 0 this prepRes).

(** The loop of [AsyncBatchNode._exec]:
    [for (const item of items) results.push(await super._exec(item))]. *)
Fixpoint abatch_items (this : addr) (items results : list value)
  : acall value :=
  match items with
  | [] => finish (Return (VArr results))
  | item :: items' =>
      abind (AsyncNode_exec this item) (λ r,
        abatch_items this items' (results ++ [r]))
  end.

(** [AsyncBatchNode._exec] *)
Definition AsyncBatchNode_exec (this : addr) (items : value) : acall value :=
  match iterate items with
  | Some xs => abatch_items this xs []
  | None => finish (Throw (VError "items is not iterable"))
  end.

(** What follows [await Promise.all(...)] in
    [AsyncParallelBatchNode._exec]: return the results, or the
    rejection. *)
Definition collect (c : completion (list value)) : proc value :=
  Atom (finish match c with
               | Return rs => Return (VArr rs)
               | Throw e => Throw e
               end).

(** [AsyncParallelBatchNode._exec]:
    [return await Promise.all(items.map(item => super._exec(item)))]. *)
Definition AsyncParallelBatchNode_exec (this : addr) (items : value)
  : acall value :=
  match items with
  | VArr xs => λ s,
      let '(s1, ps) := launch (AsyncNode_exec this <$> xs) s in
      (s1, par ps collect)
  | VUndefined =>
      finish (Throw (VError
        "Cannot read properties of undefined (reading 'map')"))
  | VNull =>
      finish (Throw (VError "Cannot read properties of null (reading 'map')"))
  | _ => finish (Throw (VError "items.map is not a function"))
  end.

(** [AsyncNode._runAsync], with [this._exec] dispatched on the class. *)
Definition AsyncNode_runAsync (this : addr) (shared : Shared) : acall action :=
  abind (call_prepAsync this shared) (λ p,
  abind (sync (get_node this) (λ o,
           match cls o with
           | CAsyncBatchNode => AsyncBatchNode_exec this p
           | CAsyncParallelBatchNode => AsyncParallelBatchNode_exec this p
           | _ => AsyncNode_exec this p
           end)) (λ e,
  abind (call_postAsync this shared p e) (λ a,
  finish (Return a)))).

(** ** AsyncFlow *)

(** The loop of [AsyncFlow._orchAsync]: as [Flow._orch]'s, except for
<<
    lastAction = curr instanceof AsyncNode
      ? await (curr as any)._runAsync(shared) : curr._run(shared);
>> *)
Fixpoint orchAsync_loop (fuel : nat) (curr : option target)
    (p : gmap string value) (shared : Shared) (lastAction : action)
    {struct fuel} : acall action :=
  match curr with
  | None => finish (Return lastAction)
  | Some (Inherited _) =>
      finish (Throw (VError "curr.setParams is not a function"))
  | Some (NodeRef c) =>
      match fuel with
      | O => λ s, (s, Stuck)
      | S fuel' =>
          let continue (a : action) : acall action :=
            sync (let* nxt := getNextNode c a in clone_target nxt)
                 (λ curr', orchAsync_loop fuel' curr' p shared a) in
          sync (let* _ := setParams c p in get_node c) (λ o,
            if instanceof_AsyncNode (cls o)
            then abind (AsyncNode_runAsync c shared) continue
            else sync (_run fuel' c shared) continue)
      end
  end.

(** [AsyncFlow._orchAsync(shared, params)] *)
Definition _orchAsync (fuel : nat) (this : addr) (shared : Shared)
    (ps : option (gmap string value)) : acall action :=
  sync (let* f := get_node this in
        let* curr := clone_target (NodeRef <$> startNode f) in
        ret (curr, default (params f) ps))
       (λ '(curr, p),
          orchAsync_loop fuel curr p shared (Some "default"%string)).

(** [this._orchAsync(shared, {...this.params, ...bp})], the traversal the
    batch flows start for the parameter set [bp]. *)
Definition traversal_call (fuel : nat) (this : addr) (shared : Shared)
    (bp : value) : acall action :=
  sync (get_node this) (λ f,
    _orchAsync fuel this shared (Some (merge_params (params f) bp))).

(** [return await this.postAsync(shared, pr, null)] *)
Definition finalize_call (this : addr) (shared : Shared) (pr : value)
  : acall action :=
  abind (call_flow_postAsync this shared pr None) (λ r, finish (Return r)).

(** The loop of [AsyncBatchFlow._runAsync]:
    [for (const bp of pr) await this._orchAsync(shared, {...this.params, ...bp})]. *)
Fixpoint abatch_flows (fuel : nat) (this : addr) (shared : Shared)
    (bps : list value) (k : acall action) : acall action :=
  match bps with
  | [] => k
  | bp :: bps' =>
      abind (traversal_call fuel this shared bp)
            (λ _, abatch_flows fuel this shared bps' k)
  end.

(** What follows [await Promise.all(...)] in
    [AsyncParallelBatchFlow._runAsync]: finalize, or the rejection. *)
Definition join_then_finalize (this : addr) (shared : Shared) (pr : value)
    (c : completion (list action)) : proc action :=
  Atom match c with
       | Return _ => finalize_call this shared pr
       | Throw e => finish (Throw e)
       end.

(** [await Promise.all(pr.map(bp => this._orchAsync(shared,
    {...this.params, ...bp})))] and what follows it. *)
Definition parallel_traversals (fuel : nat) (this : addr) (shared : Shared)
    (pr : value) (bps : list value) : acall action := λ s,
  let '(s1, ps) := launch (traversal_call fuel this shared <$> bps) s in
  (s1, par ps (join_then_finalize this shared pr)).

(** [this._runAsync(shared)], dispatched on the class of [this]; the
    classes that are not suspendable have no such method. *)
Definition _runAsync (fuel : nat) (this : addr) (shared : Shared)
  : acall action :=
  sync (get_node this) (λ o,
    match cls o with
    | CAsyncNode | CAsyncBatchNode | CAsyncParallelBatchNode =>
        AsyncNode_runAsync this shared
    | CAsyncFlow =>
        (* const p = await this.prepAsync(shared);
           const o = await this._orchAsync(shared);
           return await this.postAsync(shared, p, o); *)
        abind (call_prepAsync this shared) (λ p,
        abind (_orchAsync fuel this shared None) (λ a,
        abind (call_flow_postAsync this shared p a) (λ r,
        finish (Return r))))
    | CAsyncBatchFlow =>
        (* const pr = (await this.prepAsync(shared)) || [];
           for (const bp of pr) await this._orchAsync(...);
           return await this.postAsync(shared, pr, null); *)
        abind (call_prepAsync this shared) (λ p,
          let pr := if truthy p then p else VArr [] in
          match iterate pr with
          | Some bps =>
              abatch_flows fuel this shared bps
                (finalize_call this shared pr)
          | None => finish (Throw (VError "pr is not iterable"))
          end)
    | CAsyncParallelBatchFlow =>
        (* const pr = (await this.prepAsync(shared)) || [];
           await Promise.all(pr.map(bp => this._orchAsync(...)));
           return await this.postAsync(shared, pr, null); *)
        abind (call_prepAsync this shared) (λ p,
          let pr := if truthy p then p else VArr [] in
          match pr with
          | VArr bps => parallel_traversals fuel this shared pr bps
          | _ => finish (Throw (VError "pr.map is not a function"))
          end)
    | _ => finish (Throw (VError "this._runAsync is not a function"))
    end).

(** [runAsync(shared)]:
<<
    if (Object.keys(this.successors).length > 0)
      console.warn("Node won't run successors. Use AsyncFlow.");
    return await this._runAsync(shared);
>>
    ([AsyncFlow] overrides it with another text for the warning.) *)
Definition runAsync (fuel : nat) (this : addr) (shared : Shared)
  : acall action :=
  λ s,
    sync (if has_successors this s
          then console_warn "Node won't run successors. Use AsyncFlow."
          else ret tt)
         (λ _, abind (_runAsync fuel this shared) (λ a, finish (Return a))) s.

(** * Vocabulary of the properties *)

(** [n] consecutive attempts of [ex] that all raise, the first one with
    retry counter [i]: the errors raised, in order, and the world they
    leave. *)
Fixpoint failures (ex : Z → cb value) (n : nat) (i : Z) (w : W)
  : option (list value * W) :=
  match n with
  | O => Some ([], w)
  | S n' =>
      match ex i w with
      | (Throw e, w1) =>
          match failures ex n' (i + 1) w1 with
          | Some (es, w2) => Some (e :: es, w2)
          | None => None
          end
      | (Return _, _) => None
      end
  end.

(** The state in which the object [o] at [this] has retry counter [j] and
    the world is [w]. *)
Definition at_retry (this : addr) (o : obj) (j : Z) (w : W) (s : state)
  : state :=
  mkState (<[this := with_curRetry j o]> (nodes s)) (tables s) w.

(** [exec] as the node [o] sees it at retry counter [j]. *)
Definition exec_at (ex : view → value → cb value) (o : obj) (p : value)
  : Z → cb value :=
  λ j, ex (view_of (with_curRetry j o)) p.


(** [this.exec(x)] as the node [o] calls it when its retry counter is [j];
    the [exec] of [BaseNode] returns [undefined]. *)
Definition exec_of (o : obj) (x : value) : Z → cb value :=
  match exec (meths o) with
  | Some f => exec_at f o x
  | None => λ _ w, (Return VUndefined, w)
  end.

(** [this.execFallback(x, e)] at retry counter [j]; the one of [Node]
    throws [e]. *)
Definition fallback_of (o : obj) (x e : value) : Z → cb value :=
  match execFallback (meths o) with
  | Some f => λ j, f (view_of (with_curRetry j o)) x e
  | None => λ _ w, (Throw e, w)
  end.

(** What the execute-with-retry cycle of the node [o] on the item [x],
    started in the world [w], comes to, in terms of the two callbacks:
    the value [exec] returned at the first attempt that did not raise,
    after [a < maxRetries] attempts that did; or the completion of
    [execFallback] on the last error, after all [maxRetries] attempts
    raised; or [undefined] when no attempt is allowed. *)
Inductive cycle_outcome (o : obj) (x : value) (w : W)
  : completion value → W → Prop :=
| cycle_exec a es w1 r w' :
    0 ≤ a < maxRetries o →
    failures (exec_of o x) (Z.to_nat a) 0 w = Some (es, w1) →
    exec_of o x a w1 = (Return r, w') →
    cycle_outcome o x w (Return r) w'
| cycle_fallback es e w1 c w' :
    1 ≤ maxRetries o →
    failures (exec_of o x) (Z.to_nat (maxRetries o)) 0 w = Some (es, w1) →
    last es = Some e →
    fallback_of o x e (maxRetries o - 1) w1 = (c, w') →
    cycle_outcome o x w c w'
| cycle_skipped :
    maxRetries o ≤ 0 →
    cycle_outcome o x w (Return VUndefined) w.

(** The cycles of the items in input order, each started in the world the
    one before it left, all returning: the results, position by
    position. *)
Inductive served_in_order (o : obj)
  : list value → W → list value → W → Prop :=
| served_nil w : served_in_order o [] w [] w
| served_cons x xs r rs w w1 w2 :
    cycle_outcome o x w (Return r) w1 →
    served_in_order o xs w1 rs w2 →
    served_in_order o (x :: xs) w (r :: rs) w2.


(** [s'] extends [s]: the tables are the same, no object disappeared, and
    every object of [s] outside [X] is unchanged. *)
Definition preserved (X : addr → Prop) (s s' : state) : Prop :=
  tables s' = tables s ∧
  (length (nodes s) ≤ length (nodes s'))%nat ∧
  ∀ a, (a < length (nodes s))%nat → ¬ X a → nodes s' !! a = nodes s !! a.

(** [m] writes to no object that exists when it starts, except in [X]. *)
Definition touches {A} (X : addr → Prop) (m : M A) : Prop :=
  ∀ s r, m s = Some r → preserved X s (snd r).

(** The classes whose wrapped execute moves [this.curRetry]. *)
Definition retrying (c : class) : bool :=
  match c with
  | CNode | CBatchNode => true
  | _ => false
  end.


(** The graph is closed below [N]: every start node and every successor
    is one of the first [N] objects. *)
Definition wf (N : nat) (s : state) : Prop :=
  (N ≤ length (nodes s))%nat ∧
  (∀ a o b, nodes s !! a = Some o → startNode o = Some b → (b < N)%nat) ∧
  (∀ t m k b, tables s !! t = Some m → m !! k = Some b → (b < N)%nat).

(** The heap of [s] with the objects [G] put between its first [N]
    objects and the rest, and where an address of [s] is then. *)
Definition pad (N : nat) (G : list obj) (s : state) : state :=
  with_nodes (take N (nodes s) ++ G ++ drop N (nodes s)) s.

Definition shift (N g : nat) (a : addr) : addr :=
  if decide (a < N)%nat then a else (a + g)%nat.

Definition tshift (N g : nat) (t : option target) : option target :=
  match t with
  | Some (NodeRef a) => Some (NodeRef (shift N g a))
  | _ => t
  end.

Definition crel {A} (R : A → A → Prop) (c1 c2 : completion A) : Prop :=
  match c1, c2 with
  | Return a, Return b => R a b
  | Throw e1, Throw e2 => e1 = e2
  | _, _ => False
  end.

Definition closed (N : nat) (o : obj) : Prop :=
  ∀ b, startNode o = Some b → (b < N)%nat.

Definition closed_target (N : nat) (t : option target) : Prop :=
  ∀ b, t = Some (NodeRef b) → (b < N)%nat.

(** [m2] does on the padded heap what [m1] does on the plain one, with
    results related by [R]. *)
Definition sim (N : nat) (G : list obj) {A} (R : A → A → Prop)
    (m1 m2 : M A) : Prop :=
  ∀ s, wf N s →
    match m1 s, m2 (pad N G s) with
    | Some (c1, s1), Some (c2, s2) => crel R c1 c2 ∧ s2 = pad N G s1 ∧ wf N s1
    | None, None => True
    | _, _ => False
    end.


(** The classes that are flows: [Flow] and its subclasses. *)
Definition flow_class (c : class) : bool :=
  match c with
  | CFlow | CBatchFlow | CAsyncFlow | CAsyncBatchFlow
  | CAsyncParallelBatchFlow => true
  | _ => false
  end.

(** Two runs agree on what a caller can see of them: how they complete
    and the world they leave. *)
Definition same_outcome {A} (r1 r2 : option (completion A * state)) : Prop :=
  match r1, r2 with
  | Some (c1, s1), Some (c2, s2) => c1 = c2 ∧ world s1 = world s2
  | None, None => True
  | _, _ => False
  end.


(** The object at [this] is [o] up to its retry counter. *)
Definition is_at (this : addr) (o : obj) (s : state) : Prop :=
  ∃ j, nodes s !! this = Some (with_curRetry j o).

(** [m] maintains [I]. *)
Definition keeps {A} (I : state → Prop) (m : M A) : Prop :=
  ∀ s r, I s → m s = Some r → I (snd r).


(** The state after [curr.setParams(p)] for the object [o] at [c]. *)
Definition bound (c : addr) (p : gmap string value) (o : obj) (s : state)
  : state :=
  with_nodes (<[c := with_params p o]> (nodes s)) s.

(** The state after a copy of [o] was made and bound to [p]. *)
Definition cloned (p : gmap string value) (o : obj) (s : state) : state :=
  with_nodes (nodes s ++ [with_params p o]) s.


(** One complete traversal of the subgraph of the flow [this] per
    parameter set, one after the other in input order, the traversal for
    [bp] running with the parameters [{...base, ...bp}]. *)
Inductive traversals (fuel : nat) (this : addr) (shared : Shared)
    (base : gmap string value) : list value → state → state → Prop :=
| traversals_nil s : traversals fuel this shared base [] s s
| traversals_cons bp bps a s s1 s2 :
    _orch fuel this shared (Some (merge_params base bp)) s
      = Some (Return a, s1) →
    traversals fuel this shared base bps s1 s2 →
    traversals fuel this shared base (bp :: bps) s s2.


(** What the sequential loop over the items settles with, given how each
    cycle settles. *)
Fixpoint seq_result (cyc : value → completion value) (xs acc : list value)
  : completion value :=
  match xs with
  | [] => Return (VArr acc)
  | x :: xs' =>
      match cyc x with
      | Return r => seq_result cyc xs' (acc ++ [r])
      | Throw e => Throw e
      end
  end.


(** A pool of tasks under a schedule: each decision [i :: c] resumes task
    [i] along [c]. *)
Fixpoint pool_run {B} (sched : list (list nat)) (ps : list (proc B))
    (s : state) : state * list (proc B) :=
  match sched with
  | [] => (s, ps)
  | [] :: sched' => pool_run sched' ps s
  | (i :: c) :: sched' =>
      let '(s', ps') := step_at (λ q, step q c s) s ps i in
      pool_run sched' ps' s'
  end.


(** [s'] has the tables and the first [N] objects of [s]. *)
Definition ext (N : nat) (s s' : state) : Prop :=
  tables s' = tables s ∧
  (N ≤ length (nodes s'))%nat ∧
  ∀ a, (a < N)%nat → nodes s' !! a = nodes s !! a.

Fixpoint all_of {B} (P : B → Prop) (l : list B) : Prop :=
  match l with
  | [] => True
  | x :: l' => P x ∧ all_of P l'
  end.

(** A task none of whose blocks, whenever it runs, changes the tables or
    the first [N] objects. *)
Fixpoint framed (N : nat) {A} (p : proc A) : Prop :=
  match p with
  | Fin _ => True
  | Stuck => True
  | Atom f =>
      ∀ s, (N ≤ length (nodes s))%nat →
           match f s with (s', p') => ext N s s' ∧ framed N p' end
  | Par ps k => all_of (λ q, framed N q) ps ∧ ∀ c, framed N (k c)
  | Bg bg m => all_of (λ q, framed N q) bg ∧ framed N m
  end.

Definition framed_call (N : nat) {A} (m : acall A) : Prop :=
  ∀ s, (N ≤ length (nodes s))%nat →
       ext N s (fst (m s)) ∧ framed N (snd (m s)).

(** Engine code that changes neither the tables nor the first [N]
    objects, and whose result satisfies [Q]. *)
Definition above (N : nat) {A} (Q : A → Prop) (m : M A) : Prop :=
  ∀ s r, (N ≤ length (nodes s))%nat → m s = Some r →
         ext N s (snd r) ∧ ∀ a, fst r = Return a → Q a.

Definition fresh_target (N : nat) (t : option target) : Prop :=
  ∀ c, t = Some (NodeRef c) → (N ≤ c)%nat.

(** [m ⊑ m']: whenever [m] gives a result, [m'] gives the same one; more
    fuel refines less. *)
Definition le_M {A} (m m' : M A) : Prop :=
  ∀ s r, m s = Some r → m' s = Some r.

(** The body of [BatchFlow._run]'s loop for the parameter set [bp]:
    [this._orch(shared, {...this.params, ...bp})]. *)
Definition one_traversal (fuel : nat) (this : addr) (shared : Shared)
    (bp : value) : M action :=
  bind (get_node this) (λ f',
    orch_from (orch_loop fuel) this shared
      (Some (merge_params (params f') bp))).


(** Induction on tasks, with the hypotheses the nesting in pairs and
    lists hides from the generated principle. *)
Fixpoint proc_nested_ind (P : ∀ A, proc A → Prop)
    (HFin : ∀ A c, P A (Fin c))
    (HStuck : ∀ A, P A Stuck)
    (HAtom : ∀ A f, (∀ s, P A (snd (f s))) → P A (Atom f))
    (HPar : ∀ B A ps k,
        all_of (P B) ps → (∀ c, P A (k c)) → P A (@Par B A ps k))
    (HBg : ∀ B A bg m, all_of (P B) bg → P A m → P A (@Bg B A bg m))
    {A} (p : proc A) {struct p} : P A p :=
  match p with
  | Fin c => HFin _ c
  | Stuck => HStuck _
  | Atom f =>
      HAtom _ f (λ s,
        match f s as r return P _ (snd r) with
        | (_, p') => proc_nested_ind P HFin HStuck HAtom HPar HBg p'
        end)
  | Par ps k =>
      HPar _ _ ps k
        ((fix go qs : all_of (P _) qs :=
            match qs with
            | [] => I
            | q :: qs' =>
                conj (proc_nested_ind P HFin HStuck HAtom HPar HBg q) (go qs')
            end) ps)
        (λ c, proc_nested_ind P HFin HStuck HAtom HPar HBg (k c))
  | Bg bg m =>
      HBg _ _ bg m
        ((fix go qs : all_of (P _) qs :=
            match qs with
            | [] => I
            | q :: qs' =>
                conj (proc_nested_ind P HFin HStuck HAtom HPar HBg q) (go qs')
            end) bg)
        (proc_nested_ind P HFin HStuck HAtom HPar HBg m)
  end.

Fixpoint job_nested_ind {A} (P : job A → Prop)
    (HSettled : ∀ c, P (Settled c))
    (HSuspended : ∀ f, (∀ w, P (snd (f w))) → P (Suspended f))
    (j : job A) {struct j} : P j :=
  match j with
  | Settled c => HSettled c
  | Suspended f =>
      HSuspended f (λ w,
        match f w as r return P (snd r) with
        | (_, j') => job_nested_ind P HSettled HSuspended j'
        end)
  end.

(** * The rest of the interface *)

Definition with_startNode (n : option addr) (o : obj) : obj :=
  mkObj (cls o) (meths o) (params o) (successors o) (maxRetries o) (wait o)
        (curRetry o) n.

Definition with_tables (tb : list (gmap string addr)) (s : state) : state :=
  mkState (nodes s) tb (world s).

(** [pipe(other) { return this.next(other); }] *)
Definition pipe (this other : addr) : M addr :=
  next this other "default".

(** [class ConditionalTransition { constructor(public src, public action) {} }];
    the field [action] is [ct_action] here. *)
Record ConditionalTransition : Type := mkConditionalTransition {
  src : addr;
  ct_action : string
}.

(** [BaseNode.action(action) { return new ConditionalTransition(this, action); }] *)
Definition BaseNode_action (this : addr) (act : string)
  : ConditionalTransition :=
  mkConditionalTransition this act.

(** [ConditionalTransition.next(target)
      { return this.src.next(target, this.action); }] *)
Definition ConditionalTransition_next (ct : ConditionalTransition)
    (target : addr) : M addr :=
  next (src ct) target (ct_action ct).

(** [Flow.start(start) { this.startNode = start; return start; }]; only
    [Flow] and its subclasses have the method. *)
Definition start (this n : addr) : M addr :=
  let* o := get_node this in
  if flow_class (cls o)
  then let* _ := set_node this (with_startNode (Some n) o) in ret n
  else throw (VError "this.start is not a function").

(** [new C(maxRetries = 1, wait = 0)] for a class [C] with the constructor
    of [Node], whose methods are [m]: the field initialisers give it
    [params = {}], a new table [successors = {}] and [curRetry = 0]. *)
Definition new_Node (c : class) (m : methods) (maxRetries wait : option Z)
  : M addr := λ s,
  Some (Return (length (nodes s)),
        mkState (nodes s ++ [mkObj c m ∅ (length (tables s))
                               (default 1 maxRetries) (default 0 wait) 0 None])
                (tables s ++ [∅]) (world s)).

(** [new C(start = null)] for a class [C] with the constructor of [Flow]. *)
Definition new_Flow (c : class) (m : methods) (start : option addr)
  : M addr := λ s,
  Some (Return (length (nodes s)),
        mkState (nodes s ++ [mkObj c m ∅ (length (tables s)) 1 0 0 start])
                (tables s ++ [∅]) (world s)).

(** ** Vocabulary of the further properties *)

(** The heaps a caller can build before any run: by the constructors,
    [next], [start] and [setParams] on objects that exist, with any code of
    its own in between. *)
Inductive constructed : state → Prop :=
| constructed_empty w : constructed (mkState [] [] w)
| constructed_world w s : constructed s → constructed (with_world w s)
| constructed_new_Node c m r wt s a s' :
    constructed s → new_Node c m r wt s = Some (Return a, s') →
    constructed s'
| constructed_new_Flow c m st s a s' :
    constructed s →
    (∀ n, st = Some n → (n < length (nodes s))%nat) →
    new_Flow c m st s = Some (Return a, s') →
    constructed s'
| constructed_next this node act s r s' :
    constructed s → (node < length (nodes s))%nat →
    next this node act s = Some (Return r, s') →
    constructed s'
| constructed_start this n s r s' :
    constructed s → (n < length (nodes s))%nat →
    start this n s = Some (Return r, s') →
    constructed s'
| constructed_setParams this p s s' :
    constructed s → setParams this p s = Some (Return tt, s') →
    constructed s'.

(** Every object has a successor table of its own: object [a] holds a
    reference to table [a]. *)
Definition own_tables (s : state) : Prop :=
  length (tables s) = length (nodes s) ∧
  ∀ a o, nodes s !! a = Some o → successors o = a.

(** A promise run to the end with nothing else running in between: how
    it settles and the world it leaves. *)
Fixpoint settle {A} (j : job A) (w : W) : completion A * W :=
  match j with
  | Settled c => (c, w)
  | Suspended f => let '(w', j') := f w in settle j' w'
  end.

(** A call of an [async] callback, run to the end in the same way. *)
Definition settle_call {A} (f : acb A) (w : W) : completion A * W :=
  let '(w', j) := f w in settle j w'.

(** [n] consecutive calls of [ex] that are all rejected: the errors, in
    order, and the world they leave. *)
Fixpoint rejections (ex : acb value) (n : nat) (w : W)
  : option (list value * W) :=
  match n with
  | O => Some ([], w)
  | S n' =>
      match settle_call ex w with
      | (Throw e, w1) =>
          match rejections ex n' w1 with
          | Some (es, w2) => Some (e :: es, w2)
          | None => None
          end
      | (Return _, _) => None
      end
  end.

(** The task [p], resumed again and again from the state [s] with no
    other task running, settles with [c] and leaves the state [s']. *)
Inductive settles {A} : proc A → state → completion A → state → Prop :=
| settles_fin c s : settles (Fin c) s c s
| settles_atom f s s1 p c s' :
    f s = (s1, p) → settles p s1 c s' → settles (Atom f) s c s'.

Definition settles_call {A} (m : acall A) (s : state) (c : completion A)
    (s' : state) : Prop :=
  settles (snd (m s)) (fst (m s)) c s'.

(** No object of the heap is a suspendable node. *)
Definition all_sync (s : state) : Prop :=
  ∀ a o, nodes s !! a = Some o → instanceof_AsyncNode (cls o) = false.



(** The execute-with-retry cycles of a suspendable node run on the items
    in turn, each one to its end before the next one starts, with the
    results so far in [acc]: all of them return, or one is rejected and
    the items after it are not started. *)
Inductive cycles_in_turn (this : addr)
  : list value → list value → state → completion value → state → Prop :=
| cycles_done acc s : cycles_in_turn this [] acc s (Return (VArr acc)) s
| cycles_next x xs acc r s s1 c s2 :
    settles_call (AsyncNode_exec this x) s (Return r) s1 →
    cycles_in_turn this xs (acc ++ [r]) s1 c s2 →
    cycles_in_turn this (x :: xs) acc s c s2
| cycles_rejected x xs acc e s s1 :
    settles_call (AsyncNode_exec this x) s (Throw e) s1 →
    cycles_in_turn this (x :: xs) acc s (Throw e) s1.

(** [prepAsync] and [postAsync] of the object [o], run to the end with
    nothing else in between; a method that is not overridden is
    [AsyncNode]'s. *)
Definition prepAsync_alone (o : obj) (shared : Shared) (w : W)
  : completion value * W :=
  match prepAsync (meths o) with
  | Some f => settle_call (f (view_of o) shared) w
  | None => (Return VUndefined, w)
  end.

Definition postAsync_alone (o : obj) (shared : Shared) (p e : value) (w : W)
  : completion action * W :=
  match postAsync (meths o) with
  | Some f => settle_call (f (view_of o) shared p e) w
  | None => (Return (Some "default"%string), w)
  end.

(** [postAsync] of the flow [o], run to the end with nothing else in
    between; when it is not overridden it is [AsyncFlow]'s, which returns
    the label it is given. *)
Definition flow_postAsync_alone (o : obj) (shared : Shared) (p : value)
    (a : action) (w : W) : completion action * W :=
  match postAsync (meths o) with
  | Some f => settle_call (f (view_of o) shared p (action_value a)) w
  | None => (Return a, w)
  end.

(** ** Cycles that do not interfere *)

(** [execAsync] and [execFallbackAsync] of the node [o] on the item [x]; a
    method that is not overridden is [AsyncNode]'s. *)
Definition execAsync_of (o : obj) (x : value) : acb value :=
  match execAsync (meths o) with
  | Some f => f (view_of o) x
  | None => λ w, (w, Settled (Return VUndefined))
  end.

Definition fallbackAsync_of (o : obj) (x e : value) : acb value :=
  match execFallbackAsync (meths o) with
  | Some f => f (view_of o) x e
  | None => λ w, (w, Settled (Throw e))
  end.

(** The execute-with-retry cycle of the node [o] on the item [x], run from
    the world [w] with nothing else running in between, [n] attempts
    before the loop ends, at loop counter [i]: how it settles and the
    world it leaves. *)
Fixpoint cycle_alone (o : obj) (x : value) (n : nat) (i : Z) (w : W)
  : completion value * W :=
  match n with
  | O => (Return VUndefined, w)
  | S n' =>
      match settle_call (execAsync_of o x) w with
      | (Return r, w1) => (Return r, w1)
      | (Throw e, w1) =>
          if bool_decide (i = maxRetries o - 1)
          then settle_call (fallbackAsync_of o x e) w1
          else cycle_alone o x n' (i + 1) w1
      end
  end.

(** How the cycle of the item [x] settles when it is run alone from the
    world [w]. *)
Definition cycle_result (o : obj) (w : W) (x : value) : completion value :=
  fst (cycle_alone o x (Z.to_nat (maxRetries o)) 0 w).

(** Two promises that go the same way, block by block, as long as the
    worlds their blocks run in show the same through [π]: they are
    suspended together, leave worlds that show the same, and settle
    alike. *)
Inductive job_agrees {V A} (π : W → V) : job A → job A → Prop :=
| agrees_settled c : job_agrees π (Settled c) (Settled c)
| agrees_suspended f g :
    (∀ w1 w2, π w1 = π w2 → π (fst (f w1)) = π (fst (g w2))) →
    (∀ w1 w2, π w1 = π w2 → job_agrees π (snd (f w1)) (snd (g w2))) →
    job_agrees π (Suspended f) (Suspended g).

(** What the callback [f] does depends on the world through [π] only, and
    so does what it does to [π]: [π] shows all the callback reads. *)
Definition reads_only {V A} (π : W → V) (f : acb A) : Prop :=
  (∀ w1 w2, π w1 = π w2 → π (fst (f w1)) = π (fst (f w2))) ∧
  (∀ w1 w2, π w1 = π w2 → job_agrees π (snd (f w1)) (snd (f w2))).

(** No block of the promise, whenever it runs, changes what [π] shows. *)
Fixpoint job_spares {V A} (π : W → V) (j : job A) : Prop :=
  match j with
  | Settled _ => True
  | Suspended g =>
      ∀ w, match g w with (w', j') => π w' = π w ∧ job_spares π j' end
  end.

(** The callback [f] writes to nothing [π] shows. *)
Definition spares {V A} (π : W → V) (f : acb A) : Prop :=
  ∀ w, π (fst (f w)) = π w ∧ job_spares π (snd (f w)).

(** The cycles of the items do not interfere: [π i] shows all that the
    callbacks read when they are called on the item at position [i], and
    the callbacks called on the items at the other positions write to
    nothing it shows.  The callbacks may read and write what [π i] shows
    (a retry counter of the item, a slot of its own) and write what no
    [π] shows (a log). *)
Definition independent {V} (π : nat → W → V) (o : obj) (xs : list value)
  : Prop :=
  ∀ i x, xs !! i = Some x →
    reads_only (π i) (execAsync_of o x) ∧
    (∀ e, reads_only (π i) (fallbackAsync_of o x e)) ∧
    ∀ j, j ≠ i → (j < length xs)%nat →
      spares (π j) (execAsync_of o x) ∧
      ∀ e, spares (π j) (fallbackAsync_of o x e).

(** A task that, whenever its blocks run in the heap of [h] and in worlds
    that show [v] through [π] (and then what its own blocks made of it),
    keeps the heap and settles with a completion and in a world that
    satisfy [Q]. *)
Fixpoint ends {V A} (h : state) (π : W → V) (Q : completion A → V → Prop)
    (v : V) (p : proc A) {struct p} : Prop :=
  match p in proc A0 return (completion A0 → V → Prop) → Prop with
  | Fin c => λ Q, Q c v
  | Atom f => λ Q,
      ∀ w, π w = v →
        match f (with_world w h) with
        | (s', p') =>
            s' = with_world (world s') h ∧ ends h π Q (π (world s')) p'
        end
  | _ => λ _, False
  end Q.

Definition ends_call {V A} (h : state) (π : W → V)
    (Q : completion A → V → Prop) (v : V) (m : acall A) : Prop :=
  ∀ w, π w = v →
    match m (with_world w h) with
    | (s', p') => s' = with_world (world s') h ∧ ends h π Q (π (world s')) p'
    end.

(** A task none of whose blocks, run in the heap of [h], changes the heap
    or what [π] shows. *)
Fixpoint task_spares {V A} (h : state) (π : W → V) (p : proc A) {struct p}
  : Prop :=
  match p with
  | Fin _ => True
  | Atom f =>
      ∀ w, match f (with_world w h) with
           | (s', p') =>
               s' = with_world (world s') h ∧ π (world s') = π w ∧
               task_spares h π p'
           end
  | _ => False
  end.

Definition call_spares {V A} (h : state) (π : W → V) (m : acall A) : Prop :=
  ∀ w, match m (with_world w h) with
       | (s', p') =>
           s' = with_world (world s') h ∧ π (world s') = π w ∧
           task_spares h π p'
       end.

(** The tasks of a pool launched for the items [xs], in the world [w]:
    the task at position [i] ends with what the cycle of the item at [i]
    comes to when run alone from [w0], and spares what the other
    positions read. *)
Definition pool_ok {V} (h : state) (π : nat → W → V) (o : obj)
    (xs : list value) (w0 w : W) (ps : list (proc value)) : Prop :=
  ∀ i p, ps !! i = Some p →
    ∃ x, xs !! i = Some x ∧
      ends h (π i) (λ c _, c = cycle_result o w0 x) (π i w) p ∧
      ∀ j, j ≠ i → (j < length xs)%nat → task_spares h (π j) p.

End Engine.

Arguments Settled {_ A} c.
Arguments Suspended {_ A} resume.

(** * Example graphs

    Small graphs on which the properties are run.  The world is a counter,
    as a closure variable would be, and a log to which callbacks append,
    as they would to the shared store. *)

Module Examples.

Definition Wd : Type := (Z * list string)%type.

#[export] Instance logging_application : Application :=
  mkApplication Wd unit.

(** The store handed to [run]; the callbacks below keep their log in the
    world. *)
Definition store : Shared := tt.

Definition no_methods : methods :=
  mkMethods None None None None None None None None.

Definition say (line : string) (w : Wd) : Wd := (fst w, snd w ++ [line]).

(** A node that logs its three phases and returns the label [lbl]. *)
Definition logging (tag lbl : string) : methods :=
  mkMethods
    (Some (λ _ _ w, (Return VUndefined, say (tag +:+ ".prep") w)))
    (Some (λ _ _ w, (Return (VStr tag), say (tag +:+ ".exec") w)))
    None
    (Some (λ _ _ _ _ w, (Return (Some lbl), say (tag +:+ ".post") w)))
    None None None None.

Definition node (c : class) (m : methods) (table : addr)
    (retries : Z) (start : option addr) : obj :=
  mkObj c m ∅ table retries 0 0 start.

(** ** Retry *)

(** [exec] fails while fewer than [ok_from] attempts were made, with an
    error that names the attempt, and then returns the retry counter it
    sees; the fallback logs and returns the error it was given. *)
Definition flaky_exec (ok_from : Z) : view → value → cb value :=
  λ v _ w,
    if bool_decide (fst w < ok_from)
    then (Throw (VError ("attempt " +:+ pretty (fst w + 1))),
          (fst w + 1, snd w ++ ["exec failed"]))
    else (Return (VNum (v_curRetry v)),
          (fst w + 1, snd w ++ ["exec returned"])).

Definition logged_fallback : view → value → value → cb value :=
  λ _ _ e w, (Return e, say "fallback" w).

Definition flaky (ok_from : Z) : methods :=
  mkMethods None (Some (flaky_exec ok_from)) (Some logged_fallback)
    None None None None None.

Definition retry_node (ok_from retries : Z) : obj :=
  node CNode (flaky ok_from) 0%nat retries None.

Definition retry_state (ok_from retries : Z) : state :=
  mkState [retry_node ok_from retries] [∅] (0, []).

(** ** Batched task *)

(** A batch node over [flaky 3] with two attempts for each item: the
    first item uses up its attempts and is served by the fallback, the
    second succeeds at its second attempt. *)
Definition flaky_batch : obj :=
  node CBatchNode (flaky 3) 0%nat 2 None.

Definition flaky_batch_state : state :=
  mkState [flaky_batch] [∅] (0, []).

(** ** Flows *)

(** [A] at 0 with [B] at 1 registered under ["x"]; the flow at 2 starts
    with [A]. *)
Definition two_nodes (a_label : string) (a_table : gmap string addr)
  : state :=
  mkState [ node CNode (logging "A" a_label) 0%nat 1 None;
            node CNode (logging "B" "done") 1%nat 1 None;
            node CFlow no_methods 2%nat 1 (Some 0%nat) ]
          [ a_table; ∅; ∅ ] (0, []).

Definition a_then_b : state :=
  two_nodes "x" {[ "x"%string := 1%nat ]}.



(** [A] returns ["other"], which it has no successor for. *)
Definition a_unmatched : state :=
  two_nodes "other" {[ "x"%string := 1%nat ]}.

Definition a_unmatched_done : state :=
  mkState [ node CNode (logging "A" "other") 0%nat 1 None;
            node CNode (logging "B" "done") 1%nat 1 None;
            node CFlow no_methods 2%nat 1 (Some 0%nat) ]
          [ {[ "x"%string := 1%nat ]}; ∅; ∅ ]
          (0, ["A.prep"; "A.exec"; "A.post"]).

(** [A] returns the empty label, for which nothing is registered, and has
    a successor under ["default"]: the traversal goes on to [B]. *)
Definition a_empty_label : state :=
  two_nodes "" {[ "default"%string := 1%nat ]}.

(** ** Batch flow *)

(** A node that logs the language it is bound to. *)
Definition translate : methods :=
  mkMethods None
    (Some (λ v _ w,
       (Return VUndefined,
        say match v_params v !! "lang"%string with
            | Some (VStr l) => "translate " +:+ l
            | _ => "no language"
            end w)))
    None None None None None None.

Definition languages : list value :=
  [ VObj {[ "lang"%string := VStr "fr" ]};
    VObj {[ "lang"%string := VStr "de" ]} ].

Definition batch_methods : methods :=
  mkMethods (Some (λ _ _ w, (Return (VArr languages), w)))
    None None None None None None None.

Definition batch_flow : obj :=
  mkObj CBatchFlow batch_methods {[ "lang"%string := VStr "en" ]}
        1%nat 1 0 0 (Some 0%nat).

Definition translations : state :=
  mkState [ node CNode translate 0%nat 1 None; batch_flow ] [ ∅; ∅ ] (0, []).

Definition translated : state :=
  mkState [ node CNode translate 0%nat 1 None; batch_flow;
            mkObj CNode translate {[ "lang"%string := VStr "fr" ]}
                  0%nat 1 0 0 None;
            mkObj CNode translate {[ "lang"%string := VStr "de" ]}
                  0%nat 1 0 0 None ]
          [ ∅; ∅ ] (0, ["translate fr"; "translate de"]).

(** The same subgraph under a parallel batch flow whose [prepAsync] and
    [postAsync] log, each after one [await]. *)
Definition parallel_batch_methods : methods :=
  mkMethods None None None None
    (Some (λ _ _ w,
       (w, Suspended (λ w',
          (say "prepAsync" w', Settled (Return (VArr languages)))))))
    None None
    (Some (λ _ _ _ _ w,
       (w, Suspended (λ w',
          (say "postAsync" w', Settled (Return (Some "joined"%string))))))).

Definition parallel_batch_flow : obj :=
  mkObj CAsyncParallelBatchFlow parallel_batch_methods
        {[ "lang"%string := VStr "en" ]} 1%nat 1 0 0 (Some 0%nat).

Definition parallel_translations : state :=
  mkState [ node CNode translate 0%nat 1 None; parallel_batch_flow ]
          [ ∅; ∅ ] (0, []).

(** The state the two traversals leave, and the one finalize leaves. *)
Definition parallel_launched : state :=
  mkState [ node CNode translate 0%nat 1 None; parallel_batch_flow;
            mkObj CNode translate {[ "lang"%string := VStr "fr" ]}
                  0%nat 1 0 0 None;
            mkObj CNode translate {[ "lang"%string := VStr "de" ]}
                  0%nat 1 0 0 None ]
          [ ∅; ∅ ] (0, ["prepAsync"; "translate fr"; "translate de"]).

Definition parallel_translated : state :=
  with_world
    (0, ["prepAsync"; "translate fr"; "translate de"; "postAsync"])
    parallel_launched.

(** ** Isolation *)

(** A retrying node that fails on the first attempt ever made, logs the
    retry counter it sees when it succeeds, and asks to be run again
    until three attempts were made in all. *)
Definition looping : methods :=
  mkMethods None
    (Some (λ v _ w,
       if bool_decide (fst w < 1)
       then (Throw (VError "first attempt"), (fst w + 1, snd w))
       else (Return VUndefined,
             (fst w + 1,
              snd w ++ ["exec sees retry " +:+ pretty (v_curRetry v)]))))
    None
    (Some (λ _ _ _ _ w,
       (Return (Some (if bool_decide (fst w < 3)
                      then "again" else "stop")%string), w)))
    None None None None.

Definition loop_graph : state :=
  mkState [ node CNode looping 0%nat 2 None;
            node CFlow no_methods 1%nat 1 (Some 0%nat) ]
          [ {[ "again"%string := 0%nat ]}; ∅ ] (0, []).

(** ** Suspendable nodes *)

Definition async_state : state :=
  mkState [ node CAsyncNode (logging "A" "x") 0%nat 1 None ] [ ∅ ] (0, []).

Definition two_items : value := VArr [VStr "a"; VStr "b"].

(** The name of an item, and the lines it has in the log. *)
Definition tag (x : value) : string :=
  match x with
  | VStr t => t
  | _ => ""
  end.

Definition own_lines (t : string) (w : Wd) : list string :=
  filter (λ l, l = t) (snd w).

(** An [execAsync] that is rejected the first time it is called on an item
    and fulfilled the second time: it counts the lines the item has in
    the log all items share, awaits, and then adds a line for the item and
    settles. *)
Definition once_more_execAsync : view → value → acb value :=
  λ _ x w,
    (w, Suspended (λ w',
          ((fst w', snd w' ++ [tag x]),
           Settled (if bool_decide (length (own_lines (tag x) w) < 1)%nat
                    then Throw (VError "try again")
                    else Return x)))).

Definition once_more : methods :=
  mkMethods None None None None None (Some once_more_execAsync) None None.

Definition once_more_node (c : class) : obj :=
  node c once_more 0%nat 2 None.

Definition once_more_state (c : class) : state :=
  mkState [ once_more_node c ] [ ∅ ] (0, []).

(** What the callbacks read when they are called on the item at position
    [i]: the lines of that item in the log. *)
Definition lines_at (xs : list value) (i : nat) (w : Wd) : list string :=
  match xs !! i with
  | Some x => own_lines (tag x) w
  | None => []
  end.

(** An [execAsync] that reads a counter, awaits, and then writes the
    counter it read plus one and returns what it read. *)
Definition racy : methods :=
  mkMethods None None None None None
    (Some (λ _ _ w,
       (w, Suspended (λ w',
             ((fst w + 1, snd w'), Settled (Return (VNum (fst w))))))))
    None None.

Definition racy_state (c : class) : state :=
  mkState [ node c racy 0%nat 1 None ] [ ∅ ] (0, []).


(** ** Further graphs *)

(** The heap before anything was constructed. *)
Definition empty_heap : state := mkState [] [] (0, []).

(** A flow that was given no start node. *)
Definition empty_flow : state :=
  mkState [ node CFlow no_methods 0%nat 1 None ] [ ∅ ] (0, []).

(** A batched task with the inherited prepare, which returns
    [undefined]. *)
Definition batch_logging : methods :=
  mkMethods None
    (Some (λ _ _ w, (Return VUndefined, say "exec" w)))
    None
    (Some (λ _ _ _ _ w, (Return (Some "done"%string), say "post" w)))
    None None None None.

Definition batch_without_items : state :=
  mkState [ node CBatchNode batch_logging 0%nat 1 None ] [ ∅ ] (0, []).

(** [execAsync] awaits once and is then rejected while fewer than
    [ok_from] attempts were made, with an error that names the attempt;
    after that it is fulfilled with the retry counter it sees.  The
    fallback awaits once, logs and is fulfilled with the error it was
    given. *)
Definition flaky_execAsync (ok_from : Z) : view → value → acb value :=
  λ v _ w,
    (w, Suspended (λ w',
       if bool_decide (fst w' < ok_from)
       then ((fst w' + 1, snd w' ++ ["execAsync rejected"]),
             Settled (Throw (VError ("attempt " +:+ pretty (fst w' + 1)))))
       else ((fst w' + 1, snd w' ++ ["execAsync fulfilled"]),
             Settled (Return (VNum (v_curRetry v)))))).

Definition logged_fallbackAsync : view → value → value → acb value :=
  λ _ _ e w, (w, Suspended (λ w', (say "fallback" w', Settled (Return e)))).

Definition flaky_async (ok_from : Z) : methods :=
  mkMethods None None None None
    None (Some (flaky_execAsync ok_from)) (Some logged_fallbackAsync) None.

Definition async_retry_node (ok_from retries : Z) : obj :=
  node CAsyncNode (flaky_async ok_from) 0%nat retries None.

Definition async_retry_state (ok_from retries : Z) : state :=
  mkState [async_retry_node ok_from retries] [∅] (0, []).

(** A suspendable node that logs its three phases, each after one
    [await], and returns the label ["done"]. *)
Definition async_logging : methods :=
  mkMethods None None None None
    (Some (λ _ _ w,
       (w, Suspended (λ w', (say "prepAsync" w', Settled (Return (VNum 7)))))))
    (Some (λ _ p w,
       (w, Suspended (λ w', (say "execAsync" w', Settled (Return p))))))
    None
    (Some (λ _ _ _ _ w,
       (w, Suspended (λ w',
          (say "postAsync" w', Settled (Return (Some "done"%string))))))).

Definition async_logging_node : obj :=
  node CAsyncNode async_logging 0%nat 1 None.

Definition async_logging_state : state :=
  mkState [ async_logging_node ] [ ∅ ] (0, []).

(** The graph [a_then_b] under an [AsyncFlow]. *)
Definition async_flow_graph : state :=
  mkState [ node CNode (logging "A" "x") 0%nat 1 None;
            node CNode (logging "B" "done") 1%nat 1 None;
            node CAsyncFlow no_methods 2%nat 1 (Some 0%nat) ]
          [ {[ "x"%string := 1%nat ]}; ∅; ∅ ] (0, []).

Definition async_flow_done : state :=
  mkState (nodes async_flow_graph
             ++ [ node CNode (logging "A" "x") 0%nat 1 None;
                  node CNode (logging "B" "done") 1%nat 1 None ])
          (tables async_flow_graph)
          (0, ["A.prep"; "A.exec"; "A.post"; "B.prep"; "B.exec"; "B.post"]).

(** A node whose finalize always asks for the node itself. *)
Definition again_post : view → Shared → value → value → cb action :=
  λ _ _ _ _ w, (Return (Some "again"%string), w).

Definition spinning : methods :=
  mkMethods None None None (Some again_post) None None None None.

Definition spin_graph : state :=
  mkState [ node CNode spinning 0%nat 1 None;
            node CFlow no_methods 1%nat 1 (Some 0%nat) ]
          [ {[ "again"%string := 0%nat ]}; ∅ ] (0, []).

End Examples.

(** * Properties *)

Section Properties.

Context {App : Application}.

(** The warning of [run] and [runAsync] does not change what they
    compute. *)
Lemma run_eq (fuel : nat) (this : addr) (shared : Shared) (s : state) :
  run fuel this shared s = _run fuel this shared s.
Proof.
  unfold run, bind, console_warn, ret. by destruct (has_successors this s).
Qed.

Lemma runAsync_eq (fuel : nat) (this : addr) (shared : Shared) (s : state) :
  runAsync fuel this shared s
  = abind (_runAsync fuel this shared) (λ a, finish (Return a)) s.
Proof.
  unfold runAsync, sync, console_warn, ret.
  by destruct (has_successors this s).
Qed.

(** ** Fuel *)

Lemma le_M_refl {A} (m : M A) : le_M m m.
Proof. by intros s r. Qed.

Lemma le_M_bind {A B} (m m' : M A) (k k' : A → M B) :
  le_M m m' → (∀ a, le_M (k a) (k' a)) → le_M (bind m k) (bind m' k').
Proof.
  intros Hm Hk s r. unfold bind.
  destruct (m s) as [[[a|e] s1]|] eqn:E; [| |done].
  - rewrite (Hm _ _ E). apply Hk.
  - by rewrite (Hm _ _ E).
Qed.

Lemma le_M_traverse {A B} (f g : A → M B) xs :
  (∀ x, le_M (f x) (g x)) → le_M (traverse f xs) (traverse g xs).
Proof.
  intros Hfg. induction xs as [|x xs IH]; simpl; [apply le_M_refl|].
  apply le_M_bind; [apply Hfg|]. intros y.
  apply le_M_bind; [apply IH|]. intros ys. apply le_M_refl.
Qed.

Lemma le_M_orch_from loop loop' this shared ps :
  (∀ curr p last, le_M (loop curr p shared last) (loop' curr p shared last)) →
  le_M (orch_from loop this shared ps) (orch_from loop' this shared ps).
Proof.
  intros H. unfold orch_from.
  apply le_M_bind; [apply le_M_refl|]. intros f.
  apply le_M_bind; [apply le_M_refl|]. intros curr. apply H.
Qed.

Lemma le_M_run_body loop loop' this shared o :
  (∀ curr p last, le_M (loop curr p shared last) (loop' curr p shared last)) →
  le_M (run_body loop this shared o) (run_body loop' this shared o).
Proof.
  intros H. unfold run_body.
  destruct (cls o);
    repeat (first [ apply le_M_refl
                  | apply le_M_orch_from; assumption
                  | apply le_M_bind; [|intros ?]
                  | apply le_M_traverse; intros ? ]).
  match goal with |- context [iterate ?v] => destruct (iterate v) end;
    [|apply le_M_refl].
  repeat (first [ apply le_M_refl
                | apply le_M_orch_from; assumption
                | apply le_M_bind; [|intros ?]
                | apply le_M_traverse; intros ? ]).
Qed.

Lemma fuel_step (fuel : nat) :
  (∀ this shared, le_M (_run fuel this shared) (_run (S fuel) this shared)) ∧
  (∀ curr p shared last,
     le_M (orch_loop fuel curr p shared last)
          (orch_loop (S fuel) curr p shared last)).
Proof.
  induction fuel as [|fuel [IHr IHo]].
  - split; [by intros this shared s r|].
    intros [[c|k]|] p shared last s r; by simpl.
  - split.
    + intros this shared.
      change (le_M
        (bind (get_node this) (run_body (orch_loop fuel) this shared))
        (bind (get_node this) (run_body (orch_loop (S fuel)) this shared))).
      apply le_M_bind; [apply le_M_refl|]. intros o.
      apply le_M_run_body. intros. apply IHo.
    + intros [[c|k]|] p shared last; [|apply le_M_refl..].
      change (le_M
        (bind (setParams c p) (λ _, bind (_run fuel c shared) (λ a,
           bind (getNextNode c a) (λ nxt, bind (clone_target nxt) (λ curr',
             orch_loop fuel curr' p shared a)))))
        (bind (setParams c p) (λ _, bind (_run (S fuel) c shared) (λ a,
           bind (getNextNode c a) (λ nxt, bind (clone_target nxt) (λ curr',
             orch_loop (S fuel) curr' p shared a)))))).
      repeat (first [ apply IHr | apply IHo | apply le_M_refl
                    | apply le_M_bind; [|intros ?] ]).
Qed.


Lemma orch_loop_fuel_mono fuel fuel' curr p shared last s r :
  (fuel ≤ fuel')%nat → orch_loop fuel curr p shared last s = Some r →
  orch_loop fuel' curr p shared last s = Some r.
Proof.
  induction 1 as [|n _ IH]; [done|]. intros H.
  by apply (proj2 (fuel_step n)), IH.
Qed.


(** ** Unfolding equations *)

Lemma run_S fuel this shared :
  _run (S fuel) this shared
  = bind (get_node this) (run_body (orch_loop fuel) this shared).
Proof. reflexivity. Qed.

Lemma orch_loop_S fuel c p shared last :
  orch_loop (S fuel) (Some (NodeRef c)) p shared last
  = bind (setParams c p) (λ _, bind (_run fuel c shared) (λ a,
      bind (getNextNode c a) (λ nxt, bind (clone_target nxt) (λ curr',
        orch_loop fuel curr' p shared a)))).
Proof. reflexivity. Qed.

Lemma orch_loop_None fuel p shared last :
  orch_loop fuel None p shared last = ret last.
Proof. by destruct fuel. Qed.

Lemma orch_loop_Inherited fuel k p shared last :
  orch_loop fuel (Some (Inherited k)) p shared last
  = throw (VError "curr.setParams is not a function").
Proof. by destruct fuel. Qed.

Local Arguments _run : simpl never.
Local Arguments orch_loop : simpl never.

Lemma get_node_Some this o s :
  nodes s !! this = Some o → get_node this s = Some (Return o, s).
Proof. unfold get_node. by intros ->. Qed.

Lemma bind_get_node {A} this o (k : obj → M A) s :
  nodes s !! this = Some o → bind (get_node this) k s = k o s.
Proof. intros H. unfold bind. by rewrite (get_node_Some _ _ _ H). Qed.

(** ** Execute with retry *)

Section Retry.

Variables (this : addr) (o : obj) (ex : view → value → cb value) (p : value).
Hypothesis Hex : exec (meths o) = Some ex.

Lemma at_retry_lookup j w s :
  (this < length (nodes s))%nat →
  nodes (at_retry this o j w s) !! this = Some (with_curRetry j o).
Proof. intros H. simpl. by apply list_lookup_insert_eq. Qed.

Lemma call_exec_at_retry j w s :
  (this < length (nodes s))%nat →
  call_exec this p (at_retry this o j w s)
  = Some (fst (exec_at ex o p j w),
          at_retry this o j (snd (exec_at ex o p j w)) s).
Proof.
  intros H. unfold call_exec.
  rewrite (bind_get_node _ _ _ _ (at_retry_lookup j w s H)).
  simpl. rewrite Hex. unfold call, exec_at. simpl.
  by destruct (ex _ p w).
Qed.

(** Attempts that fail and are not the last one only move the retry
    counter and the world. *)
Lemma exec_attempts_failures n : ∀ i es w w' m s,
  (this < length (nodes s))%nat →
  failures (exec_at ex o p) n i w = Some (es, w') →
  i + Z.of_nat n ≤ maxRetries o - 1 →
  exec_attempts (n + m) this p (at_retry this o i w s)
  = exec_attempts m this p (at_retry this o (i + Z.of_nat n) w' s).
Proof.
  induction n as [|n IH]; intros i es w w' m s Hlt Hf Hle.
  - simpl in Hf. injection Hf as <- <-. by rewrite Z.add_0_r.
  - simpl in Hf.
    destruct (exec_at ex o p i w) as [[r|e] w1] eqn:E; [done|].
    destruct (failures _ n (i + 1) w1) as [[es' w2]|] eqn:F; [|done].
    injection Hf as <- <-.
    change (S n + m)%nat with (S (n + m)). cbn [exec_attempts].
    unfold try_catch. rewrite call_exec_at_retry by done. rewrite E. simpl.
    rewrite (bind_get_node _ _ _ _ (at_retry_lookup i w1 s Hlt)).
    simpl. rewrite bool_decide_eq_false_2 by lia.
    unfold bind, set_node. simpl.
    rewrite list_insert_insert_eq.
    replace (i + Z.of_nat (S n)) with ((i + 1) + Z.of_nat n) by lia.
    rewrite <- (IH (i + 1) es' w1 w2 m s Hlt F) by lia.
    reflexivity.
Qed.

Lemma node_exec_unfold s :
  nodes s !! this = Some o →
  Node_exec this p s
  = exec_attempts (Z.to_nat (maxRetries o)) this p
      (at_retry this o 0 (world s) s).
Proof.
  intros H. unfold Node_exec. rewrite (bind_get_node _ _ _ _ H).
  reflexivity.
Qed.

End Retry.


Lemma failures_snoc ex n : ∀ i es w w',
  failures ex (S n) i w = Some (es, w') →
  ∃ es0 w0 e,
    failures ex n i w = Some (es0, w0) ∧
    ex (i + Z.of_nat n) w0 = (Throw e, w') ∧ es = es0 ++ [e].
Proof.
  induction n as [|n IH]; intros i es w w' H.
  - simpl in H. destruct (ex i w) as [[r|e] w1] eqn:E; [done|].
    injection H as <- <-. exists [], w, e. by rewrite Z.add_0_r.
  - change (failures ex (S (S n)) i w) with
      (match ex i w with
       | (Throw e, w1) =>
           match failures ex (S n) (i + 1) w1 with
           | Some (es, w2) => Some (e :: es, w2)
           | None => None
           end
       | (Return _, _) => None
       end) in H.
    destruct (ex i w) as [[r|e] w1] eqn:E; [done|].
    destruct (failures ex (S n) (i + 1) w1) as [[es1 w2]|] eqn:F; [|done].
    injection H as <- <-.
    destruct (IH _ _ _ _ F) as (es0 & w0 & e' & F0 & E' & ->).
    exists (e :: es0), w0, e'. simpl. rewrite E, F0.
    replace (i + Z.of_nat (S n)) with (i + 1 + Z.of_nat n) by lia.
    done.
Qed.

Lemma call_prep_inv this shared s0 c s :
  call_prep this shared s0 = Some (c, s) → ∃ w, s = with_world w s0.
Proof.
  unfold call_prep, bind, get_node.
  destruct (nodes s0 !! this) as [o|]; [|done].
  destruct (prep (meths o)) as [f|].
  - unfold call. destruct (f _ shared (world s0)) as [c' w].
    intros [= <- <-]. by exists w.
  - intros [= <- <-]. exists (world s0). by destruct s0.
Qed.

Lemma run_Node fuel this shared o p s0 s :
  nodes s !! this = Some o → cls o = CNode →
  call_prep this shared s0 = Some (Return p, s) →
  run (S fuel) this shared s0
  = bind (Node_exec this p) (call_post this shared p) s.
Proof.
  intros Ho Hc Hp. destruct (call_prep_inv _ _ _ _ _ Hp) as [w ->].
  rewrite !run_eq. rewrite run_S, (bind_get_node _ o) by done.
  unfold run_body. rewrite Hc. unfold bind at 1. by rewrite Hp.
Qed.

(** C3.  A [Node] with [maxRetries = k ≥ 1] whose [exec] raises on attempts
    [1 .. k-1] and returns [r] on attempt [k]: the wrapped execute returns
    [r]; the successful attempt is the call of [exec] that sees
    [this.curRetry = k - 1], and that is the counter the node is left with;
    whatever [execFallback] is, it plays no part in the result or in the
    world; [run] hands [r] to [post]. *)
Theorem retry_succeeds_without_fallback
    (this : addr) (o : obj) (ex : view → value → cb value) (p r : value)
    (k : Z) (es : list value) (w1 w2 : W) (s : state) :
  nodes s !! this = Some o →
  exec (meths o) = Some ex →
  maxRetries o = k → 1 ≤ k →
  failures (exec_at ex o p) (Z.to_nat (k - 1)) 0 (world s) = Some (es, w1) →
  exec_at ex o p (k - 1) w1 = (Return r, w2) →
  Node_exec this p s = Some (Return r, at_retry this o (k - 1) w2 s) ∧
  curRetry <$> nodes (at_retry this o (k - 1) w2 s) !! this = Some (k - 1) ∧
  ∀ fuel shared s0,
    cls o = CNode → call_prep this shared s0 = Some (Return p, s) →
    run (S fuel) this shared s0
    = call_post this shared p r (at_retry this o (k - 1) w2 s).
Proof.
  intros Ho Hex Hk Hk1 Hf Hok.
  assert (Hlt : (this < length (nodes s))%nat) by by eapply lookup_lt_Some.
  assert (Hn : Node_exec this p s
               = Some (Return r, at_retry this o (k - 1) w2 s)).
  { rewrite (node_exec_unfold _ _ _ _ Ho), Hk.
    replace (Z.to_nat k) with (Z.to_nat (k - 1) + 1)%nat by lia.
    rewrite (exec_attempts_failures this o ex p Hex _ 0 es _ w1) by
      (done || lia).
    rewrite Z.add_0_l, Z2Nat.id by lia.
    cbn [exec_attempts]. unfold try_catch.
    rewrite (call_exec_at_retry this o ex p Hex) by done.
    by rewrite Hok. }
  split; [done|]. split.
  - by rewrite at_retry_lookup.
  - intros fuel shared s0 Hc Hp.
    rewrite (run_Node _ _ _ _ _ _ _ Ho Hc Hp). unfold bind. by rewrite Hn.
Qed.

(** C2.  A [Node] with [maxRetries = k ≥ 1] whose [exec] raises on each of
    its [k] attempts: the wrapped execute is one call of [execFallback] on
    the prepare result [p] and the error [e] of the [k]-th attempt, made in
    the world the [k] attempts left, and its completion is the fallback's.
    The default fallback throws [e], which then leaves [run] before [post]
    is reached. *)
Theorem retry_exhausted_calls_fallback_once
    (this : addr) (o : obj) (ex : view → value → cb value) (p e : value)
    (k : Z) (es : list value) (w1 : W) (s : state) :
  nodes s !! this = Some o →
  exec (meths o) = Some ex →
  maxRetries o = k → 1 ≤ k →
  failures (exec_at ex o p) (Z.to_nat k) 0 (world s) = Some (es, w1) →
  last es = Some e →
  Node_exec this p s
    = call_execFallback this p e (at_retry this o (k - 1) w1 s) ∧
  (∀ fb, execFallback (meths o) = Some fb →
     Node_exec this p s
     = Some (fst (fb (view_of (with_curRetry (k - 1) o)) p e w1),
             at_retry this o (k - 1)
               (snd (fb (view_of (with_curRetry (k - 1) o)) p e w1)) s)) ∧
  (execFallback (meths o) = None →
     Node_exec this p s = Some (Throw e, at_retry this o (k - 1) w1 s) ∧
     ∀ fuel shared s0,
       cls o = CNode → call_prep this shared s0 = Some (Return p, s) →
       run (S fuel) this shared s0
       = Some (Throw e, at_retry this o (k - 1) w1 s)).
Proof.
  intros Ho Hex Hk Hk1 Hf Hlast.
  assert (Hlt : (this < length (nodes s))%nat) by by eapply lookup_lt_Some.
  replace (Z.to_nat k) with (S (Z.to_nat (k - 1))) in Hf by lia.
  destruct (failures_snoc _ _ _ _ _ _ Hf) as (es0 & w0 & e' & F0 & E & ->).
  rewrite last_snoc in Hlast. injection Hlast as ->.
  rewrite Z.add_0_l, Z2Nat.id in E by lia.
  assert (Hn : Node_exec this p s
               = call_execFallback this p e (at_retry this o (k - 1) w1 s)).
  { rewrite (node_exec_unfold _ _ _ _ Ho), Hk.
    replace (Z.to_nat k) with (Z.to_nat (k - 1) + 1)%nat by lia.
    rewrite (exec_attempts_failures this o ex p Hex _ 0 es0 _ w0) by
      (done || lia).
    rewrite Z.add_0_l, Z2Nat.id by lia.
    cbn [exec_attempts]. unfold try_catch.
    rewrite (call_exec_at_retry this o ex p Hex) by done.
    rewrite E. cbn [fst snd].
    rewrite (bind_get_node _ _ _ _ (at_retry_lookup _ _ _ w1 s Hlt)).
    cbn [curRetry maxRetries with_curRetry]. rewrite Hk.
    by rewrite bool_decide_eq_true_2. }
  assert (Hfb : ∀ s', nodes s' !! this = Some (with_curRetry (k - 1) o) →
            call_execFallback this p e s'
            = match execFallback (meths o) with
              | Some f => call (f (view_of (with_curRetry (k - 1) o)) p e) s'
              | None => Some (Throw e, s')
              end).
  { intros s' Hs'. unfold call_execFallback.
    rewrite (bind_get_node _ _ _ _ Hs'). simpl.
    by destruct (execFallback (meths o)). }
  split; [done|]. rewrite Hn, Hfb by by apply at_retry_lookup.
  split.
  - intros fb ->. unfold call. simpl. by destruct (fb _ p e w1).
  - intros Hnone. rewrite Hnone. split; [done|].
    intros fuel shared s0 Hc Hp.
    rewrite (run_Node _ _ _ _ _ _ _ Ho Hc Hp). unfold bind.
    rewrite Hn, Hfb by by apply at_retry_lookup. by rewrite Hnone.
Qed.

(** C10.  A [Node] constructed with [maxRetries = 0]: the loop of the
    wrapped execute is not entered, so it returns [undefined] after
    resetting the retry counter, whatever [exec] and [execFallback] are and
    without touching the world; [run] goes on to [post] with an
    [undefined] execute result. *)
Theorem zero_retries_returns_undefined
    (this : addr) (o : obj) (p : value) (s : state) :
  nodes s !! this = Some o →
  maxRetries o = 0 →
  Node_exec this p s
    = Some (Return VUndefined, at_retry this o 0 (world s) s) ∧
  ∀ fuel shared s0,
    cls o = CNode → call_prep this shared s0 = Some (Return p, s) →
    run (S fuel) this shared s0
    = call_post this shared p VUndefined (at_retry this o 0 (world s) s).
Proof.
  intros Ho H0.
  assert (Hn : Node_exec this p s
               = Some (Return VUndefined, at_retry this o 0 (world s) s)).
  { unfold Node_exec. rewrite (bind_get_node _ _ _ _ Ho), H0. reflexivity. }
  split; [done|]. intros fuel shared s0 Hc Hp.
  rewrite (run_Node _ _ _ _ _ _ _ Ho Hc Hp). unfold bind. by rewrite Hn.
Qed.


(** ** Batched task *)

Lemma bind_Some {A B} (m : M A) (k : A → M B) s r :
  bind m k s = Some r →
  (∃ a s1, m s = Some (Return a, s1) ∧ k a s1 = Some r) ∨
  (∃ e s1, m s = Some (Throw e, s1) ∧ r = (Throw e, s1)).
Proof.
  unfold bind. destruct (m s) as [[[a|e] s1]|]; [| |done].
  - intros H. left. by exists a, s1.
  - intros [= <-]. right. by exists e, s1.
Qed.



(** ** The cycle of one item, in terms of the callbacks *)

Lemma failures_extend ex n : ∀ i es w w1 e w2,
  failures ex n i w = Some (es, w1) →
  ex (i + Z.of_nat n) w1 = (Throw e, w2) →
  failures ex (S n) i w = Some (es ++ [e], w2).
Proof.
  induction n as [|n IH]; intros i es w w1 e w2 Hf He.
  - injection Hf as <- <-. rewrite Z.add_0_r in He. simpl. by rewrite He.
  - simpl in Hf. destruct (ex i w) as [[r|e0] w0] eqn:E; [done|].
    destruct (failures ex n (i + 1) w0) as [[es0 w3]|] eqn:F; [|done].
    injection Hf as <- <-.
    replace (i + Z.of_nat (S n)) with (i + 1 + Z.of_nat n) in He by lia.
    pose proof (IH _ _ _ _ _ _ F He) as H.
    change (failures ex (S (S n)) i w) with
      (match ex i w with
       | (Throw e, w1) =>
           match failures ex (S n) (i + 1) w1 with
           | Some (es, w2) => Some (e :: es, w2)
           | None => None
           end
       | (Return _, _) => None
       end).
    by rewrite E, H.
Qed.

Lemma at_retry_id this (o : obj) i s :
  nodes s !! this = Some (with_curRetry i o) →
  at_retry this o i (world s) s = s.
Proof.
  intros H. destruct s as [ns ts w]. unfold at_retry. simpl in *.
  by rewrite list_insert_id.
Qed.

Lemma at_retry_at_retry this (o : obj) j j' w w' s :
  at_retry this o j' w' (at_retry this o j w s) = at_retry this o j' w' s.
Proof. unfold at_retry. simpl. by rewrite list_insert_insert_eq. Qed.

Lemma call_exec_of this (o : obj) x j w s :
  (this < length (nodes s))%nat →
  call_exec this x (at_retry this o j w s)
  = Some (fst (exec_of o x j w), at_retry this o j (snd (exec_of o x j w)) s).
Proof.
  intros H. unfold call_exec.
  rewrite (bind_get_node _ _ _ _ (at_retry_lookup this o j w s H)).
  unfold exec_of. simpl. destruct (exec (meths o)) as [f|]; [|done].
  unfold call, exec_at. simpl. by destruct (f _ x w).
Qed.

Lemma call_execFallback_of this (o : obj) x e j w s :
  (this < length (nodes s))%nat →
  call_execFallback this x e (at_retry this o j w s)
  = Some (fst (fallback_of o x e j w),
          at_retry this o j (snd (fallback_of o x e j w)) s).
Proof.
  intros H. unfold call_execFallback.
  rewrite (bind_get_node _ _ _ _ (at_retry_lookup this o j w s H)).
  unfold fallback_of. simpl. destruct (execFallback (meths o)) as [f|]; [|done].
  unfold call. simpl. by destruct (f _ x e w).
Qed.

(** Attempts that raise and are not the last one only move the retry
    counter and the world. *)
Lemma exec_attempts_failed this (o : obj) x n : ∀ i es w w' m s,
  (this < length (nodes s))%nat →
  failures (exec_of o x) n i w = Some (es, w') →
  i + Z.of_nat n ≤ maxRetries o - 1 →
  exec_attempts (n + m) this x (at_retry this o i w s)
  = exec_attempts m this x (at_retry this o (i + Z.of_nat n) w' s).
Proof.
  induction n as [|n IH]; intros i es w w' m s Hlt Hf Hle.
  - simpl in Hf. injection Hf as <- <-. by rewrite Z.add_0_r.
  - simpl in Hf.
    destruct (exec_of o x i w) as [[r|e] w1] eqn:E; [done|].
    destruct (failures _ n (i + 1) w1) as [[es' w2]|] eqn:F; [|done].
    injection Hf as <- <-.
    change (S n + m)%nat with (S (n + m)). cbn [exec_attempts].
    unfold try_catch. rewrite call_exec_of by done. rewrite E. simpl.
    rewrite (bind_get_node _ _ _ _ (at_retry_lookup this o i w1 s Hlt)).
    simpl. rewrite bool_decide_eq_false_2 by lia.
    unfold bind, set_node. simpl.
    rewrite list_insert_insert_eq.
    replace (i + Z.of_nat (S n)) with ((i + 1) + Z.of_nat n) by lia.
    rewrite <- (IH (i + 1) es' w1 w2 m s Hlt F) by lia.
    reflexivity.
Qed.

(** The wrapped execute of a [Node] does what [cycle_outcome] says, and
    leaves the node with some retry counter and nothing else changed. *)
Lemma Node_exec_cycle this (o : obj) i x s c w' :
  nodes s !! this = Some (with_curRetry i o) →
  cycle_outcome o x (world s) c w' →
  ∃ j, Node_exec this x s = Some (c, at_retry this o j w' s).
Proof.
  intros Ho Hc.
  assert (Hlt : (this < length (nodes s))%nat) by by eapply lookup_lt_Some.
  rewrite (node_exec_unfold this _ x s Ho).
  destruct Hc as [a es w1 r w' Ha Hf Hok|es e w1 c w' Hk Hf Hlast Hfb|Hk].
  - exists a.
    replace (Z.to_nat (maxRetries (with_curRetry i o)))
      with (Z.to_nat a + S (Z.to_nat (maxRetries o - a - 1)))%nat
      by (simpl; lia).
    change (at_retry this (with_curRetry i o) 0 (world s) s)
      with (at_retry this o 0 (world s) s).
    rewrite (exec_attempts_failed this o x _ 0 es _ w1) by (done || lia).
    rewrite Z.add_0_l, Z2Nat.id by lia.
    cbn [exec_attempts]. unfold try_catch.
    rewrite call_exec_of by done. by rewrite Hok.
  - exists (maxRetries o - 1).
    replace (Z.to_nat (maxRetries o))
      with (S (Z.to_nat (maxRetries o - 1))) in Hf by lia.
    destruct (failures_snoc _ _ _ _ _ _ Hf) as (es0 & w0 & e' & F0 & E & ->).
    rewrite last_snoc in Hlast. injection Hlast as ->.
    rewrite Z.add_0_l, Z2Nat.id in E by lia.
    replace (Z.to_nat (maxRetries (with_curRetry i o)))
      with (Z.to_nat (maxRetries o - 1) + 1)%nat by (simpl; lia).
    change (at_retry this (with_curRetry i o) 0 (world s) s)
      with (at_retry this o 0 (world s) s).
    rewrite (exec_attempts_failed this o x _ 0 es0 _ w0) by (done || lia).
    rewrite Z.add_0_l, Z2Nat.id by lia.
    cbn [exec_attempts]. unfold try_catch.
    rewrite call_exec_of by done. rewrite E. cbn [fst snd].
    rewrite (bind_get_node _ _ _ _ (at_retry_lookup this o _ w1 s Hlt)).
    cbn [curRetry maxRetries with_curRetry].
    rewrite bool_decide_eq_true_2 by done.
    rewrite call_execFallback_of by done. by rewrite Hfb.
  - exists 0.
    replace (Z.to_nat (maxRetries (with_curRetry i o))) with 0%nat
      by (simpl; lia).
    reflexivity.
Qed.

(** Every cycle comes to one of the three outcomes. *)
Lemma cycle_outcome_total (o : obj) x w : ∃ c w', cycle_outcome o x w c w'.
Proof.
  destruct (decide (maxRetries o ≤ 0)) as [Hk|Hk].
  { exists (Return VUndefined), w. by constructor. }
  assert (Hn : ∀ n, (n ≤ Z.to_nat (maxRetries o))%nat →
            (∃ r w', cycle_outcome o x w (Return r) w') ∨
            (∃ es w1, failures (exec_of o x) n 0 w = Some (es, w1))).
  { induction n as [|n IH]; intros Hle.
    - right. by exists [], w.
    - destruct IH as [?|(es & w1 & Hf)]; [lia|by left|].
      destruct (exec_of o x (Z.of_nat n) w1) as [[r|e] w2] eqn:E.
      + left. exists r, w2.
        apply (cycle_exec o x w (Z.of_nat n) es w1); [lia| |done].
        by rewrite Nat2Z.id.
      + right. exists (es ++ [e]), w2.
        by apply (failures_extend _ _ _ _ _ w1). }
  destruct (Hn (Z.to_nat (maxRetries o))) as [(r & w' & H)|(es & w1 & Hf)];
    [lia|by exists (Return r), w'|].
  pose proof Hf as Hf'.
  replace (Z.to_nat (maxRetries o))
    with (S (Z.to_nat (maxRetries o - 1))) in Hf' by lia.
  destruct (failures_snoc _ _ _ _ _ _ Hf') as (es0 & w0 & e & _ & _ & ->).
  destruct (fallback_of o x e (maxRetries o - 1) w1) as [c w'] eqn:Hfb.
  exists c, w'.
  apply (cycle_fallback o x w (es0 ++ [e]) e w1); [lia|done| |done].
  apply last_snoc.
Qed.

Lemma served_length (o : obj) xs w rs w' :
  served_in_order o xs w rs w' → length rs = length xs.
Proof. induction 1; simpl; congruence. Qed.

Lemma served_lookup (o : obj) xs w rs w' :
  served_in_order o xs w rs w' →
  ∀ i x r, xs !! i = Some x → rs !! i = Some r →
    ∃ w1 w2, cycle_outcome o x w1 (Return r) w2.
Proof.
  induction 1 as [|x xs r rs w w1 w2 Hc _ IH]; intros i y q Hx Hr; [done|].
  destruct i as [|i]; simpl in Hx, Hr.
  - injection Hx as <-. injection Hr as <-. by exists w, w1.
  - by eapply IH.
Qed.

(** The cycles of the items, one after the other. *)
Lemma traverse_cycles this (o : obj) : ∀ items i s,
  nodes s !! this = Some (with_curRetry i o) →
  ∃ c j w',
    traverse (Node_exec this) items s = Some (c, at_retry this o j w' s) ∧
    match c with
    | Return rs => served_in_order o items (world s) rs w'
    | Throw e =>
        ∃ before x after rs w1,
          items = before ++ x :: after ∧
          served_in_order o before (world s) rs w1 ∧
          cycle_outcome o x w1 (Throw e) w'
    end.
Proof.
  induction items as [|x xs IH]; intros i s Ho.
  - exists (Return []), i, (world s). rewrite at_retry_id by done.
    split; [done|constructor].
  - assert (Hlt : (this < length (nodes s))%nat) by by eapply lookup_lt_Some.
    destruct (cycle_outcome_total o x (world s)) as (c & w1 & Hc).
    destruct (Node_exec_cycle this o i x s c w1 Ho Hc) as (j & Hx).
    cbn [traverse]. unfold bind at 1. rewrite Hx.
    destruct c as [r|e].
    + destruct (IH j (at_retry this o j w1 s)
                  (at_retry_lookup this o j w1 s Hlt))
        as (c' & j' & w' & Hxs & Hout).
      unfold bind at 1. rewrite Hxs, at_retry_at_retry.
      destruct c' as [rs|e].
      * exists (Return (r :: rs)), j', w'. split; [done|].
        by econstructor.
      * exists (Throw e), j', w'. split; [done|].
        destruct Hout as (before & y & after & rs & w2 & -> & Hb & Hy).
        exists (x :: before), y, after, (r :: rs), w2.
        split; [done|]. split; [by econstructor|done].
    + exists (Throw e), j, w1. split; [done|].
      exists [], x, xs, [], (world s). split; [done|].
      split; [constructor|done].
Qed.

Lemma traverse_served this (o : obj) : ∀ items i s rs w',
  nodes s !! this = Some (with_curRetry i o) →
  served_in_order o items (world s) rs w' →
  ∃ j, traverse (Node_exec this) items s
       = Some (Return rs, at_retry this o j w' s).
Proof.
  induction items as [|x xs IH]; intros i s rs w' Ho Hs.
  - inversion Hs; subst. exists i. by rewrite at_retry_id.
  - assert (Hlt : (this < length (nodes s))%nat) by by eapply lookup_lt_Some.
    inversion Hs as [|? ? r rs' ? w1 ? Hc Hxs]; subst.
    destruct (Node_exec_cycle this o i x s _ w1 Ho Hc) as (j & Hx).
    destruct (IH j (at_retry this o j w1 s) rs' w'
                (at_retry_lookup this o j w1 s Hlt) Hxs) as (j' & Hr).
    exists j'. cbn [traverse]. unfold bind at 1. rewrite Hx.
    unfold bind at 1. rewrite Hr. by rewrite at_retry_at_retry.
Qed.

Lemma with_curRetry_id (o : obj) : with_curRetry (curRetry o) o = o.
Proof. by destruct o. Qed.

(** C5.  [BatchNode._exec] on the items [[i1, ..., in]] always completes.
    It returns exactly when the execute-with-retry cycle of every item,
    run in input order, each in the world the one before it left,
    returns; its result is then the sequence of those [n] results in the
    same order: the element at position [j] is what [exec] returned for
    [ij] at its first attempt that did not raise, or what [execFallback]
    returned for [ij] after all [maxRetries] attempts raised (or
    [undefined] when [maxRetries] allows no attempt), and the items after
    an exhausted one are processed all the same.  It throws only when the
    fallback of some item throws, after the items before it were
    processed, and then what that fallback threw.  Apart from the world,
    nothing changes but the retry counter of the node. *)
Theorem batch_exec_maps_items_in_order
    (this : addr) (o : obj) (items : list value) (s : state) :
  nodes s !! this = Some o →
  (∃ c s' j,
     BatchNode_exec this (VArr items) s = Some (c, s') ∧
     s' = at_retry this o j (world s') s) ∧
  (∀ v s', BatchNode_exec this (VArr items) s = Some (Return v, s') →
     ∃ rs, v = VArr rs ∧ length rs = length items ∧
           served_in_order o items (world s) rs (world s') ∧
           ∀ i x r, items !! i = Some x → rs !! i = Some r →
             ∃ w1 w2, cycle_outcome o x w1 (Return r) w2) ∧
  (∀ rs w', served_in_order o items (world s) rs w' →
     ∃ s', BatchNode_exec this (VArr items) s = Some (Return (VArr rs), s') ∧
           world s' = w') ∧
  (∀ e s', BatchNode_exec this (VArr items) s = Some (Throw e, s') →
     ∃ before x after rs w1,
       items = before ++ x :: after ∧
       served_in_order o before (world s) rs w1 ∧
       cycle_outcome o x w1 (Throw e) (world s')) ∧
  (∀ x w e w', cycle_outcome o x w (Throw e) w' →
     ∃ es e0 w1,
       1 ≤ maxRetries o ∧
       failures (exec_of o x) (Z.to_nat (maxRetries o)) 0 w = Some (es, w1) ∧
       last es = Some e0 ∧
       fallback_of o x e0 (maxRetries o - 1) w1 = (Throw e, w')).
Proof.
  intros Ho.
  assert (Ho' : nodes s !! this = Some (with_curRetry (curRetry o) o))
    by by rewrite with_curRetry_id.
  assert (Hb : BatchNode_exec this (VArr items)
               = bind (traverse (Node_exec this) items) (λ rs, ret (VArr rs)))
    by reflexivity.
  destruct (traverse_cycles this o items _ s Ho') as (c & j & w' & Ht & Hout).
  split; [|split; [|split; [|split]]].
  - rewrite Hb. unfold bind. rewrite Ht.
    destruct c as [rs|e]; eexists _, _, j; (split; [done|done]).
  - intros v s' H. rewrite Hb in H. unfold bind in H. rewrite Ht in H.
    destruct c as [rs|e]; [|done]. injection H as <- <-.
    exists rs. split; [done|]. split; [by eapply served_length|].
    split; [done|]. by eapply served_lookup.
  - intros rs w2 Hs.
    destruct (traverse_served this o items _ s rs w2 Ho' Hs) as (j' & Hr).
    eexists. rewrite Hb. unfold bind. rewrite Hr. done.
  - intros e s' H. rewrite Hb in H. unfold bind in H. rewrite Ht in H.
    destruct c as [rs|e']; [done|]. injection H as <- <-. exact Hout.
  - intros x w e w2 H.
    inversion H as [|es e0 w1 c0 w3 Hk Hf Hlast Hfb|]; subst.
    by exists es, e0, w1.
Qed.


(** ** What a run writes to *)

Lemma preserved_refl X s : preserved X s s.
Proof. by repeat split. Qed.

Lemma preserved_weaken (X Y : addr → Prop) s s' :
  (∀ a, X a → Y a) → preserved X s s' → preserved Y s s'.
Proof. intros HXY (Ht & Hl & Hn). repeat split; [done..|]. naive_solver. Qed.

(** What is written after [s1] counts against [s] only where it already
    existed in [s]. *)
Lemma preserved_seq (X Y : addr → Prop) s s1 s2 :
  preserved X s s1 → preserved Y s1 s2 →
  (∀ a, Y a → (a < length (nodes s))%nat → X a) →
  preserved X s s2.
Proof.
  intros (Ht & Hl & Hn) (Ht' & Hl' & Hn') HYX. split; [congruence|].
  split; [lia|]. intros a Ha HX.
  rewrite Hn' by (lia || naive_solver). by apply Hn.
Qed.

Lemma preserved_trans X s s1 s2 :
  preserved X s s1 → preserved X s1 s2 → preserved X s s2.
Proof. intros H1 H2. eapply preserved_seq; eauto. Qed.

Lemma touches_weaken {A} (X Y : addr → Prop) (m : M A) :
  (∀ a, X a → Y a) → touches X m → touches Y m.
Proof. intros HXY H s r Hr. eapply preserved_weaken; eauto. Qed.

Lemma touches_ret {A} X (a : A) : touches X (ret a).
Proof. intros s r [= <-]. apply preserved_refl. Qed.

Lemma touches_throw {A} X e : touches X (throw (A:=A) e).
Proof. intros s r [= <-]. apply preserved_refl. Qed.

Lemma touches_stuck {A} X : touches X (stuck (A:=A)).
Proof. by intros s r. Qed.

Lemma touches_bind {A B} X (m : M A) (k : A → M B) :
  touches X m → (∀ a, touches X (k a)) → touches X (bind m k).
Proof.
  intros Hm Hk s r H.
  destruct (bind_Some _ _ _ _ H) as [(a & s1 & Hs & H1)|(e & s1 & Hs & ->)].
  - eapply preserved_trans; [apply (Hm _ _ Hs)|apply (Hk _ _ _ H1)].
  - apply (Hm _ _ Hs).
Qed.

Lemma touches_try_catch {A B} X (m : M A) (k : completion A → M B) :
  touches X m → (∀ c, touches X (k c)) → touches X (try_catch m k).
Proof.
  intros Hm Hk s r. unfold try_catch.
  destruct (m s) as [[c s1]|] eqn:Hs; [|done]. intros H.
  eapply preserved_trans; [apply (Hm _ _ Hs)|apply (Hk _ _ _ H)].
Qed.

Lemma touches_traverse {A B} X (f : A → M B) xs :
  (∀ x, touches X (f x)) → touches X (traverse f xs).
Proof.
  intros Hf. induction xs as [|x xs IH]; simpl; [apply touches_ret|].
  apply touches_bind; [apply Hf|]. intros y.
  apply touches_bind; [apply IH|]. intros ys. apply touches_ret.
Qed.

Lemma touches_get_node X a : touches X (get_node a).
Proof.
  intros s r. unfold get_node. destruct (nodes s !! a); [|done].
  intros [= <-]. apply preserved_refl.
Qed.

Lemma touches_get_table X t : touches X (get_table t).
Proof.
  intros s r. unfold get_table. destruct (tables s !! t); [|done].
  intros [= <-]. apply preserved_refl.
Qed.

Lemma touches_call {A} X (f : cb A) : touches X (call f).
Proof.
  intros s r. unfold call. destruct (f (world s)) as [c w].
  intros [= <-]. by repeat split.
Qed.

Lemma touches_set_node a o : touches (λ b, b = a) (set_node a o).
Proof.
  intros s r [= <-]. unfold preserved, with_nodes. simpl. split; [done|]. split.
  - by rewrite length_insert.
  - intros b _ Hb. apply list_lookup_insert_ne. naive_solver.
Qed.

Lemma touches_clone X a : touches X (clone a).
Proof.
  intros s r. unfold clone. destruct (nodes s !! a); [|done].
  intros [= <-]. unfold preserved, with_nodes. simpl. split; [done|]. split.
  - rewrite length_app. lia.
  - intros b Hb _. by apply lookup_app_l.
Qed.

Lemma clone_fresh a s c s' :
  clone a s = Some (Return c, s') → c = length (nodes s).
Proof.
  unfold clone. destruct (nodes s !! a); [|done]. by intros [= <- _].
Qed.

Lemma touches_clone_target X t : touches X (clone_target t).
Proof.
  destruct t as [[a|k]|]; simpl; [|apply touches_ret..].
  apply touches_bind; [apply touches_clone|]. intros c. apply touches_ret.
Qed.

Lemma clone_target_fresh t s c s' :
  clone_target t s = Some (Return (Some (NodeRef c)), s') →
  c = length (nodes s).
Proof.
  destruct t as [[a|k]|]; simpl; [|done..]. intros H.
  destruct (bind_Some _ _ _ _ H) as [(c' & s1 & Hc & [= -> _])|(? & ? & _ & ?)];
    [|done].
  by eapply clone_fresh.
Qed.

Ltac touches_tac :=
  repeat first
    [ apply touches_ret | apply touches_throw | apply touches_stuck
    | apply touches_get_node | apply touches_get_table | apply touches_call
    | apply touches_clone_target
    | apply touches_bind; [|intros ?]
    | apply touches_try_catch; [|intros ?]
    | apply touches_traverse; intros ?
    | assumption
    | match goal with
      | |- touches _ (match ?x with _ => _ end) => destruct x
      | |- touches _ (if ?x then _ else _) => destruct x
      end ].

Lemma touches_call_prep X this shared : touches X (call_prep this shared).
Proof. unfold call_prep. touches_tac. Qed.

Lemma touches_call_exec X this p : touches X (call_exec this p).
Proof. unfold call_exec. touches_tac. Qed.

Lemma touches_call_post X this shared p e :
  touches X (call_post this shared p e).
Proof. unfold call_post. touches_tac. Qed.

Lemma touches_call_flow_post X this shared p a :
  touches X (call_flow_post this shared p a).
Proof. unfold call_flow_post. touches_tac. Qed.

Lemma touches_call_execFallback X this p e :
  touches X (call_execFallback this p e).
Proof. unfold call_execFallback. touches_tac. Qed.

Lemma touches_getNextNode X c a : touches X (getNextNode c a).
Proof. unfold getNextNode. touches_tac. Qed.

Lemma touches_setParams c p : touches (λ b, b = c) (setParams c p).
Proof.
  unfold setParams. apply touches_bind; [apply touches_get_node|].
  intros o. apply touches_set_node.
Qed.

Lemma touches_exec_attempts n this p :
  touches (λ b, b = this) (exec_attempts n this p).
Proof.
  induction n as [|n IH]; cbn [exec_attempts]; [apply touches_ret|].
  apply touches_try_catch; [apply touches_call_exec|]. intros [r|e].
  - apply touches_ret.
  - apply touches_bind; [apply touches_get_node|]. intros o.
    destruct (bool_decide _); [apply touches_call_execFallback|].
    apply touches_bind; [apply touches_set_node|]. by intros _.
Qed.

Lemma touches_node_exec this p : touches (λ b, b = this) (Node_exec this p).
Proof.
  unfold Node_exec. apply touches_bind; [apply touches_get_node|].
  intros o. apply touches_bind; [apply touches_set_node|]. intros _.
  apply touches_exec_attempts.
Qed.

Lemma touches_batch_exec this p :
  touches (λ b, b = this) (BatchNode_exec this p).
Proof.
  unfold BatchNode_exec.
  destruct (if truthy p then p else VArr []); try apply touches_throw.
  apply touches_bind; [|intros ?; apply touches_ret].
  apply touches_traverse. intros x. apply touches_node_exec.
Qed.

(** [_orch] writes to nothing that exists when it starts, provided its
    loop writes only to its current node. *)
Lemma touches_orch_from loop this shared ps :
  (∀ curr p last,
     touches (λ a, curr = Some (NodeRef a)) (loop curr p shared last)) →
  touches (λ _, False) (orch_from loop this shared ps).
Proof.
  intros Hloop s r H. unfold orch_from in H.
  destruct (bind_Some _ _ _ _ H) as [(f & s1 & Hf & H1)|(e & s1 & Hf & ->)];
    pose proof (touches_get_node (λ _, False) _ _ _ Hf) as P1;
    [|done].
  destruct (bind_Some _ _ _ _ H1) as [(curr & s2 & Hc & H2)|(e & s2 & Hc & ->)];
    pose proof (touches_clone_target (λ _, False) _ _ _ Hc) as P2;
    [|by eapply preserved_trans].
  eapply preserved_trans; [exact P1|].
  eapply preserved_seq; [exact P2|apply (Hloop _ _ _ _ _ H2)|].
  simpl. intros a -> Ha.
  apply clone_target_fresh in Hc. simpl in Hc. lia.
Qed.

Lemma touches_run_body loop this shared o :
  (∀ curr p last,
     touches (λ a, curr = Some (NodeRef a)) (loop curr p shared last)) →
  touches (λ a, a = this ∧ retrying (cls o) = true)
          (run_body loop this shared o).
Proof.
  intros Hloop. unfold run_body.
  pose proof (touches_orch_from loop this shared) as Ho.
  destruct (cls o) eqn:Hc; simpl;
    repeat first
      [ apply touches_call_prep | apply touches_call_exec
      | apply touches_call_post | apply touches_call_flow_post
      | apply touches_throw | apply touches_get_node
      | eapply touches_weaken; [|apply touches_node_exec]; naive_solver
      | eapply touches_weaken; [|apply touches_batch_exec]; naive_solver
      | eapply touches_weaken; [|apply Ho; assumption]; naive_solver
      | apply touches_bind; [|intros ?]
      | apply touches_traverse; intros ?
      | match goal with
        | |- touches _ (match ?x with _ => _ end) => destruct x
        end ].
Qed.

Lemma frame_step (fuel : nat) :
  (∀ this shared, touches (λ a, a = this) (_run fuel this shared)) ∧
  (∀ curr p shared last,
     touches (λ a, curr = Some (NodeRef a))
             (orch_loop fuel curr p shared last)).
Proof.
  induction fuel as [|fuel [IHr IHo]].
  - split; [intros; apply touches_stuck|].
    intros [[c|k]|] p shared last; simpl;
      [apply touches_stuck|apply touches_throw|apply touches_ret].
  - split.
    + intros this shared. rewrite run_S.
      apply touches_bind; [apply touches_get_node|]. intros o.
      eapply touches_weaken; [|apply touches_run_body; intros; apply IHo].
      by intros a [-> _].
    + intros [[c|k]|] p shared last;
        [|apply touches_throw|apply touches_ret].
      rewrite orch_loop_S. intros s r H.
      destruct (bind_Some _ _ _ _ H) as [(? & s1 & H1 & H1')|(e & s1 & H1 & ->)];
        pose proof (touches_setParams _ _ _ _ H1) as P1; simpl in P1;
        [|eapply preserved_weaken; [|exact P1]; naive_solver].
      destruct (bind_Some _ _ _ _ H1') as [(a & s2 & H2 & H2')|(e & s2 & H2 & ->)];
        pose proof (IHr _ _ _ _ H2) as P2; simpl in P2;
        assert (P12 : preserved (λ b, b = c) s s2)
          by (eapply preserved_trans; eauto);
        [|eapply preserved_weaken; [|exact P12]; naive_solver].
      destruct (bind_Some _ _ _ _ H2') as [(n & s3 & H3 & H3')|(e & s3 & H3 & ->)];
        pose proof (touches_getNextNode (λ b, b = c) _ _ _ _ H3) as P3;
        simpl in P3;
        assert (P13 : preserved (λ b, b = c) s s3)
          by (eapply preserved_trans; eauto);
        [|eapply preserved_weaken; [|exact P13]; naive_solver].
      destruct (bind_Some _ _ _ _ H3') as [(curr' & s4 & H4 & H4')|(e & s4 & H4 & ->)];
        pose proof (touches_clone_target (λ b, b = c) _ _ _ H4) as P4;
        simpl in P4;
        assert (P14 : preserved (λ b, b = c) s s4)
          by (eapply preserved_trans; eauto);
        [|eapply preserved_weaken; [|exact P14]; naive_solver].
      eapply preserved_weaken with (X := λ b, b = c); [naive_solver|].
      eapply preserved_seq; [exact P14|apply (IHo _ _ _ _ _ _ H4')|].
      simpl. intros b -> Hb. apply clone_target_fresh in H4.
      destruct P13 as (_ & Hl & _). lia.
Qed.

(** Running the node at [this] writes, among the objects that exist, at
    most to [this], and only when it is a retrying node. *)
Lemma run_touches fuel this shared s r o :
  _run fuel this shared s = Some r → nodes s !! this = Some o →
  preserved (λ a, a = this ∧ retrying (cls o) = true) s (snd r).
Proof.
  destruct fuel as [|fuel]; [done|]. rewrite run_S. intros H Ho.
  rewrite (bind_get_node _ _ _ _ Ho) in H.
  eapply touches_run_body; [|exact H]. intros. apply frame_step.
Qed.

Lemma orch_loop_touches fuel curr p shared last :
  touches (λ a, curr = Some (NodeRef a)) (orch_loop fuel curr p shared last).
Proof. apply frame_step. Qed.

Lemma orch_touches fuel this shared ps :
  touches (λ _, False) (_orch fuel this shared ps).
Proof. apply touches_orch_from. intros. apply orch_loop_touches. Qed.


(** ** A run does not depend on what earlier runs left in the heap *)

Section Padding.

Variables (N : nat) (G : list obj).

Local Abbreviation sh := (shift N (length G)) (only parsing).
Local Abbreviation tsh := (tshift N (length G)) (only parsing).
Local Abbreviation padG := (pad N G) (only parsing).
Local Abbreviation simG := (sim N G) (only parsing).
Local Abbreviation closedN := (closed N) (only parsing).
Local Abbreviation closed_targetN := (closed_target N) (only parsing).

Lemma pad_lookup s a :
  (N ≤ length (nodes s))%nat → nodes (padG s) !! sh a = nodes s !! a.
Proof.
  intros HN. unfold pad, shift, with_nodes. simpl. case_decide.
  - rewrite lookup_app_l by (rewrite length_take; lia).
    by apply lookup_take_lt.
  - rewrite lookup_app_r by (rewrite length_take; lia).
    rewrite lookup_app_r by (rewrite length_take; lia).
    rewrite lookup_drop, length_take. f_equal. lia.
Qed.

Lemma pad_insert (l : list obj) a o :
  (N ≤ length l)%nat →
  <[sh a := o]> (take N l ++ G ++ drop N l)
  = take N (<[a := o]> l) ++ G ++ drop N (<[a := o]> l).
Proof.
  intros HN. unfold shift. case_decide.
  - rewrite insert_app_l by (rewrite length_take; lia).
    by rewrite take_insert_lt, drop_insert_lt by lia.
  - rewrite take_insert_ge, drop_insert_ge by lia.
    replace (a + length G)%nat
      with (length (take N l) + (length G + (a - N)))%nat
      by (rewrite length_take; lia).
    by rewrite !insert_app_r.
Qed.

Lemma pad_app (l : list obj) o :
  (N ≤ length l)%nat →
  (take N l ++ G ++ drop N l) ++ [o]
  = take N (l ++ [o]) ++ G ++ drop N (l ++ [o]).
Proof.
  intros HN. rewrite take_app_le, drop_app_le by done.
  by rewrite <- !app_assoc.
Qed.

Lemma pad_length s :
  (N ≤ length (nodes s))%nat →
  length (nodes (padG s)) = sh (length (nodes s)).
Proof.
  intros HN. unfold pad, shift, with_nodes. simpl.
  rewrite !length_app, length_take, length_drop. case_decide; lia.
Qed.

Lemma wf_closed s a o : wf N s → nodes s !! a = Some o → closedN o.
Proof. intros (_ & Hs & _) Ho b Hb. eauto. Qed.

Lemma wf_insert s a o :
  wf N s → closedN o → wf N (with_nodes (<[a := o]> (nodes s)) s).
Proof.
  intros (HN & Hs & Ht) Ho. split; [|split]; simpl.
  - by rewrite length_insert.
  - intros a' o' b Hl. destruct (decide (a = a')) as [->|Hne].
    + destruct (decide (a' < length (nodes s))%nat).
      * rewrite list_lookup_insert_eq in Hl by done.
        injection Hl as <-. apply Ho.
      * rewrite list_insert_ge in Hl by lia. eauto.
    + rewrite list_lookup_insert_ne in Hl by done. eauto.
  - exact Ht.
Qed.

Lemma wf_app s o : wf N s → closedN o → wf N (with_nodes (nodes s ++ [o]) s).
Proof.
  intros (HN & Hs & Ht) Ho. split; [|split]; simpl.
  - rewrite length_app. lia.
  - intros a' o' b Hl. apply lookup_app_Some in Hl as [Hl|[_ Hl]]; [eauto|].
    destruct (a' - length (nodes s))%nat; simpl in Hl; [|done].
    injection Hl as <-. apply Ho.
  - exact Ht.
Qed.

Lemma wf_world s w : wf N s → wf N (with_world w s).
Proof. by intros (HN & Hs & Ht). Qed.

(** *** The combinators *)

Lemma sim_ret {A} (R : A → A → Prop) a b : R a b → simG R (ret a) (ret b).
Proof. intros HR s Hwf. by simpl. Qed.

Lemma sim_throw {A} (R : A → A → Prop) e : simG R (throw e) (throw e).
Proof. intros s Hwf. by simpl. Qed.

Lemma sim_stuck {A} (R : A → A → Prop) : simG R stuck stuck.
Proof. by intros s Hwf. Qed.

Lemma sim_bind {A B} (R : A → A → Prop) (Q : B → B → Prop)
    (m1 m2 : M A) (k1 k2 : A → M B) :
  simG R m1 m2 → (∀ a b, R a b → simG Q (k1 a) (k2 b)) →
  simG Q (bind m1 k1) (bind m2 k2).
Proof.
  intros Hm Hk s Hwf. specialize (Hm s Hwf). unfold bind.
  destruct (m1 s) as [[[a|e] s1]|], (m2 (padG s)) as [[[b|e'] s2]|];
    try done; destruct Hm as (HR & -> & Hwf1); simpl in HR; try done.
  by apply Hk.
Qed.

Lemma sim_try_catch {A B} (R : A → A → Prop) (Q : B → B → Prop)
    (m1 m2 : M A) (k1 k2 : completion A → M B) :
  simG R m1 m2 → (∀ c1 c2, crel R c1 c2 → simG Q (k1 c1) (k2 c2)) →
  simG Q (try_catch m1 k1) (try_catch m2 k2).
Proof.
  intros Hm Hk s Hwf. specialize (Hm s Hwf). unfold try_catch.
  destruct (m1 s) as [[c1 s1]|], (m2 (padG s)) as [[c2 s2]|]; try done.
  destruct Hm as (HR & -> & Hwf1). by apply Hk.
Qed.

Lemma sim_traverse {A B} (Q : B → B → Prop) (f g : A → M B) xs :
  (∀ x, simG Q (f x) (g x)) →
  simG (Forall2 Q) (traverse f xs) (traverse g xs).
Proof.
  intros Hfg. induction xs as [|x xs IH]; simpl.
  - by apply sim_ret.
  - eapply sim_bind; [apply Hfg|]. intros y y' Hy.
    eapply sim_bind; [apply IH|]. intros ys ys' Hys.
    apply sim_ret. by constructor.
Qed.

Lemma sim_weaken {A} (R Q : A → A → Prop) (m1 m2 : M A) :
  (∀ a b, R a b → Q a b) → simG R m1 m2 → simG Q m1 m2.
Proof.
  intros HRQ Hm s Hwf. specialize (Hm s Hwf).
  destruct (m1 s) as [[[a|e] s1]|], (m2 (padG s)) as [[[b|e'] s2]|];
    try done; destruct Hm as (HR & -> & Hwf1); simpl in *; eauto.
Qed.

(** *** The primitives *)

Lemma sim_get_node a :
  simG (λ o1 o2, o1 = o2 ∧ closedN o1) (get_node a) (get_node (sh a)).
Proof.
  intros s Hwf. unfold get_node.
  rewrite pad_lookup by apply Hwf.
  destruct (nodes s !! a) as [o|] eqn:Ho; [|done].
  simpl. eauto using wf_closed.
Qed.

Lemma sim_get_table t : simG eq (get_table t) (get_table t).
Proof.
  intros s Hwf. unfold get_table. simpl.
  by destruct (tables s !! t).
Qed.

Lemma sim_call {A} (f : cb A) : simG eq (call f) (call f).
Proof.
  intros s Hwf. unfold call. simpl. destruct (f (world s)) as [[a|e] w];
    simpl; eauto using wf_world.
Qed.

Lemma sim_set_node a o :
  closedN o → simG eq (set_node a o) (set_node (sh a) o).
Proof.
  intros Ho s Hwf. unfold set_node. simpl. split; [done|].
  split; [|by apply wf_insert].
  unfold pad, with_nodes. simpl. f_equal. apply pad_insert, Hwf.
Qed.

Lemma sim_clone a :
  closed_targetN (Some (NodeRef a)) →
  simG (λ c1 c2, c2 = sh c1) (clone a) (clone a).
Proof.
  intros Ha s Hwf. unfold clone.
  assert (sh a = a) as Hsa
    by (unfold shift; rewrite decide_True; eauto).
  pose proof (pad_lookup s a (proj1 Hwf)) as Hl. rewrite Hsa in Hl.
  rewrite Hl.
  destruct (nodes s !! a) as [o|] eqn:Ho; [|done]. simpl.
  split; [by rewrite <- (pad_length s) by apply Hwf|].
  split; [|eauto using wf_app, wf_closed].
  unfold pad, with_nodes. simpl. f_equal. apply pad_app, Hwf.
Qed.

Lemma sim_clone_target t :
  closed_targetN t →
  simG (λ c1 c2, c2 = tsh c1) (clone_target t) (clone_target t).
Proof.
  intros Ht. destruct t as [[a|k]|]; simpl; [|by apply sim_ret..].
  eapply sim_bind; [by apply sim_clone|].
  intros c1 c2 ->. by apply sim_ret.
Qed.

(** *** The engine *)

Lemma sim_closed_table t :
  simG (λ m1 m2, m1 = m2 ∧ ∀ k b, m1 !! k = Some b → (b < N)%nat)
       (get_table t) (get_table t).
Proof.
  intros s Hwf. unfold get_table. simpl.
  destruct (tables s !! t) as [m|] eqn:Ht; [|done].
  split; [|done]. split; [done|]. intros k b Hk.
  destruct Hwf as (_ & _ & Hw). eauto.
Qed.

Lemma sim_call_prep this shared :
  simG eq (call_prep this shared) (call_prep (sh this) shared).
Proof.
  unfold call_prep. eapply sim_bind; [apply sim_get_node|].
  intros o ? [<- _]. destruct (prep (meths o)); [apply sim_call|].
  by apply sim_ret.
Qed.

Lemma sim_call_exec this p :
  simG eq (call_exec this p) (call_exec (sh this) p).
Proof.
  unfold call_exec. eapply sim_bind; [apply sim_get_node|].
  intros o ? [<- _]. destruct (exec (meths o)); [apply sim_call|].
  by apply sim_ret.
Qed.

Lemma sim_call_post this shared p e :
  simG eq (call_post this shared p e) (call_post (sh this) shared p e).
Proof.
  unfold call_post. eapply sim_bind; [apply sim_get_node|].
  intros o ? [<- _]. destruct (post (meths o)); [apply sim_call|].
  by apply sim_ret.
Qed.

Lemma sim_call_flow_post this shared p a :
  simG eq (call_flow_post this shared p a)
          (call_flow_post (sh this) shared p a).
Proof.
  unfold call_flow_post. eapply sim_bind; [apply sim_get_node|].
  intros o ? [<- _]. destruct (post (meths o)); [apply sim_call|].
  by apply sim_ret.
Qed.

Lemma sim_call_execFallback this p e :
  simG eq (call_execFallback this p e) (call_execFallback (sh this) p e).
Proof.
  unfold call_execFallback. eapply sim_bind; [apply sim_get_node|].
  intros o ? [<- _]. destruct (execFallback (meths o)); [apply sim_call|].
  apply sim_throw.
Qed.

Lemma sim_setParams c p : simG eq (setParams c p) (setParams (sh c) p).
Proof.
  unfold setParams. eapply sim_bind; [apply sim_get_node|].
  intros o ? [<- Ho]. by apply sim_set_node.
Qed.

Lemma sim_getNextNode c a :
  simG (λ t1 t2, t1 = t2 ∧ closed_targetN t1)
       (getNextNode c a) (getNextNode (sh c) a).
Proof.
  unfold getNextNode. eapply sim_bind; [apply sim_get_node|].
  intros o ? [<- _]. eapply sim_bind; [apply sim_closed_table|].
  intros m ? [<- Hm]. apply sim_ret. split; [done|].
  intros b Hb. unfold js_get in Hb.
  destruct (m !! key_of a) as [b'|] eqn:E.
  - injection Hb as ->. eauto.
  - by destruct (bool_decide _).
Qed.

Lemma sim_exec_attempts n this p :
  simG eq (exec_attempts n this p) (exec_attempts n (sh this) p).
Proof.
  induction n as [|n IH]; cbn [exec_attempts]; [by apply sim_ret|].
  eapply sim_try_catch; [apply sim_call_exec|].
  intros [r|e] [r'|e'] Hc; try done; simpl in Hc; subst;
    try (by apply sim_ret).
  eapply sim_bind; [apply sim_get_node|]. intros o ? [<- Ho].
  destruct (bool_decide _); [apply sim_call_execFallback|].
  eapply sim_bind; [by apply sim_set_node|]. intros _ _ _. apply IH.
Qed.

Lemma sim_node_exec this p :
  simG eq (Node_exec this p) (Node_exec (sh this) p).
Proof.
  unfold Node_exec. eapply sim_bind; [apply sim_get_node|].
  intros o ? [<- Ho]. eapply sim_bind; [by apply sim_set_node|].
  intros _ _ _. apply sim_exec_attempts.
Qed.

Lemma Forall2_eq {A} (xs ys : list A) : Forall2 eq xs ys → xs = ys.
Proof. induction 1; congruence. Qed.

Lemma sim_batch_exec this p :
  simG eq (BatchNode_exec this p) (BatchNode_exec (sh this) p).
Proof.
  unfold BatchNode_exec.
  destruct (if truthy p then p else VArr []); try apply sim_throw.
  eapply sim_bind; [apply sim_traverse; intros x; apply sim_node_exec|].
  intros rs rs' ->%Forall2_eq. by apply sim_ret.
Qed.

Lemma sim_orch_from loop1 loop2 this shared ps :
  (∀ curr p last,
     simG eq (loop1 curr p shared last) (loop2 (tsh curr) p shared last)) →
  simG eq (orch_from loop1 this shared ps)
          (orch_from loop2 (sh this) shared ps).
Proof.
  intros Hloop. unfold orch_from.
  eapply sim_bind; [apply sim_get_node|]. intros f ? [<- Hf].
  eapply sim_bind.
  - apply sim_clone_target. intros b Hb.
    destruct (startNode f) as [b'|] eqn:E; [|done].
    injection Hb as ->. by apply Hf.
  - intros curr ? ->. apply Hloop.
Qed.

Lemma sim_run_body loop1 loop2 this shared o :
  (∀ curr p last,
     simG eq (loop1 curr p shared last) (loop2 (tsh curr) p shared last)) →
  simG eq (run_body loop1 this shared o) (run_body loop2 (sh this) shared o).
Proof.
  intros Hloop. unfold run_body.
  pose proof (sim_orch_from loop1 loop2 this shared) as Ho.
  destruct (cls o); try apply sim_throw;
    (eapply sim_bind; [apply sim_call_prep|]; intros p ? <-).
  - eapply sim_bind; [apply sim_call_exec|]. intros e ? <-.
    apply sim_call_post.
  - eapply sim_bind; [apply sim_node_exec|]. intros e ? <-.
    apply sim_call_post.
  - eapply sim_bind; [apply sim_batch_exec|]. intros e ? <-.
    apply sim_call_post.
  - eapply sim_bind; [by apply Ho|]. intros a ? <-.
    apply sim_call_flow_post.
  - destruct (iterate _); [|apply sim_throw].
    eapply sim_bind; [|intros ? ? _; apply sim_call_flow_post].
    apply sim_traverse with (Q := eq). intros bp.
    eapply sim_bind; [apply sim_get_node|]. intros f ? [<- _].
    by apply Ho.
  - eapply sim_bind; [by apply Ho|]. intros a ? <-.
    apply sim_call_flow_post.
  - eapply sim_bind; [by apply Ho|]. intros a ? <-.
    apply sim_call_flow_post.
  - eapply sim_bind; [by apply Ho|]. intros a ? <-.
    apply sim_call_flow_post.
Qed.

Lemma sim_step (fuel : nat) :
  (∀ this shared,
     simG eq (_run fuel this shared) (_run fuel (sh this) shared)) ∧
  (∀ curr p shared last,
     simG eq (orch_loop fuel curr p shared last)
             (orch_loop fuel (tsh curr) p shared last)).
Proof.
  induction fuel as [|fuel [IHr IHo]].
  - split; [intros; apply sim_stuck|].
    intros [[c|k]|] p shared last; simpl;
      [apply sim_stuck|apply sim_throw|by apply sim_ret].
  - split.
    + intros this shared. rewrite !run_S.
      eapply sim_bind; [apply sim_get_node|]. intros o ? [<- _].
      apply sim_run_body. intros. apply IHo.
    + intros [[c|k]|] p shared last;
        [|apply sim_throw|by apply sim_ret].
      cbn [tshift]. rewrite !orch_loop_S.
      eapply sim_bind; [apply sim_setParams|]. intros _ _ _.
      eapply sim_bind; [apply IHr|]. intros a ? <-.
      eapply sim_bind; [apply sim_getNextNode|]. intros nxt ? [<- Hn].
      eapply sim_bind; [by apply sim_clone_target|]. intros curr' ? ->.
      apply IHo.
Qed.

End Padding.


(** ** Node isolation *)

Lemma preserved_prefix s s' :
  preserved (λ _, False) s s' → nodes s `prefix_of` nodes s'.
Proof.
  intros (_ & Hl & Hn). exists (drop (length (nodes s)) (nodes s')).
  rewrite <- (take_drop (length (nodes s)) (nodes s')) at 1. f_equal.
  apply list_eq. intros i.
  destruct (decide (i < length (nodes s))%nat) as [Hi|Hi].
  - rewrite lookup_take_lt by done. apply Hn; [done|tauto].
  - rewrite lookup_take_ge by lia. symmetry. apply lookup_ge_None. lia.
Qed.

Lemma pad_end s G' w :
  pad (length (nodes s)) G' (with_world w s)
  = mkState (nodes s ++ G') (tables s) w.
Proof.
  unfold pad, with_nodes, with_world. simpl.
  by rewrite take_ge, drop_ge, app_nil_r by done.
Qed.


(** ** What a run leaves of the node it runs *)

Lemma keeps_ret {A} I (a : A) : keeps I (ret a).
Proof. by intros s r HI [= <-]. Qed.

Lemma keeps_throw {A} I e : keeps I (throw (A:=A) e).
Proof. by intros s r HI [= <-]. Qed.

Lemma keeps_bind {A B} I (m : M A) (k : A → M B) :
  keeps I m → (∀ a, keeps I (k a)) → keeps I (bind m k).
Proof.
  intros Hm Hk s r HI H.
  destruct (bind_Some _ _ _ _ H) as [(a & s1 & Hs & H1)|(e & s1 & Hs & ->)].
  - eapply Hk; [|exact H1]. apply (Hm _ _ HI Hs).
  - apply (Hm _ _ HI Hs).
Qed.

Lemma keeps_try_catch {A B} I (m : M A) (k : completion A → M B) :
  keeps I m → (∀ c, keeps I (k c)) → keeps I (try_catch m k).
Proof.
  intros Hm Hk s r HI. unfold try_catch.
  destruct (m s) as [[c s1]|] eqn:Hs; [|done]. intros H.
  eapply Hk; [|exact H]. apply (Hm _ _ HI Hs).
Qed.

Lemma keeps_traverse {A B} I (f : A → M B) xs :
  (∀ x, keeps I (f x)) → keeps I (traverse f xs).
Proof.
  intros Hf. induction xs as [|x xs IH]; simpl.
  - by intros s r HI [= <-].
  - apply keeps_bind; [apply Hf|]. intros y.
    apply keeps_bind; [apply IH|]. intros ys. by intros s r HI [= <-].
Qed.

(** What does not write to [this] keeps it. *)
Lemma keeps_untouched {A} (X : addr → Prop) this o (m : M A) :
  touches X m → ¬ X this → keeps (is_at this o) m.
Proof.
  intros Hm HX s r [j Hj] H. exists j.
  destruct (Hm _ _ H) as (_ & _ & Hn). rewrite Hn; [done| |done].
  by eapply lookup_lt_Some.
Qed.

Lemma keeps_pure {A} this o (m : M A) :
  touches (λ _, False) m → keeps (is_at this o) m.
Proof. intros Hm. eapply keeps_untouched; [exact Hm|tauto]. Qed.

Lemma keeps_exec_attempts n this o p :
  keeps (is_at this o) (exec_attempts n this p).
Proof.
  induction n as [|n IH]; cbn [exec_attempts].
  - by intros s r HI [= <-].
  - apply keeps_try_catch; [apply keeps_pure, touches_call_exec|].
    intros [r|e]; [by intros s r' HI [= <-]|].
    intros s r [j Hj] H. rewrite (bind_get_node _ _ _ _ Hj) in H.
    destruct (bool_decide _).
    + eapply keeps_pure; [apply touches_call_execFallback| |exact H].
      by exists j.
    + eapply IH; [|exact H]. unfold is_at, with_nodes. simpl.
      eexists. rewrite list_lookup_insert_eq by by eapply lookup_lt_Some.
      reflexivity.
Qed.

Lemma keeps_node_exec this o p : keeps (is_at this o) (Node_exec this p).
Proof.
  intros s r [j Hj] H. unfold Node_exec in H.
  rewrite (bind_get_node _ _ _ _ Hj) in H.
  eapply keeps_exec_attempts; [|exact H]. unfold is_at, with_nodes. simpl.
  eexists. rewrite list_lookup_insert_eq by by eapply lookup_lt_Some.
  reflexivity.
Qed.

Lemma keeps_batch_exec this o p : keeps (is_at this o) (BatchNode_exec this p).
Proof.
  unfold BatchNode_exec.
  destruct (if truthy p then p else VArr []); try apply keeps_throw.
  apply keeps_bind; [|intros rs; apply keeps_ret].
  apply keeps_traverse. intros x. apply keeps_node_exec.
Qed.

(** After its lifecycle the node that was run differs from what it was by
    its retry counter at most. *)
Lemma run_keeps_this fuel this shared o :
  keeps (is_at this o) (_run fuel this shared).
Proof.
  destruct fuel as [|fuel]; [by intros s r|]. rewrite run_S.
  assert (Ho : ∀ ps, keeps (is_at this o)
             (orch_from (orch_loop fuel) this shared ps)).
  { intros ps. apply keeps_pure, touches_orch_from.
    intros. apply orch_loop_touches. }
  apply keeps_bind; [apply keeps_pure, touches_get_node|]. intros o'.
  unfold run_body.
  destruct (cls o');
    repeat first
      [ apply keeps_pure, touches_call_prep
      | apply keeps_pure, touches_call_exec
      | apply keeps_pure, touches_call_post
      | apply keeps_pure, touches_call_flow_post
      | apply keeps_pure, touches_get_node
      | apply keeps_pure, touches_throw
      | apply keeps_node_exec | apply keeps_batch_exec | apply Ho
      | apply keeps_bind; [|intros ?]
      | apply keeps_traverse; intros ?
      | match goal with
        | |- keeps _ (match ?x with _ => _ end) => destruct x
        end ].
Qed.


(** ** One step of the traversal *)

Lemma setParams_Some c p o s :
  nodes s !! c = Some o → setParams c p s = Some (Return tt, bound c p o s).
Proof. intros H. unfold setParams. by rewrite (bind_get_node _ _ _ _ H). Qed.

Lemma bound_lookup c p o s :
  nodes s !! c = Some o → nodes (bound c p o s) !! c = Some (with_params p o).
Proof.
  intros H. unfold bound, with_nodes. simpl.
  apply list_lookup_insert_eq. by eapply lookup_lt_Some.
Qed.

Lemma getNextNode_Some c o t a s :
  nodes s !! c = Some o → tables s !! successors o = Some t →
  getNextNode c a s = Some (Return (js_get t (key_of a)), s).
Proof.
  intros Ho Ht. unfold getNextNode. rewrite (bind_get_node _ _ _ _ Ho).
  unfold bind, get_table. by rewrite Ht.
Qed.

(** The lookup that follows the lifecycle of the node bound at [c] reads
    the table the node had before. *)
Lemma getNextNode_after_run fuel c p shared o t a s s2 :
  nodes s !! c = Some o → tables s !! successors o = Some t →
  _run fuel c shared (bound c p o s) = Some (Return a, s2) →
  getNextNode c a s2 = Some (Return (js_get t (key_of a)), s2).
Proof.
  intros Ho Ht Hrun.
  destruct (run_keeps_this _ _ _ (with_params p o) _ _
              (ex_intro _ (curRetry o) (bound_lookup c p o s Ho)) Hrun)
    as [j Hj]. simpl in Hj.
  eapply getNextNode_Some; [exact Hj|]. simpl.
  pose proof (proj1 (frame_step fuel) _ _ _ _ Hrun) as (Htb & _). simpl in Htb.
  by rewrite Htb.
Qed.

Lemma orch_loop_step fuel c p shared last o t a s s2 :
  nodes s !! c = Some o → tables s !! successors o = Some t →
  _run fuel c shared (bound c p o s) = Some (Return a, s2) →
  orch_loop (S fuel) (Some (NodeRef c)) p shared last s
  = bind (clone_target (js_get t (key_of a)))
         (λ curr', orch_loop fuel curr' p shared a) s2.
Proof.
  intros Ho Ht Hrun. rewrite orch_loop_S. unfold bind at 1.
  rewrite (setParams_Some _ _ _ _ Ho). unfold bind at 1. rewrite Hrun.
  unfold bind at 1.
  by rewrite (getNextNode_after_run _ _ _ _ _ _ _ _ _ Ho Ht Hrun).
Qed.

Lemma clone_Some a o s :
  nodes s !! a = Some o →
  clone a s = Some (Return (length (nodes s)), with_nodes (nodes s ++ [o]) s).
Proof. intros H. unfold clone. by rewrite H. Qed.

(** Copying [o] and binding the copy, in one go. *)
Lemma bound_clone p o s :
  bound (length (nodes s)) p o (with_nodes (nodes s ++ [o]) s) = cloned p o s.
Proof.
  unfold bound, cloned, with_nodes. simpl. f_equal.
  rewrite insert_app_r_alt, Nat.sub_diag by done. reflexivity.
Qed.

Lemma key_of_label x : x ≠ ""%string → key_of (Some x) = x.
Proof. intros H. unfold key_of. by rewrite bool_decide_eq_false_2. Qed.

(** C4 as amended.  When the finalize of the current node returns a label
    whose lookup key (the label itself, or ["default"] for the empty label
    and for [null]) is neither registered in the node's successor table nor
    a member of [Object.prototype], the traversal ends after that node,
    returning normally, and its result is that label. *)
Theorem unmatched_key_ends_traversal
    (fuel : nat) (c : addr) (p : gmap string value) (shared : Shared)
    (last a : action) (o : obj) (t : gmap string addr) (s s2 : state) :
  nodes s !! c = Some o →
  tables s !! successors o = Some t →
  _run fuel c shared (bound c p o s) = Some (Return a, s2) →
  t !! key_of a = None →
  key_of a ∉ object_prototype_names →
  orch_loop (S fuel) (Some (NodeRef c)) p shared last s = Some (Return a, s2).
Proof.
  intros Ho Ht Hrun Hkey Hproto.
  rewrite (orch_loop_step _ _ _ _ _ _ _ _ _ _ Ho Ht Hrun).
  unfold js_get. rewrite Hkey, bool_decide_eq_false_2 by done.
  simpl. unfold bind. simpl. by rewrite orch_loop_None.
Qed.

(** C9.  For an object of class [AsyncNode] or one of its subclasses,
    whatever its methods are:
    - [run] throws [Error('Use runAsync.')] and leaves the state as it was;
    - so does the step of a synchronous traversal that reaches it, after
      binding the parameters, and a [Flow] that starts with it: the world
      is untouched, no phase of the node has run;
    - the loop of [AsyncFlow._orchAsync] runs its suspendable lifecycle
      [_runAsync] instead. *)
Theorem async_node_sync_run_throws
    (this : addr) (o : obj) (s : state) :
  nodes s !! this = Some o →
  instanceof_AsyncNode (cls o) = true →
  (∀ fuel shared,
     run (S fuel) this shared s = Some (Throw (VError "Use runAsync."), s)) ∧
  (∀ fuel p shared last,
     orch_loop (S (S fuel)) (Some (NodeRef this)) p shared last s
     = Some (Throw (VError "Use runAsync."), bound this p o s)) ∧
  (∀ fuel flow f shared ps,
     nodes s !! flow = Some f → startNode f = Some this →
     _orch (S (S fuel)) flow shared ps s
     = Some (Throw (VError "Use runAsync."),
             cloned (default (params f) ps) o s)) ∧
  (∀ fuel p shared last,
     orchAsync_loop (S fuel) (Some (NodeRef this)) p shared last s
     = abind (AsyncNode_runAsync this shared)
         (λ a, sync (bind (getNextNode this a) clone_target)
                    (λ curr', orchAsync_loop fuel curr' p shared a))
         (bound this p o s)).
Proof.
  intros Ho Ha.
  assert (Hrun : ∀ fuel shared c o' st,
            nodes st !! c = Some o' → cls o' = cls o →
            _run (S fuel) c shared st
            = Some (Throw (VError "Use runAsync."), st)).
  { intros fuel shared c o' st Ho' Hc. rewrite run_S.
    rewrite (bind_get_node _ _ _ _ Ho'). unfold run_body. rewrite Hc.
    by destruct (cls o). }
  assert (Hloop : ∀ fuel p shared last c st,
            nodes st !! c = Some o →
            orch_loop (S (S fuel)) (Some (NodeRef c)) p shared last st
            = Some (Throw (VError "Use runAsync."), bound c p o st)).
  { intros fuel p shared last c st Hc. rewrite orch_loop_S. unfold bind at 1.
    rewrite (setParams_Some _ _ _ _ Hc). unfold bind.
    by rewrite (Hrun _ _ _ _ _ (bound_lookup _ p _ _ Hc) eq_refl). }
  split; [|split; [|split]].
  - intros fuel shared. rewrite run_eq. by apply (Hrun _ _ _ o).
  - intros fuel p shared last. by apply Hloop.
  - intros fuel flow f shared ps Hf Hstart. unfold _orch, orch_from.
    rewrite (bind_get_node _ _ _ _ Hf), Hstart. simpl.
    unfold bind at 1 2. rewrite (clone_Some _ _ _ Ho). unfold ret.
    rewrite Hloop, bound_clone; [done|].
    unfold with_nodes. simpl. by apply list_lookup_middle.
  - intros fuel p shared last. cbn [orchAsync_loop]. unfold sync at 1.
    unfold bind at 1. rewrite (setParams_Some _ _ _ _ Ho).
    rewrite (get_node_Some _ _ _ (bound_lookup _ p _ _ Ho)).
    simpl. by rewrite Ha.
Qed.


(** ** A flow and its traversal *)


Lemma run_Flow n this shared f s :
  nodes s !! this = Some f → runs_as_Flow (cls f) = true →
  _run (S n) this shared s
  = bind (call_prep this shared) (λ p,
      bind (_orch n this shared None) (λ a,
        call_flow_post this shared p a)) s.
Proof.
  intros Hf Hc. rewrite run_S, (bind_get_node _ _ _ _ Hf).
  unfold run_body, _orch. by destruct (cls f).
Qed.





(** ** Batch flow *)

Lemma merge_params_lookup base p k :
  merge_params base (VObj p) !! k
  = match p !! k with
    | Some v => Some v
    | None => base !! k
    end.
Proof.
  unfold merge_params. simpl. rewrite lookup_union.
  by destruct (p !! k), (base !! k).
Qed.

Section BatchFlow.

Variables (fuel : nat) (this : addr) (shared : Shared) (f : obj).


Lemma one_traversal_eq bp s :
  nodes s !! this = Some f →
  one_traversal fuel this shared bp s
  = _orch fuel this shared (Some (merge_params (params f) bp)) s.
Proof.
  intros H. unfold one_traversal. by rewrite (bind_get_node _ _ _ _ H).
Qed.

Lemma orch_keeps_flow ps s r :
  nodes s !! this = Some f → _orch fuel this shared ps s = Some r →
  nodes (snd r) !! this = Some f.
Proof.
  intros Hf H. destruct (orch_touches _ _ _ _ _ _ H) as (_ & _ & Hn).
  rewrite Hn; [done| |tauto]. by eapply lookup_lt_Some.
Qed.

Lemma traverse_traversals bps : ∀ s labels s',
  nodes s !! this = Some f →
  traverse (one_traversal fuel this shared) bps s = Some (Return labels, s') →
  traversals fuel this shared (params f) bps s s' ∧
  length labels = length bps.
Proof.
  induction bps as [|bp bps IH]; intros s labels s' Hf H; simpl in H.
  - injection H as <- <-. split; [constructor|done].
  - destruct (bind_Some _ _ _ _ H) as [(a & s1 & Hbp & H1)|(? & ? & _ & ?)];
      [|done].
    destruct (bind_Some _ _ _ _ H1) as [(ls & s2 & Hbps & H2)|(? & ? & _ & ?)];
      [|done].
    injection H2 as <- <-. rewrite (one_traversal_eq _ _ Hf) in Hbp.
    destruct (IH _ _ _ (orch_keeps_flow _ _ _ Hf Hbp) Hbps) as [Ht Hl].
    split; [by econstructor|]. simpl. by rewrite Hl.
Qed.

Lemma traversals_traverse bps s s' :
  nodes s !! this = Some f →
  traversals fuel this shared (params f) bps s s' →
  ∃ labels,
    traverse (one_traversal fuel this shared) bps s = Some (Return labels, s').
Proof.
  intros Hf Ht. induction Ht as [s|bp bps a s s1 s2 Hbp Ht IH]; simpl.
  - by exists [].
  - destruct (IH (orch_keeps_flow _ _ _ Hf Hbp)) as [ls Hls].
    exists (a :: ls). unfold bind.
    by rewrite (one_traversal_eq _ _ Hf), Hbp, Hls.
Qed.

Lemma run_BatchFlow bps s s0 :
  nodes s !! this = Some f → cls f = CBatchFlow →
  call_prep this shared s = Some (Return (VArr bps), s0) →
  run (S fuel) this shared s
  = bind (traverse (one_traversal fuel this shared) bps)
         (λ _, call_flow_post this shared (VArr bps) None) s0.
Proof.
  intros Hf Hc Hp. rewrite !run_eq. rewrite run_S, (bind_get_node _ _ _ _ Hf).
  unfold run_body. rewrite Hc. unfold bind at 1. by rewrite Hp.
Qed.

(** A [BatchFlow] whose prepare returned [[p1, ..., pm]] returns exactly
    when the [m] traversals, run one after the other, each return, and
    then it is its finalize called in the state the last one left. *)
Lemma batch_flow_sequential bps s s0 :
  nodes s !! this = Some f → cls f = CBatchFlow →
  call_prep this shared s = Some (Return (VArr bps), s0) →
  (∀ s', traversals fuel this shared (params f) bps s0 s' →
         run (S fuel) this shared s
         = call_flow_post this shared (VArr bps) None s') ∧
  (∀ a s'', run (S fuel) this shared s = Some (Return a, s'') →
     ∃ s', traversals fuel this shared (params f) bps s0 s' ∧
           call_flow_post this shared (VArr bps) None s'
           = Some (Return a, s'')).
Proof.
  intros Hf Hc Hp. rewrite (run_BatchFlow _ _ _ Hf Hc Hp).
  assert (Hf0 : nodes s0 !! this = Some f)
    by (destruct (call_prep_inv _ _ _ _ _ Hp) as [w ->]; done).
  split.
  - intros s' Ht. destruct (traversals_traverse _ _ _ Hf0 Ht) as [ls Hls].
    unfold bind. by rewrite Hls.
  - intros a s'' H.
    destruct (bind_Some _ _ _ _ H) as [(ls & s' & Hls & H1)|(? & ? & _ & ?)];
      [|done].
    exists s'. split; [|done]. by eapply traverse_traversals.
Qed.

End BatchFlow.


(** ** Joining the tasks of [Promise.all] *)

Lemma run_sched_app {A} sched1 sched2 (p : proc A) s :
  run_sched (sched1 ++ sched2) p s
  = let '(s', p') := run_sched sched1 p s in run_sched sched2 p' s'.
Proof.
  revert p s. induction sched1 as [|c sched1 IH]; intros p s; simpl; [done|].
  destruct (step p c s) as [s' p']. apply IH.
Qed.

Lemma run_sched_Stuck {A} sched (s : state) :
  run_sched sched (Stuck (A:=A)) s = (s, Stuck).
Proof. induction sched as [|ch sched IH]; simpl; [done|apply IH]. Qed.

Lemma step_at_length {B} (resume : proc B → state * proc B) s ps : ∀ i,
  length (snd (step_at resume s ps i)) = length ps.
Proof.
  induction ps as [|p ps IH]; intros [|i]; simpl; try done.
  - by destruct (resume p).
  - specialize (IH i). destruct (step_at resume s ps i). simpl in *. congruence.
Qed.

Lemma pool_run_length {B} sched : ∀ (ps : list (proc B)) s,
  length (snd (pool_run sched ps s)) = length ps.
Proof.
  induction sched as [|[|i c] sched IH]; intros ps s; simpl; [done|apply IH|].
  pose proof (step_at_length (λ q, step q c s) s ps i) as Hl.
  destruct (step_at _ s ps i) as [s1 ps1]. simpl in Hl. by rewrite IH.
Qed.

Lemma all_fulfilled_length {B} (ps : list (proc B)) vs :
  all_fulfilled ps = Some vs → length vs = length ps.
Proof.
  revert vs. induction ps as [|p ps IH]; simpl; intros vs.
  - by intros [= <-].
  - destruct (fulfilment p); [|done].
    destruct (all_fulfilled ps) as [vs'|]; [|done].
    intros [= <-]. simpl. by rewrite (IH vs').
Qed.

Lemma launch_length {B} (calls : list (acall B)) : ∀ s,
  length (snd (launch calls s)) = length calls.
Proof.
  induction calls as [|c calls IH]; intros s; simpl; [done|].
  destruct (c s) as [s1 p]. specialize (IH s1).
  destruct (launch calls s1). simpl in *. congruence.
Qed.

(** How an awaited [Promise.all] can stand after a schedule: still
    pending, the pool having run under the schedule; or out of fuel; or
    rejected at some point of the schedule, or fulfilled at some point of
    it with every task fulfilled, the continuation running from there. *)
Lemma par_run_cases {B A} (k : completion (list B) → proc A) sched :
  ∀ ps s s' P',
  run_sched sched (par ps k) s = (s', P') →
  (∃ ps', P' = Par ps' k ∧ pool_run sched ps s = (s', ps')) ∨
  P' = Stuck ∨
  (∃ sched1 sched2 s1 ps1 e,
     sched = sched1 ++ sched2 ∧ pool_run sched1 ps s = (s1, ps1) ∧
     first_rejection ps1 = Some e ∧
     run_sched sched2 (Bg ps1 (k (Throw e))) s1 = (s', P')) ∨
  (∃ sched1 sched2 s1 ps1 vs,
     sched = sched1 ++ sched2 ∧ pool_run sched1 ps s = (s1, ps1) ∧
     all_fulfilled ps1 = Some vs ∧
     run_sched sched2 (k (Return vs)) s1 = (s', P')).
Proof.
  induction sched as [|ch sched IH]; intros ps s s' P' H.
  - injection H as <- <-. unfold par.
    destruct (first_rejection ps) as [e|] eqn:Er.
    { right; right; left. by exists [], [], s, ps, e. }
    destruct (existsb is_stuck ps); [by right; left|].
    destruct (all_fulfilled ps) as [vs|] eqn:Ef.
    { right; right; right. by exists [], [], s, ps, vs. }
    left. by exists ps.
  - assert (Hpar : par ps k
        = match first_rejection ps with
          | Some e => Bg ps (k (Throw e))
          | None =>
              if existsb is_stuck ps then Stuck
              else match all_fulfilled ps with
                   | Some vs => k (Return vs)
                   | None => Par ps k
                   end
          end) by reflexivity.
    destruct (first_rejection ps) as [e|] eqn:Er.
    { right; right; left. exists [], (ch :: sched), s, ps, e.
      by rewrite <- Hpar. }
    destruct (existsb is_stuck ps).
    { right; left. rewrite Hpar, run_sched_Stuck in H. by injection H. }
    destruct (all_fulfilled ps) as [vs|] eqn:Ef.
    { right; right; right. exists [], (ch :: sched), s, ps, vs.
      by rewrite <- Hpar. }
    rewrite Hpar in H. cbn [run_sched step] in H.
    destruct ch as [|i c].
    + rewrite <- Hpar in H.
      destruct (IH _ _ _ _ H)
        as [(ps' & -> & Hp)|[->|[(sched1 & sched2 & s1 & ps1 & e & -> & Hp & He & Hr)
                                |(sched1 & sched2 & s1 & ps1 & vs & -> & Hp & Hv & Hr)]]].
      * left. by exists ps'.
      * by right; left.
      * right; right; left. by exists ([] :: sched1), sched2, s1, ps1, e.
      * right; right; right. by exists ([] :: sched1), sched2, s1, ps1, vs.
    + destruct (step_at (λ q, step q c s) s ps i) as [s0 ps0] eqn:Es.
      destruct (IH _ _ _ _ H)
        as [(ps' & -> & Hp)|[->|[(sched1 & sched2 & s1 & ps1 & e & -> & Hp & He & Hr)
                                |(sched1 & sched2 & s1 & ps1 & vs & -> & Hp & Hv & Hr)]]].
      * left. exists ps'. split; [done|]. simpl. by rewrite Es.
      * by right; left.
      * right; right; left. exists ((i :: c) :: sched1), sched2, s1, ps1, e.
        split; [done|]. split; [|done]. simpl. by rewrite Es.
      * right; right; right. exists ((i :: c) :: sched1), sched2, s1, ps1, vs.
        split; [done|]. split; [|done]. simpl. by rewrite Es.
Qed.

(** A rejected [Promise.all] whose continuation rethrows never returns. *)
Lemma rejected_never_returns {B A} e sched :
  ∀ (m : proc A) (bg : list (proc B)) s,
  m = Atom (finish (Throw e)) ∨ m = Fin (Throw e) →
  ∀ a, outcome_of (snd (run_sched sched (Bg bg m) s)) ≠ Some (Return a).
Proof.
  induction sched as [|ch sched IH]; intros m bg s Hm a.
  - simpl. by destruct Hm as [-> | ->].
  - cbn [run_sched step]. destruct ch as [|[|i] c].
    + by apply IH.
    + destruct Hm as [-> | ->]; simpl; apply IH; by right.
    + destruct (step_at _ s bg i) as [s1 bg1]. by apply IH.
Qed.


Lemma parallel_traversals_join fuel this shared pr bps sched st st' P' a :
  run_sched sched (snd (parallel_traversals fuel this shared pr bps st))
            (fst (parallel_traversals fuel this shared pr bps st))
    = (st', P') →
  outcome_of P' = Some (Return a) →
  ∃ st0 tasks sched1 sched2 st1 tasks1 labels,
    launch (traversal_call fuel this shared <$> bps) st = (st0, tasks) ∧
    length tasks = length bps ∧
    sched = sched1 ++ sched2 ∧
    pool_run sched1 tasks st0 = (st1, tasks1) ∧
    all_fulfilled tasks1 = Some labels ∧
    length labels = length bps ∧
    run_sched sched2 (Atom (finalize_call this shared pr)) st1 = (st', P').
Proof.
  unfold parallel_traversals.
  pose proof (launch_length (traversal_call fuel this shared <$> bps) st) as Hl.
  destruct (launch _ st) as [st0 tasks]. simpl in Hl. rewrite length_fmap in Hl.
  simpl. intros Hrun Hout.
  destruct (par_run_cases _ _ _ _ _ _ Hrun)
    as [(ps' & -> & Hp)|[->|[(sched1 & sched2 & s1 & ps1 & e & -> & Hp & He & Hr)
                            |(sched1 & sched2 & s1 & ps1 & vs & -> & Hp & Hv & Hr)]]];
    [done|done| |].
  - exfalso. unfold join_then_finalize in Hr.
    eapply (rejected_never_returns e sched2 _ ps1 s1); [by left|].
    rewrite Hr. exact Hout.
  - exists st0, tasks, sched1, sched2, s1, ps1, vs.
    repeat split; try done.
    rewrite (all_fulfilled_length _ _ Hv).
    pose proof (pool_run_length sched1 tasks st0) as Hpl.
    rewrite Hp in Hpl. simpl in Hpl. congruence.
Qed.

(** ** What a suspendable run writes to *)

Section Framed.

Variable N : nat.

Lemma ext_refl s : (N ≤ length (nodes s))%nat → ext N s s.
Proof. by repeat split. Qed.

Lemma ext_trans s s1 s2 : ext N s s1 → ext N s1 s2 → ext N s s2.
Proof.
  intros (Ht & Hl & Hn) (Ht' & Hl' & Hn'). split; [congruence|].
  split; [done|]. intros a Ha. rewrite Hn' by done. by apply Hn.
Qed.

Lemma ext_length s s' : ext N s s' → (N ≤ length (nodes s'))%nat.
Proof. by intros (_ & Hl & _). Qed.

Lemma ext_world s w : (N ≤ length (nodes s))%nat → ext N s (with_world w s).
Proof. by repeat split. Qed.

Lemma ext_of_preserved (X : addr → Prop) s s' :
  (∀ a, X a → (N ≤ a)%nat) → (N ≤ length (nodes s))%nat →
  preserved X s s' → ext N s s'.
Proof.
  intros HX HN (Ht & Hl & Hn). split; [done|]. split; [lia|].
  intros a Ha. apply Hn; [lia|]. intros HXa. specialize (HX _ HXa). lia.
Qed.

Lemma above_of_touches {A} (X : addr → Prop) (m : M A) :
  (∀ a, X a → (N ≤ a)%nat) → touches X m → above N (λ _, True) m.
Proof.
  intros HX Hm s r HN Hr. split; [|done].
  eapply ext_of_preserved; [exact HX|done|by apply Hm].
Qed.

Lemma above_bind {A B} (P : A → Prop) (Q : B → Prop) (m : M A)
    (k : A → M B) :
  above N P m → (∀ a, P a → above N Q (k a)) → above N Q (bind m k).
Proof.
  intros Hm Hk s r HN H.
  destruct (bind_Some _ _ _ _ H) as [(a & s1 & Hs & H1)|(e & s1 & Hs & ->)].
  - destruct (Hm _ _ HN Hs) as [He HP]. simpl in He, HP.
    destruct (Hk a (HP a eq_refl) _ _ (ext_length _ _ He) H1) as [He' HQ].
    split; [by eapply ext_trans|done].
  - destruct (Hm _ _ HN Hs) as [He _]. by split.
Qed.

Lemma above_clone_target t : above N (fresh_target N) (clone_target t).
Proof.
  intros s r HN H. split.
  - eapply ext_of_preserved with (X := λ _, False); [done|done|].
    by eapply touches_clone_target.
  - intros a Ha c ->. destruct r as [c' s']. simpl in Ha. subst c'.
    apply clone_target_fresh in H. lia.
Qed.

(** *** Tasks *)

Lemma framed_await {A} (p : proc A) :
  ∀ B (k : completion A → acall B),
    framed N p → (∀ c, framed_call N (k c)) → framed N (await p k).
Proof.
  induction A, p as [A c|A|A f IH|B' A ps k0 _ IH|B' A bg m _ IH]
    using (@proc_nested_ind App); intros B k Hp Hk; simpl.
  - intros s HN. destruct (k c s) as [s' p'] eqn:E.
    destruct (Hk c s HN) as [He Hf]. rewrite E in He, Hf. by split.
  - done.
  - intros s HN. specialize (Hp s HN). specialize (IH s).
    destruct (f s) as [s' p']. destruct Hp as [He Hp].
    split; [done|]. by apply IH.
  - destruct Hp as [Hps Hk0]. split; [done|]. intros c. by apply IH.
  - destruct Hp as [Hbg Hm]. split; [done|]. by apply IH.
Qed.

Lemma framed_call_finish {A} (c : completion A) : framed_call N (finish c).
Proof. intros s HN. split; [by apply ext_refl|done]. Qed.

Lemma framed_call_abind {A B} (m : acall A) (k : A → acall B) :
  framed_call N m → (∀ a, framed_call N (k a)) → framed_call N (abind m k).
Proof.
  intros Hm Hk s HN. unfold abind. specialize (Hm s HN).
  destruct (m s) as [s1 p]. destruct Hm as [He Hp]. split; [done|].
  apply framed_await; [done|]. intros [a|e]; [apply Hk|apply framed_call_finish].
Qed.

Lemma framed_call_sync {A B} (Q : A → Prop) (m : M A) (k : A → acall B) :
  above N Q m → (∀ a, Q a → framed_call N (k a)) →
  framed_call N (sync m k).
Proof.
  intros Hm Hk s HN. unfold sync.
  destruct (m s) as [[[a|e] s1]|] eqn:E.
  - destruct (Hm _ _ HN E) as [He HQ]. simpl in He, HQ.
    destruct (Hk a (HQ a eq_refl) s1 (ext_length _ _ He)) as [He' Hf].
    split; [by eapply ext_trans|done].
  - destruct (Hm _ _ HN E) as [He _]. by split.
  - split; [by apply ext_refl|done].
Qed.

Lemma framed_call_get_node {B} a (k : obj → acall B) :
  (∀ o, framed_call N (k o)) → framed_call N (sync (get_node a) k).
Proof.
  intros Hk. apply framed_call_sync with (Q := λ _, True); [|by intros].
  eapply above_of_touches with (X := λ _, False); [done|].
  apply touches_get_node.
Qed.

Lemma framed_lift_job {A} (j : job A) : framed N (lift_job j).
Proof.
  induction j as [c|f IH] using (@job_nested_ind App A); simpl; [done|].
  intros s HN. specialize (IH (world s)).
  destruct (f (world s)) as [w j']. split; [by apply ext_world|done].
Qed.

Lemma framed_call_async {A} (f : acb A) : framed_call N (call_async f).
Proof.
  intros s HN. unfold call_async. destruct (f (world s)) as [w j].
  split; [by apply ext_world|apply framed_lift_job].
Qed.

Lemma framed_par {B A} (ps : list (proc B))
    (k : completion (list B) → proc A) :
  all_of (λ q, framed N q) ps → (∀ c, framed N (k c)) → framed N (par ps k).
Proof.
  intros Hps Hk. unfold par.
  destruct (first_rejection ps); [by split|].
  destruct (existsb is_stuck ps); [done|].
  destruct (all_fulfilled ps); [apply Hk|by split].
Qed.

Lemma framed_step_at {B} (resume : proc B → state * proc B) s ps :
  (N ≤ length (nodes s))%nat →
  all_of (λ q, framed N q →
               ext N s (fst (resume q)) ∧ framed N (snd (resume q))) ps →
  all_of (λ q, framed N q) ps →
  ∀ i, ext N s (fst (step_at resume s ps i)) ∧
       all_of (λ q, framed N q) (snd (step_at resume s ps i)).
Proof.
  intros HN. induction ps as [|p ps IH]; intros Hr Hps i; simpl.
  - destruct i; (split; [by apply ext_refl|done]).
  - destruct Hr as [Hr1 Hr2], Hps as [Hp Hps]. destruct i as [|i].
    + destruct (Hr1 Hp) as [He Hf]. destruct (resume p) as [s' p'].
      simpl in *. split; [done|by split].
    + destruct (IH Hr2 Hps i) as [He Hf].
      destruct (step_at resume s ps i) as [s' ps'].
      simpl in *. split; [done|by split].
Qed.

Lemma framed_step {A} (p : proc A) :
  ∀ c s, (N ≤ length (nodes s))%nat → framed N p →
         ext N s (fst (step p c s)) ∧ framed N (snd (step p c s)).
Proof.
  induction A, p as [A c0|A|A f IH|B' A ps k IHps IHk|B' A bg m IHbg IHm]
    using (@proc_nested_ind App); intros c s HN Hp; cbn [step].
  - split; [by apply ext_refl|done].
  - split; [by apply ext_refl|done].
  - specialize (Hp s HN). by destruct (f s).
  - destruct Hp as [Hps Hk]. destruct c as [|i c].
    + split; [by apply ext_refl|by split].
    + destruct (framed_step_at (λ q, step q c s) s ps HN) with (i := i)
        as [He Hf]; [|done|].
      { clear -IHps HN. induction ps as [|q ps IH]; [done|].
        destruct IHps as [Hq Hps]. split; [by apply Hq|by apply IH]. }
      destruct (step_at _ s ps i) as [s' ps']. split; [done|].
      by apply framed_par.
  - destruct Hp as [Hbg Hm]. destruct c as [|[|i] c].
    + split; [by apply ext_refl|by split].
    + destruct (IHm c s HN Hm) as [He Hf]. destruct (step m c s).
      simpl in *. split; [done|by split].
    + destruct (framed_step_at (λ q, step q c s) s bg HN) with (i := i)
        as [He Hf]; [|done|].
      { clear -IHbg HN. induction bg as [|q bg IH]; [done|].
        destruct IHbg as [Hq Hbg]. split; [by apply Hq|by apply IH]. }
      destruct (step_at _ s bg i) as [s' bg'].
      simpl in *. split; [done|by split].
Qed.

Lemma framed_run_sched {A} sched : ∀ (p : proc A) s,
  (N ≤ length (nodes s))%nat → framed N p →
  ext N s (fst (run_sched sched p s)) ∧ framed N (snd (run_sched sched p s)).
Proof.
  induction sched as [|c sched IH]; intros p s HN Hp; simpl.
  - split; [by apply ext_refl|done].
  - destruct (framed_step p c s HN Hp) as [He Hf].
    destruct (step p c s) as [s1 p1]. simpl in He, Hf.
    destruct (IH p1 s1 (ext_length _ _ He) Hf) as [He' Hf'].
    split; [by eapply ext_trans|done].
Qed.

Lemma framed_launch {B} (calls : list (acall B)) : ∀ s,
  (N ≤ length (nodes s))%nat →
  all_of (λ c, framed_call N c) calls →
  ext N s (fst (launch calls s)) ∧
  all_of (λ q, framed N q) (snd (launch calls s)).
Proof.
  induction calls as [|c calls IH]; intros s HN Hc; simpl.
  - split; [by apply ext_refl|done].
  - destruct Hc as [Hc Hcs]. destruct (Hc s HN) as [He Hf].
    destruct (c s) as [s1 p]. simpl in He, Hf.
    destruct (IH s1 (ext_length _ _ He) Hcs) as [He' Hf'].
    destruct (launch calls s1) as [s2 ps]. simpl in *.
    split; [by eapply ext_trans|done].
Qed.

End Framed.


Section FramedEngine.

Variable N : nat.

Lemma all_of_fmap {B C} (P : C → Prop) (g : B → C) xs :
  (∀ x, P (g x)) → all_of P (g <$> xs).
Proof. intros H. induction xs as [|x xs IH]; [done|]. by split. Qed.

Lemma framed_Atom_call {A} (m : acall A) :
  framed_call N m → framed N (Atom m).
Proof. intros Hm s HN. specialize (Hm s HN). by destruct (m s). Qed.

Lemma framed_call_prepAsync this shared :
  framed_call N (call_prepAsync this shared).
Proof.
  apply framed_call_get_node. intros o.
  destruct (prepAsync (meths o)); [apply framed_call_async|].
  apply framed_call_finish.
Qed.

Lemma framed_call_execAsync this x : framed_call N (call_execAsync this x).
Proof.
  apply framed_call_get_node. intros o.
  destruct (execAsync (meths o)); [apply framed_call_async|].
  apply framed_call_finish.
Qed.

Lemma framed_call_execFallbackAsync this x e :
  framed_call N (call_execFallbackAsync this x e).
Proof.
  apply framed_call_get_node. intros o.
  destruct (execFallbackAsync (meths o)); [apply framed_call_async|].
  apply framed_call_finish.
Qed.

Lemma framed_call_postAsync this shared p e :
  framed_call N (call_postAsync this shared p e).
Proof.
  apply framed_call_get_node. intros o.
  destruct (postAsync (meths o)); [apply framed_call_async|].
  apply framed_call_finish.
Qed.

Lemma framed_call_flow_postAsync this shared p a :
  framed_call N (call_flow_postAsync this shared p a).
Proof.
  apply framed_call_get_node. intros o.
  destruct (postAsync (meths o)); [apply framed_call_async|].
  apply framed_call_finish.
Qed.

Lemma framed_aexec_attempts n this x : ∀ i,
  framed_call N (aexec_attempts n i this x).
Proof.
  induction n as [|n IH]; intros i; cbn [aexec_attempts];
    [apply framed_call_finish|].
  intros s HN. destruct (framed_call_execAsync this x s HN) as [He Hf].
  destruct (call_execAsync this x s) as [s1 p]. split; [done|].
  apply framed_await; [done|]. intros [r|e]; [apply framed_call_finish|].
  apply framed_call_get_node. intros o.
  destruct (bool_decide _).
  { apply framed_call_abind; [apply framed_call_execFallbackAsync|].
    intros r. apply framed_call_finish. }
  destruct (bool_decide _); [|apply IH].
  intros s' HN'. split; [by apply ext_refl|].
  apply framed_Atom_call, IH.
Qed.

Lemma framed_node_aexec this x : framed_call N (AsyncNode_exec this x).
Proof.
  apply framed_call_get_node. intros o. apply framed_aexec_attempts.
Qed.

Lemma framed_abatch_items this xs : ∀ acc,
  framed_call N (abatch_items this xs acc).
Proof.
  induction xs as [|x xs IH]; intros acc; simpl; [apply framed_call_finish|].
  apply framed_call_abind; [apply framed_node_aexec|]. intros r. apply IH.
Qed.

Lemma framed_abatch_exec this items :
  framed_call N (AsyncBatchNode_exec this items).
Proof.
  unfold AsyncBatchNode_exec.
  destruct (iterate items); [apply framed_abatch_items|].
  apply framed_call_finish.
Qed.

Lemma framed_aparallel_exec this items :
  framed_call N (AsyncParallelBatchNode_exec this items).
Proof.
  unfold AsyncParallelBatchNode_exec.
  destruct items; try apply framed_call_finish.
  intros s HN.
  destruct (framed_launch N (AsyncNode_exec this <$> xs) s HN) as [He Hf].
  { apply all_of_fmap. intros x. apply framed_node_aexec. }
  destruct (launch _ s) as [s1 ps]. split; [done|].
  apply framed_par; [done|]. intros c.
  apply framed_Atom_call, framed_call_finish.
Qed.

Lemma framed_runAsync_node this shared :
  framed_call N (AsyncNode_runAsync this shared).
Proof.
  unfold AsyncNode_runAsync.
  apply framed_call_abind; [apply framed_call_prepAsync|]. intros p.
  apply framed_call_abind.
  { apply framed_call_get_node. intros o.
    destruct (cls o);
      first [apply framed_abatch_exec | apply framed_aparallel_exec
            | apply framed_node_aexec]. }
  intros e. apply framed_call_abind; [apply framed_call_postAsync|].
  intros a. apply framed_call_finish.
Qed.

Lemma above_next c a :
  above N (fresh_target N) (bind (getNextNode c a) clone_target).
Proof.
  eapply above_bind; [|intros nxt _; apply above_clone_target].
  eapply above_of_touches with (X := λ _, False); [done|].
  apply touches_getNextNode.
Qed.

Lemma framed_orchAsync_loop fuel : ∀ curr p shared last,
  fresh_target N curr →
  framed_call N (orchAsync_loop fuel curr p shared last).
Proof.
  induction fuel as [|fuel IH]; intros [[c|k]|] p shared last Hc;
    cbn [orchAsync_loop]; try apply framed_call_finish.
  - intros s HN. split; [by apply ext_refl|done].
  - assert (Hcont : ∀ a, framed_call N
              (sync (bind (getNextNode c a) clone_target)
                    (λ curr', orchAsync_loop fuel curr' p shared a))).
    { intros a. eapply framed_call_sync; [apply above_next|].
      intros curr' Hcurr'. by apply IH. }
    eapply framed_call_sync with (Q := λ _, True).
    + eapply above_of_touches with (X := λ b, b = c).
      * intros a ->. by apply Hc.
      * apply touches_bind; [apply touches_setParams|].
        intros _. apply touches_get_node.
    + intros o _. destruct (instanceof_AsyncNode (cls o)).
      * apply framed_call_abind; [apply framed_runAsync_node|exact Hcont].
      * eapply framed_call_sync with (Q := λ _, True); [|intros a _; apply Hcont].
        eapply above_of_touches with (X := λ b, b = c).
        -- intros a ->. by apply Hc.
        -- apply frame_step.
Qed.

Lemma framed_orchAsync fuel this shared ps :
  framed_call N (_orchAsync fuel this shared ps).
Proof.
  unfold _orchAsync.
  eapply framed_call_sync with (Q := λ cp, fresh_target N (fst cp)).
  - eapply above_bind with (P := λ _, True).
    + eapply above_of_touches with (X := λ _, False); [done|].
      apply touches_get_node.
    + intros f _. eapply above_bind; [apply above_clone_target|].
      intros curr Hcurr s r HN [= <-]. split; [by apply ext_refl|].
      by intros a [= <-].
  - intros [curr p] Hcurr. by apply framed_orchAsync_loop.
Qed.

Lemma framed_traversal_call fuel this shared bp :
  framed_call N (traversal_call fuel this shared bp).
Proof.
  apply framed_call_get_node. intros f. apply framed_orchAsync.
Qed.

Lemma framed_finalize_call this shared pr :
  framed_call N (finalize_call this shared pr).
Proof.
  apply framed_call_abind; [apply framed_call_flow_postAsync|].
  intros r. apply framed_call_finish.
Qed.

Lemma framed_abatch_flows fuel this shared bps k :
  framed_call N k → framed_call N (abatch_flows fuel this shared bps k).
Proof.
  intros Hk. induction bps as [|bp bps IH]; simpl; [done|].
  apply framed_call_abind; [apply framed_traversal_call|]. by intros _.
Qed.

Lemma framed_parallel_traversals fuel this shared pr bps :
  framed_call N (parallel_traversals fuel this shared pr bps).
Proof.
  intros s HN. unfold parallel_traversals.
  destruct (framed_launch N (traversal_call fuel this shared <$> bps) s HN)
    as [He Hf].
  { apply all_of_fmap. intros bp. apply framed_traversal_call. }
  destruct (launch _ s) as [s1 ps]. split; [done|].
  apply framed_par; [done|]. intros [rs|e]; apply framed_Atom_call.
  - apply framed_finalize_call.
  - apply framed_call_finish.
Qed.

Lemma framed_runAsync_ fuel this shared :
  framed_call N (_runAsync fuel this shared).
Proof.
  apply framed_call_get_node. intros o.
  destruct (cls o); try apply framed_call_finish;
    try apply framed_runAsync_node;
    (apply framed_call_abind; [apply framed_call_prepAsync|]; intros p).
  - apply framed_call_abind; [apply framed_orchAsync|]. intros a.
    apply framed_call_abind; [apply framed_call_flow_postAsync|].
    intros r. apply framed_call_finish.
  - cbv zeta. destruct (iterate (if truthy p then p else VArr []));
      [|apply framed_call_finish].
    apply framed_abatch_flows, framed_finalize_call.
  - cbv zeta. destruct (if truthy p then p else VArr []);
      try apply framed_call_finish.
    apply framed_parallel_traversals.
Qed.

End FramedEngine.


Lemma ext_prefix s s' :
  ext (length (nodes s)) s s' → nodes s `prefix_of` nodes s'.
Proof.
  intros (_ & Hl & Hn). exists (drop (length (nodes s)) (nodes s')).
  rewrite <- (take_drop (length (nodes s)) (nodes s')) at 1. f_equal.
  apply list_eq. intros i.
  destruct (decide (i < length (nodes s))%nat) as [Hi|Hi].
  - rewrite lookup_take_lt by done. by apply Hn.
  - rewrite lookup_take_ge by lia. symmetry. apply lookup_ge_None. lia.
Qed.

(** C7.  Running a flow (of any of the flow classes) on a heap of
    caller-constructed nodes:
    - the copy a traversal step runs is a new object with the fields of the
      node it copies, so it holds the same reference to the successor table;
    - when the run is over, the successor tables and every object that
      existed before it are as they were: no parameter binding and no retry
      counter of the graph was written;
    - from any point of a traversal on, the only object existing at that
      point that is written to is the copy being run;
    - hence, in a graph whose references are all to caller-constructed
      nodes, a second run of the flow, in whatever world, completes as it
      would on the untouched heap and leaves the same world;
    - a suspendable run leaves the tables and the objects that existed
      as they were too, under every schedule. *)
Theorem flow_run_leaves_graph_nodes_unchanged
    (fuel : nat) (this : addr) (shared : Shared) (o : obj)
    (s s' : state) (c : completion action) :
  nodes s !! this = Some o →
  flow_class (cls o) = true →
  run fuel this shared s = Some (c, s') →
  (∀ a oa st, nodes st !! a = Some oa →
     clone a st
     = Some (Return (length (nodes st)), with_nodes (nodes st ++ [oa]) st)) ∧
  (tables s' = tables s ∧ nodes s `prefix_of` nodes s') ∧
  (∀ fuel1 curr p last st r,
     orch_loop fuel1 curr p shared last st = Some r →
     preserved (λ a, curr = Some (NodeRef a)) st (snd r)) ∧
  (wf (length (nodes s)) s →
   ∀ fuel2 shared2 w2,
     same_outcome (run fuel2 this shared2 (with_world w2 s))
                  (run fuel2 this shared2 (with_world w2 s'))) ∧
  (∀ fuel3 flow shared3 sched st,
     tables (fst (run_sched sched (snd (_runAsync fuel3 flow shared3 st))
                    (fst (_runAsync fuel3 flow shared3 st))))
     = tables st ∧
     nodes st `prefix_of`
       nodes (fst (run_sched sched (snd (_runAsync fuel3 flow shared3 st))
                     (fst (_runAsync fuel3 flow shared3 st))))).
Proof.
  intros Ho Hflow Hrun. rewrite run_eq in Hrun.
  assert (Hp : preserved (λ _, False) s s').
  { pose proof (run_touches _ _ _ _ _ _ Hrun Ho) as P. simpl in P.
    eapply preserved_weaken; [|exact P].
    intros a [_ Hr]. destruct (cls o); done. }
  split; [|split; [|split; [|split]]].
  5: { intros fuel3 flow shared3 sched st.
       destruct (framed_runAsync_ (length (nodes st)) fuel3 flow shared3 st)
         as [He Hf]; [done|].
       destruct (_runAsync fuel3 flow shared3 st) as [s1 p1]. simpl in *.
       destruct (framed_run_sched (length (nodes st)) sched p1 s1
                   (ext_length _ _ _ He) Hf) as [He' _].
       pose proof (ext_trans _ _ _ _ He He') as Hx.
       split; [apply Hx|by apply ext_prefix]. }
  - intros a oa st Ha. unfold clone. by rewrite Ha.
  - split; [apply Hp|by apply preserved_prefix].
  - intros fuel1 curr p last st r. apply orch_loop_touches.
  - intros Hwf fuel2 shared2 w2.
    destruct (preserved_prefix _ _ Hp) as [G' HG].
    assert (Hs' : with_world w2 s'
                  = pad (length (nodes s)) G' (with_world w2 s)).
    { rewrite pad_end. unfold with_world. f_equal; [done|apply Hp]. }
    rewrite Hs'.
    pose proof (proj1 (sim_step (length (nodes s)) G' fuel2) this shared2
                  (with_world w2 s) (wf_world _ _ w2 Hwf)) as Hsim.
    assert (Hsh : shift (length (nodes s)) (length G') this = this).
    { unfold shift. rewrite decide_True; [done|]. by eapply lookup_lt_Some. }
    rewrite Hsh in Hsim. rewrite !run_eq. unfold same_outcome.
    destruct (_run fuel2 this shared2 (with_world w2 s)) as [[c1 s1]|],
       (_run fuel2 this shared2 (pad _ G' (with_world w2 s))) as [[c2 s2]|];
      try done.
    destruct Hsim as (Hc & -> & _). split; [|done].
    destruct c1, c2; simpl in Hc; by subst.
Qed.


(** * Further properties of the interface *)

(** ** Registering successors *)

Lemma key_of_nonempty a : key_of a ≠ ""%string.
Proof.
  destruct a as [l|]; simpl; [|done].
  case_bool_decide as H; [done|exact H].
Qed.

Lemma next_Some this node act o t s :
  nodes s !! this = Some o → tables s !! successors o = Some t →
  act ≠ "__proto__"%string →
  next this node act s
  = Some (Return node,
          with_tables (<[successors o := <[act := node]> t]> (tables s)) s).
Proof.
  intros Ho Ht Hact. unfold next.
  by rewrite bool_decide_eq_false_2, Ho, Ht.
Qed.

Lemma js_get_insert (t : gmap string addr) act node key :
  js_get (<[act := node]> t) key
  = if decide (key = act) then Some (NodeRef node) else js_get t key.
Proof.
  unfold js_get. destruct (decide (key = act)) as [->|Hne].
  - by rewrite lookup_insert_eq.
  - by rewrite lookup_insert_ne.
Qed.

Lemma getNextNode_with_tables this o t' tb a s :
  nodes s !! this = Some o → tb !! successors o = Some t' →
  getNextNode this a (with_tables tb s)
  = Some (Return (js_get t' (key_of a)), with_tables tb s).
Proof. intros Ho Ht. by eapply getNextNode_Some. Qed.

Lemma getNextNode_registered this o t act node a s :
  nodes s !! this = Some o → tables s !! successors o = Some t →
  getNextNode this a
    (with_tables (<[successors o := <[act := node]> t]> (tables s)) s)
  = Some (Return (if decide (key_of a = act) then Some (NodeRef node)
                  else js_get t (key_of a)),
          with_tables (<[successors o := <[act := node]> t]> (tables s)) s).
Proof.
  intros Ho Ht.
  rewrite (getNextNode_with_tables this o (<[act := node]> t)); [|done|].
  - by rewrite js_get_insert.
  - apply list_lookup_insert_eq. by eapply lookup_lt_Some.
Qed.

(** X1.  For an action other than ["__proto__"] (an assignment to that
    name sets no entry: it gives the table another prototype, which the
    tables of this development do not have), [this.next(node, action)]
    returns [node] and changes nothing but the successor table of [this].
    Afterwards every label whose lookup key [label || 'default'] is
    [action] selects [node], whatever was registered under it before:
    the label [action] itself when it is not empty, and with
    [action = "default"] also the labels [""] and [null].  Every label
    with another lookup key selects what it selected before. *)
Theorem next_registers_successor
    (this node : addr) (act : string) (o : obj) (t : gmap string addr)
    (s : state) :
  nodes s !! this = Some o →
  tables s !! successors o = Some t →
  act ≠ "__proto__"%string →
  ∃ s',
    next this node act s = Some (Return node, s') ∧
    nodes s' = nodes s ∧ world s' = world s ∧
    (∀ tb, tb ≠ successors o → tables s' !! tb = tables s !! tb) ∧
    (∀ a, key_of a = act →
       getNextNode this a s' = Some (Return (Some (NodeRef node)), s')) ∧
    (∀ a, key_of a ≠ act →
       getNextNode this a s' = Some (Return (js_get t (key_of a)), s')) ∧
    (act ≠ ""%string →
       getNextNode this (Some act) s'
       = Some (Return (Some (NodeRef node)), s')) ∧
    (act = "default"%string →
       getNextNode this (Some ""%string) s'
       = Some (Return (Some (NodeRef node)), s') ∧
       getNextNode this None s' = Some (Return (Some (NodeRef node)), s')).
Proof.
  intros Ho Ht Hact. eexists. split; [by apply next_Some|].
  split; [done|]. split; [done|].
  assert (Hsel : ∀ a, key_of a = act →
            getNextNode this a
              (with_tables (<[successors o := <[act := node]> t]> (tables s))
                 s)
            = Some (Return (Some (NodeRef node)),
                    with_tables
                      (<[successors o := <[act := node]> t]> (tables s)) s)).
  { intros a Ha. rewrite (getNextNode_registered _ _ _ _ _ _ _ Ho Ht).
    by rewrite decide_True. }
  split; [|split; [|split; [|split]]].
  - intros tb Htb. simpl. by rewrite list_lookup_insert_ne.
  - exact Hsel.
  - intros a Ha. rewrite (getNextNode_registered _ _ _ _ _ _ _ Ho Ht).
    by rewrite decide_False.
  - intros Hne. apply Hsel. by apply key_of_label.
  - intros ->. split; by apply Hsel.
Qed.

(** X2.  A successor registered under the empty label is never followed:
    [getNextNode] looks up [action || 'default'], which is never the empty
    string, so after [this.next(node, "")] every label, the empty one
    included, selects what it selected before. *)
Theorem empty_label_registration_is_never_followed
    (this node : addr) (o : obj) (t : gmap string addr) (s : state) :
  nodes s !! this = Some o →
  tables s !! successors o = Some t →
  ∃ s',
    next this node "" s = Some (Return node, s') ∧
    ∀ a, getNextNode this a s = Some (Return (js_get t (key_of a)), s) ∧
         getNextNode this a s' = Some (Return (js_get t (key_of a)), s').
Proof.
  intros Ho Ht. eexists. split; [by apply next_Some|].
  intros a. split; [by eapply getNextNode_Some|].
  rewrite (getNextNode_registered _ _ _ _ _ _ _ Ho Ht).
  rewrite decide_False; [done|apply key_of_nonempty].
Qed.

(** X3.  [a.pipe(b).pipe(c)] wires a chain: [pipe] returns the node it was
    given, so the second call registers [c] on [b], not on [a].  Afterwards
    the default labels lead from [a] to [b] and from [b] to [c]. *)
Theorem pipe_chains
    (a b c : addr) (oa ob : obj) (ta tb : gmap string addr) (s : state) :
  nodes s !! a = Some oa → nodes s !! b = Some ob →
  tables s !! successors oa = Some ta →
  tables s !! successors ob = Some tb →
  successors oa ≠ successors ob →
  ∃ s',
    bind (pipe a b) (λ n, pipe n c) s = Some (Return c, s') ∧
    ∀ l, key_of l = "default"%string →
      getNextNode a l s' = Some (Return (Some (NodeRef b)), s') ∧
      getNextNode b l s' = Some (Return (Some (NodeRef c)), s').
Proof.
  intros Ha Hb Hta Htb Hne. unfold pipe.
  set (tb1 := <[successors oa := <["default"%string := b]> ta]> (tables s)).
  assert (Htb1 : tb1 !! successors ob = Some tb)
    by (unfold tb1; by rewrite list_lookup_insert_ne).
  eexists. split.
  - unfold bind. rewrite (next_Some a b _ oa ta) by done.
    by rewrite (next_Some b c _ ob tb).
  - intros l Hl. simpl. split.
    + rewrite (getNextNode_with_tables a oa (<["default"%string := b]> ta));
        [by rewrite js_get_insert, decide_True|done|].
      rewrite list_lookup_insert_ne by done.
      apply list_lookup_insert_eq. by eapply lookup_lt_Some.
    + rewrite (getNextNode_with_tables b ob (<["default"%string := c]> tb));
        [by rewrite js_get_insert, decide_True|done|].
      apply list_lookup_insert_eq. unfold tb1. rewrite length_insert.
      by eapply lookup_lt_Some.
Qed.

(** X4.  Branching with [a.action(x).next(b); a.action(y).next(c)] for two
    different labels, neither of them ["__proto__"] (see X1): the
    transition object registers on the node it was made from, under the
    label it was made with.  Afterwards every label whose lookup key
    [label || 'default'] is [x] selects [b], every label whose lookup key
    is [y] selects [c], and every label with another lookup key selects
    what it did.  So a label [x] that is not empty selects [b] and a label
    [y] that is not empty selects [c]; a branch registered under the empty
    label changes nothing, because the empty label is looked up under
    ["default"]. *)
Theorem action_next_branches
    (a b c : addr) (x y : string) (oa : obj) (t : gmap string addr)
    (s : state) :
  nodes s !! a = Some oa →
  tables s !! successors oa = Some t →
  x ≠ y → x ≠ "__proto__"%string → y ≠ "__proto__"%string →
  ∃ s',
    bind (ConditionalTransition_next (BaseNode_action a x) b)
         (λ _, ConditionalTransition_next (BaseNode_action a y) c) s
    = Some (Return c, s') ∧
    (∀ l, key_of l = x →
       getNextNode a l s' = Some (Return (Some (NodeRef b)), s')) ∧
    (∀ l, key_of l = y →
       getNextNode a l s' = Some (Return (Some (NodeRef c)), s')) ∧
    (∀ l, key_of l ≠ x → key_of l ≠ y →
       getNextNode a l s' = Some (Return (js_get t (key_of l)), s')) ∧
    (x ≠ ""%string →
       getNextNode a (Some x) s' = Some (Return (Some (NodeRef b)), s')) ∧
    (y ≠ ""%string →
       getNextNode a (Some y) s' = Some (Return (Some (NodeRef c)), s')) ∧
    (x = ""%string → ∀ l, key_of l ≠ y →
       getNextNode a l s' = Some (Return (js_get t (key_of l)), s')) ∧
    nodes s' = nodes s ∧ world s' = world s.
Proof.
  intros Ha Ht Hxy Hx Hy. unfold ConditionalTransition_next, BaseNode_action.
  simpl.
  set (tb1 := <[successors oa := <[x := b]> t]> (tables s)).
  assert (Hlt : (successors oa < length (tables s))%nat)
    by by eapply lookup_lt_Some.
  assert (Htb1 : tb1 !! successors oa = Some (<[x := b]> t))
    by (unfold tb1; by apply list_lookup_insert_eq).
  eexists. split.
  - unfold bind. rewrite (next_Some a b x oa t) by done.
    by rewrite (next_Some a c y oa (<[x := b]> t)).
  - assert (Hget : ∀ l,
        getNextNode a l
          (with_tables (<[successors oa := <[y := c]> (<[x := b]> t)]> tb1)
             (with_tables tb1 s))
        = Some (Return (js_get (<[y := c]> (<[x := b]> t)) (key_of l)),
                with_tables (<[successors oa := <[y := c]> (<[x := b]> t)]> tb1)
                  (with_tables tb1 s))).
    { intros l. eapply getNextNode_Some; [exact Ha|]. simpl.
      apply list_lookup_insert_eq. unfold tb1. by rewrite length_insert. }
    assert (Hb : ∀ l, key_of l = x →
              js_get (<[y := c]> (<[x := b]> t)) (key_of l)
              = Some (NodeRef b)).
    { intros l Hl. rewrite !js_get_insert.
      rewrite decide_False by congruence. by rewrite decide_True. }
    assert (Hc : ∀ l, key_of l = y →
              js_get (<[y := c]> (<[x := b]> t)) (key_of l)
              = Some (NodeRef c)).
    { intros l Hl. rewrite !js_get_insert. by rewrite decide_True. }
    split; [|split; [|split; [|split; [|split; [|split; [|done]]]]]].
    + intros l Hl. by rewrite Hget, Hb.
    + intros l Hl. by rewrite Hget, Hc.
    + intros l Hlx Hly. rewrite Hget, !js_get_insert.
      by rewrite !decide_False.
    + intros Hne. rewrite Hget, Hb; [done|by apply key_of_label].
    + intros Hne. rewrite Hget, Hc; [done|by apply key_of_label].
    + intros -> l Hly. rewrite Hget, !js_get_insert.
      rewrite !decide_False; [done|apply key_of_nonempty|done].
Qed.


(** ** The start of a traversal *)

Lemma start_Some flow n f s :
  nodes s !! flow = Some f → flow_class (cls f) = true →
  start flow n s
  = Some (Return n,
          with_nodes (<[flow := with_startNode (Some n) f]> (nodes s)) s).
Proof.
  intros Hf Hc. unfold start. rewrite (bind_get_node _ _ _ _ Hf), Hc.
  reflexivity.
Qed.

(** X5.  [flow.start(n)] returns [n] and replaces the start node of the
    flow, whatever it was, touching nothing else; the traversals of the
    flow then begin at a copy of [n], bound to the parameters of the
    traversal. *)
Theorem start_sets_traversal_entry
    (flow n : addr) (f on : obj) (s : state) :
  nodes s !! flow = Some f →
  flow_class (cls f) = true →
  nodes s !! n = Some on →
  n ≠ flow →
  ∃ s',
    start flow n s = Some (Return n, s') ∧
    tables s' = tables s ∧ world s' = world s ∧
    (∀ a, a ≠ flow → nodes s' !! a = nodes s !! a) ∧
    nodes s' !! flow = Some (with_startNode (Some n) f) ∧
    ∀ fuel shared ps,
      _orch fuel flow shared ps s'
      = orch_loop fuel (Some (NodeRef (length (nodes s'))))
          (default (params f) ps) shared (Some "default"%string)
          (with_nodes (nodes s' ++ [on]) s').
Proof.
  intros Hf Hc Hn Hne.
  assert (Hlt : (flow < length (nodes s))%nat) by by eapply lookup_lt_Some.
  eexists. split; [by apply start_Some|]. split; [done|]. split; [done|].
  split; [|split].
  - intros a Ha. simpl. by rewrite list_lookup_insert_ne.
  - simpl. by apply list_lookup_insert_eq.
  - intros fuel shared ps. unfold _orch, orch_from.
    rewrite (bind_get_node _ (with_startNode (Some n) f))
      by (simpl; by apply list_lookup_insert_eq).
    simpl. unfold bind at 1 2.
    rewrite (clone_Some n on) by (simpl; by rewrite list_lookup_insert_ne).
    reflexivity.
Qed.

(** X6.  A flow without a start node runs nothing: its traversal returns
    the label ["default"] and leaves the state as it is, whatever the fuel
    and the parameters; [run] is then the flow's prepare followed by its
    finalize on that label, and the suspendable traversal settles at once
    in the same way. *)
Theorem empty_flow_returns_default
    (this : addr) (f : obj) (s : state) :
  nodes s !! this = Some f →
  startNode f = None →
  (∀ fuel shared ps,
     _orch fuel this shared ps s = Some (Return (Some "default"%string), s)) ∧
  (∀ fuel shared ps,
     _orchAsync fuel this shared ps s
     = (s, Fin (Return (Some "default"%string)))) ∧
  (runs_as_Flow (cls f) = true →
   ∀ fuel shared,
     run (S fuel) this shared s
     = bind (call_prep this shared)
         (λ p, call_flow_post this shared p (Some "default"%string)) s).
Proof.
  intros Hf Hstart.
  assert (Horch : ∀ fuel shared ps st,
            nodes st !! this = Some f →
            _orch fuel this shared ps st
            = Some (Return (Some "default"%string), st)).
  { intros fuel shared ps st Hst. unfold _orch, orch_from.
    rewrite (bind_get_node _ _ _ _ Hst), Hstart. simpl.
    unfold bind, ret. by rewrite orch_loop_None. }
  split; [|split].
  - intros. by apply Horch.
  - intros fuel shared ps. unfold _orchAsync, sync.
    rewrite (bind_get_node _ _ _ _ Hf), Hstart. simpl.
    unfold bind, ret. by destruct fuel.
  - intros Hc fuel shared. rewrite !run_eq. rewrite (run_Flow _ _ _ _ _ Hf Hc).
    unfold bind at 1 3.
    destruct (call_prep this shared s) as [[[p|e] s0]|] eqn:Hp; [|done..].
    destruct (call_prep_inv _ _ _ _ _ Hp) as [w ->].
    unfold bind. by rewrite Horch.
Qed.

(** ** What a batch flow returns *)

Lemma touches_one_traversal fuel this shared bp :
  touches (λ _, False) (one_traversal fuel this shared bp).
Proof.
  unfold one_traversal. apply touches_bind; [apply touches_get_node|].
  intros f. apply touches_orch_from. intros. apply orch_loop_touches.
Qed.

(** X7.  A [BatchFlow] with the inherited finalize returns [null], never a
    label of its traversals: finalize is called with [null] for the
    execute result and gives it back.  (As the node of a parent flow it
    therefore selects the parent's ["default"] successor.) *)
Theorem batch_flow_returns_null
    (fuel : nat) (this : addr) (shared : Shared) (f : obj)
    (s s' : state) (a : action) :
  nodes s !! this = Some f →
  cls f = CBatchFlow →
  post (meths f) = None →
  run fuel this shared s = Some (Return a, s') →
  a = None ∧ key_of a = "default"%string.
Proof.
  intros Hf Hc Hpost Hrun.
  assert (a = None) as ->; [|done].
  rewrite !run_eq in Hrun. destruct fuel as [|fuel]; [done|].
  rewrite run_S, (bind_get_node _ _ _ _ Hf) in Hrun.
  unfold run_body in Hrun. rewrite Hc in Hrun.
  destruct (bind_Some _ _ _ _ Hrun) as [(p & s0 & Hp & H1)|(? & ? & _ & ?)];
    [|done].
  destruct (call_prep_inv _ _ _ _ _ Hp) as [w ->].
  cbv zeta in H1.
  destruct (iterate (if truthy p then p else VArr [])) as [bps|]; [|done].
  destruct (bind_Some _ _ _ _ H1) as [(x & s1 & Ht & H2)|(? & ? & _ & ?)];
    [|done].
  pose proof (touches_traverse (λ _, False) (one_traversal fuel this shared)
                bps (touches_one_traversal fuel this shared) _ _ Ht) as Hpres.
  destruct Hpres as (_ & _ & Hn).
  assert (Hf1 : nodes s1 !! this = Some f).
  { rewrite Hn; [done| |tauto]. simpl. by eapply lookup_lt_Some. }
  unfold call_flow_post in H2.
  rewrite (bind_get_node _ _ _ _ Hf1), Hpost in H2. by injection H2.
Qed.

(** ** Nested flows *)

(** X8.  A flow that is a node of a parent flow traverses its own subgraph
    with the parent's parameters: the parent binds them to the copy it
    runs, and the copy's [_orch] takes [{...this.params}].  The parameters
    the nested flow was given by the caller play no part.  A nested batch
    flow merges its parameter sets into the parent's parameters. *)
Theorem nested_flow_runs_with_parent_params
    (fuel : nat) (c : addr) (p : gmap string value) (shared : Shared)
    (o : obj) (s : state) :
  nodes s !! c = Some o →
  (runs_as_Flow (cls o) = true →
   _run (S fuel) c shared (bound c p o s)
   = bind (call_prep c shared) (λ pr,
       bind (_orch fuel c shared (Some p)) (λ a,
         call_flow_post c shared pr a)) (bound c p o s)) ∧
  (cls o = CBatchFlow →
   ∀ bps s0 s',
     call_prep c shared (bound c p o s) = Some (Return (VArr bps), s0) →
     traversals fuel c shared p bps s0 s' →
     _run (S fuel) c shared (bound c p o s)
     = call_flow_post c shared (VArr bps) None s').
Proof.
  intros Ho.
  pose proof (bound_lookup c p o s Ho) as Hb.
  split.
  - intros Hc. rewrite (run_Flow _ _ _ _ _ Hb Hc).
    unfold bind at 1 3.
    destruct (call_prep c shared (bound c p o s)) as [[[pr|e] s0]|] eqn:Hp;
      [|done..].
    destruct (call_prep_inv _ _ _ _ _ Hp) as [w ->].
    assert (Heq : _orch fuel c shared None (with_world w (bound c p o s))
                  = _orch fuel c shared (Some p)
                      (with_world w (bound c p o s))).
    { unfold _orch, orch_from.
      by rewrite !(bind_get_node _ (with_params p o)) by exact Hb. }
    unfold bind. by rewrite Heq.
  - intros Hc bps s0 s' Hp Htr. rewrite <- run_eq.
    by apply (proj1 (batch_flow_sequential fuel c shared (with_params p o)
                       bps (bound c p o s) s0 Hb Hc Hp)).
Qed.

(** ** Batched task: the item list *)

Lemma run_BatchNode fuel this shared o p s0 s :
  nodes s !! this = Some o → cls o = CBatchNode →
  call_prep this shared s0 = Some (Return p, s) →
  run (S fuel) this shared s0
  = bind (BatchNode_exec this p) (call_post this shared p) s.
Proof.
  intros Ho Hc Hp. destruct (call_prep_inv _ _ _ _ _ Hp) as [w ->].
  rewrite !run_eq. rewrite run_S, (bind_get_node _ o) by done.
  unfold run_body. rewrite Hc. unfold bind at 1. by rewrite Hp.
Qed.

(** X10.  A [BatchNode] whose prepare returns a falsy value ([undefined],
    [null], [false], [0], [""]) or an empty array calls neither [exec] nor
    [execFallback]: finalize gets the empty array as the execute result, in
    the state prepare left.  When prepare returns a truthy value that is
    not an array, [run] throws a [TypeError] and finalize is not called. *)
Theorem batch_node_without_items
    (fuel : nat) (this : addr) (o : obj) (shared : Shared) (p : value)
    (s0 s : state) :
  nodes s0 !! this = Some o →
  cls o = CBatchNode →
  call_prep this shared s0 = Some (Return p, s) →
  (truthy p = false ∨ p = VArr [] →
   run (S fuel) this shared s0 = call_post this shared p (VArr []) s) ∧
  (truthy p = true → (∀ xs, p ≠ VArr xs) →
   run (S fuel) this shared s0
   = Some (Throw (VError "(items || []).map is not a function"), s)).
Proof.
  intros Ho Hc Hp.
  assert (Hs : nodes s !! this = Some o).
  { destruct (call_prep_inv _ _ _ _ _ Hp) as [w ->]. exact Ho. }
  rewrite (run_BatchNode _ _ _ _ _ _ _ Hs Hc Hp). split.
  - intros [Hf| ->]; unfold bind, BatchNode_exec; [rewrite Hf|]; done.
  - intros Ht Hna. unfold bind, BatchNode_exec. rewrite Ht.
    destruct p; try done. by destruct (Hna xs).
Qed.

(** ** Running a node twice, outside a flow *)

Lemma with_curRetry_twice i j (o : obj) :
  with_curRetry i (with_curRetry j o) = with_curRetry i o.
Proof. reflexivity. Qed.

Lemma call_exec_inv this p s c s0 :
  call_exec this p s = Some (c, s0) → ∃ w, s0 = with_world w s.
Proof.
  unfold call_exec, bind, get_node.
  destruct (nodes s !! this) as [o|]; [|done].
  destruct (exec (meths o)) as [f|].
  - unfold call. destruct (f _ p (world s)) as [c' w].
    intros [= <- <-]. by exists w.
  - intros [= <- <-]. exists (world s). by destruct s.
Qed.

Lemma call_execFallback_inv this p e s c s0 :
  call_execFallback this p e s = Some (c, s0) → ∃ w, s0 = with_world w s.
Proof.
  unfold call_execFallback, bind, get_node.
  destruct (nodes s !! this) as [o|]; [|done].
  destruct (execFallback (meths o)) as [f|].
  - unfold call. destruct (f _ p e (world s)) as [c' w].
    intros [= <- <-]. by exists w.
  - intros [= <- <-]. exists (world s). by destruct s.
Qed.

Lemma exec_attempts_shape n this p o : ∀ i s c s1,
  nodes s !! this = Some (with_curRetry i o) →
  exec_attempts n this p s = Some (c, s1) →
  ∃ j, nodes s1 = <[this := with_curRetry j o]> (nodes s) ∧
       tables s1 = tables s.
Proof.
  induction n as [|n IH]; intros i s c s1 Hs H.
  - injection H as <- <-. exists i. by rewrite list_insert_id.
  - cbn [exec_attempts] in H. unfold try_catch in H.
    destruct (call_exec this p s) as [[[r|e] s0]|] eqn:E; [| |done];
      destruct (call_exec_inv _ _ _ _ _ E) as [w ->].
    + injection H as <- <-. exists i. simpl. by rewrite list_insert_id.
    + rewrite (bind_get_node _ (with_curRetry i o)) in H by done.
      destruct (bool_decide _).
      * destruct (call_execFallback_inv _ _ _ _ _ _ H) as [w' ->].
        exists i. simpl. by rewrite list_insert_id.
      * unfold bind, set_node in H.
        apply IH with (i := curRetry (with_curRetry i o) + 1) in H.
        -- destruct H as (j & Hj & Ht). exists j. simpl in Hj, Ht.
           by rewrite list_insert_insert_eq in Hj.
        -- simpl. apply list_lookup_insert_eq. by eapply lookup_lt_Some.
Qed.

(** X11.  A [Node] run a second time directly, outside a flow, executes as
    if the first execution had not happened, but for the world: the
    wrapped execute resets [curRetry] before its first attempt, and it
    writes to nothing else. *)
Theorem node_rerun_starts_afresh
    (this : addr) (o : obj) (p p' : value) (s s1 : state)
    (c : completion value) :
  nodes s !! this = Some o →
  Node_exec this p s = Some (c, s1) →
  Node_exec this p' s1 = Node_exec this p' (with_world (world s1) s).
Proof.
  intros Ho H.
  assert (Hlt : (this < length (nodes s))%nat) by by eapply lookup_lt_Some.
  unfold Node_exec in H. rewrite (bind_get_node _ _ _ _ Ho) in H.
  unfold bind, set_node in H.
  assert (H0 : nodes (with_nodes (<[this := with_curRetry 0 o]> (nodes s)) s)
               !! this = Some (with_curRetry 0 o))
    by (simpl; by apply list_lookup_insert_eq).
  destruct (exec_attempts_shape _ this p o 0 _ _ _ H0 H) as (j & Hj & Ht).
  simpl in Hj, Ht. rewrite list_insert_insert_eq in Hj.
  assert (Hs1 : nodes s1 !! this = Some (with_curRetry j o))
    by (rewrite Hj; by apply list_lookup_insert_eq).
  unfold Node_exec.
  rewrite (bind_get_node _ _ _ _ Hs1), (bind_get_node _ o) by done.
  unfold bind, set_node. simpl.
  f_equal. unfold with_nodes. simpl.
  rewrite Hj, Ht, list_insert_insert_eq. reflexivity.
Qed.


(** ** Running a node that is not a flow *)





























(** ** Heaps built through the interface *)

Lemma wf_grow N (s : state) o t :
  wf N s → N = length (nodes s) →
  (∀ b, startNode o = Some b → (b < N)%nat) →
  (∀ k b, t !! k = Some b → (b < N)%nat) →
  wf (S N) (mkState (nodes s ++ [o]) (tables s ++ [t]) (world s)).
Proof.
  intros (Hl & Hs & Ht) -> Ho Htb. split; [|split].
  - simpl. rewrite length_app. simpl. lia.
  - intros a o' b Ha Hb. simpl in Ha.
    apply lookup_app_Some in Ha as [Ha|[_ Ha]].
    + pose proof (Hs _ _ _ Ha Hb). lia.
    + destruct (a - length (nodes s))%nat; [|done].
      injection Ha as <-. pose proof (Ho _ Hb). lia.
  - intros i m k b Hi Hk. simpl in Hi.
    apply lookup_app_Some in Hi as [Hi|[_ Hi]].
    + pose proof (Ht _ _ _ _ Hi Hk). lia.
    + destruct (i - length (tables s))%nat; [|done].
      injection Hi as <-. pose proof (Htb _ _ Hk). lia.
Qed.

Lemma own_tables_grow (s : state) o :
  own_tables s → successors o = length (tables s) →
  own_tables (mkState (nodes s ++ [o]) (tables s ++ [∅]) (world s)).
Proof.
  intros [Hl Ho] Hs. split.
  - simpl. rewrite !length_app. simpl. lia.
  - intros a o' Ha. simpl in Ha.
    apply lookup_app_Some in Ha as [Ha|[Hge Ha]]; [by apply Ho|].
    destruct (a - length (nodes s))%nat eqn:E; [|done].
    injection Ha as <-. rewrite Hs, Hl. lia.
Qed.

(** X16.  In every heap built through the interface (the constructors,
    [next], [start], [setParams], before any run), each object has a
    successor table of its own, and every start node and every registered
    successor is an object of the heap. *)
Theorem constructed_heap_is_closed (s : state) :
  constructed s → own_tables s ∧ wf (length (nodes s)) s.
Proof.
  induction 1 as [w|w s _ [IHo IHw]|c m r wt s a s' _ [IHo IHw] Hn
                 |c m st s a s' _ [IHo IHw] Hst Hn
                 |this node act s r s' _ [IHo IHw] Hnode Hn
                 |this n s r s' _ [IHo IHw] Hlt Hs
                 |this p s s' _ [IHo IHw] Hs].
  - split; [split; [done|intros a o Ha; done]|].
    split; [done|]. split; intros; done.
  - split; [exact IHo|]. by apply wf_world.
  - unfold new_Node in Hn. injection Hn as <- <-. split.
    + by apply own_tables_grow.
    + simpl. rewrite length_app, Nat.add_1_r.
      apply wf_grow; [done|done|done|intros k b Hk; done].
  - unfold new_Flow in Hn. injection Hn as <- <-. split.
    + by apply own_tables_grow.
    + simpl. rewrite length_app, Nat.add_1_r.
      apply wf_grow; [done|done| |intros k b Hk; done].
      simpl. intros b ->. by apply Hst.
  - unfold next in Hn. destruct (bool_decide _); [done|].
    destruct (nodes s !! this) as [o|] eqn:Ho; [|done].
    destruct (tables s !! successors o) as [t|] eqn:Ht; [|done].
    injection Hn as <- <-. destruct IHo as [Hl Hown].
    destruct IHw as (Hw1 & Hw2 & Hw3). split; [split|split; [|split]].
    + simpl. by rewrite length_insert.
    + exact Hown.
    + exact Hw1.
    + exact Hw2.
    + simpl. intros i m k b Hi Hk.
      destruct (decide (i = successors o)) as [->|Hne].
      * rewrite list_lookup_insert_eq in Hi by by eapply lookup_lt_Some.
        injection Hi as <-.
        destruct (decide (k = act)) as [->|Hk'].
        -- rewrite lookup_insert_eq in Hk. by injection Hk as <-.
        -- rewrite lookup_insert_ne in Hk by done. by eapply Hw3.
      * rewrite list_lookup_insert_ne in Hi by done. by eapply Hw3.
  - unfold start in Hs.
    destruct (nodes s !! this) as [o|] eqn:Ho;
      [|by unfold bind, get_node in Hs; rewrite Ho in Hs].
    rewrite (bind_get_node _ _ _ _ Ho) in Hs.
    destruct (flow_class (cls o)); [|done].
    injection Hs as <- <-. destruct IHo as [Hl Hown].
    destruct IHw as (Hw1 & Hw2 & Hw3).
    assert (Hthis : (this < length (nodes s))%nat) by by eapply lookup_lt_Some.
    split; [split|split; [|split]]; simpl; rewrite ?length_insert; try done.
    + intros a o' Ha. destruct (decide (a = this)) as [->|Hne].
      * rewrite list_lookup_insert_eq in Ha by done. injection Ha as <-.
        simpl. by apply Hown.
      * rewrite list_lookup_insert_ne in Ha by done. by apply Hown.
    + intros a o' b Ha Hb. destruct (decide (a = this)) as [->|Hne].
      * rewrite list_lookup_insert_eq in Ha by done. injection Ha as <-.
        simpl in Hb. by injection Hb as <-.
      * rewrite list_lookup_insert_ne in Ha by done. by eapply Hw2.
  - unfold setParams in Hs.
    destruct (nodes s !! this) as [o|] eqn:Ho;
      [|by unfold bind, get_node in Hs; rewrite Ho in Hs].
    rewrite (bind_get_node _ _ _ _ Ho) in Hs.
    injection Hs as <-. destruct IHo as [Hl Hown].
    destruct IHw as (Hw1 & Hw2 & Hw3).
    assert (Hthis : (this < length (nodes s))%nat) by by eapply lookup_lt_Some.
    split; [split|split; [|split]]; simpl; rewrite ?length_insert; try done.
    + intros a o' Ha. destruct (decide (a = this)) as [->|Hne].
      * rewrite list_lookup_insert_eq in Ha by done. injection Ha as <-.
        simpl. by apply Hown.
      * rewrite list_lookup_insert_ne in Ha by done. by apply Hown.
    + intros a o' b Ha Hb. destruct (decide (a = this)) as [->|Hne].
      * rewrite list_lookup_insert_eq in Ha by done. injection Ha as <-.
        simpl in Hb. by eapply Hw2.
      * rewrite list_lookup_insert_ne in Ha by done. by eapply Hw2.
Qed.


(** ** A suspendable task run on its own *)

Lemma settles_run {A} (p : proc A) s c s' :
  settles p s c s' → ∃ n, ∀ ch, run_sched (replicate n ch) p s = (s', Fin c).
Proof.
  induction 1 as [c s|f s s1 p c s' Hf _ [n IH]].
  - by exists 0%nat.
  - exists (S n). intros ch. simpl. rewrite Hf. apply IH.
Qed.

Lemma settles_call_run {A} (m : acall A) s c s' :
  settles_call m s c s' →
  ∃ n, ∀ ch, run_sched (replicate n ch) (snd (m s)) (fst (m s)) = (s', Fin c).
Proof. apply settles_run. Qed.

Lemma settles_await {A B} (p : proc A) s c s1 (k : completion A → acall B)
    c' s2 :
  settles p s c s1 → settles_call (k c) s1 c' s2 →
  settles (await p k) s c' s2.
Proof.
  induction 1 as [c s|f s s0 p c s1 Hf _ IH]; intros Hk; simpl.
  - eapply settles_atom; [|exact Hk]. by destruct (k c s).
  - eapply settles_atom; [by rewrite Hf|]. by apply IH.
Qed.

Lemma settles_call_finish {A} (c : completion A) s :
  settles_call (finish c) s c s.
Proof. constructor. Qed.

Lemma settles_call_abind {A B} (m : acall A) (k : A → acall B) s a s1 c s2 :
  settles_call m s (Return a) s1 → settles_call (k a) s1 c s2 →
  settles_call (abind m k) s c s2.
Proof.
  unfold settles_call, abind. destruct (m s) as [s0 p]. simpl.
  intros Hm Hk. by eapply settles_await.
Qed.

Lemma settles_call_abind_Throw {A B} (m : acall A) (k : A → acall B) s e s1 :
  settles_call m s (Throw e) s1 →
  settles_call (abind m k) s (Throw e) s1.
Proof.
  unfold settles_call, abind. destruct (m s) as [s0 p]. simpl.
  intros Hm. eapply settles_await; [exact Hm|]. apply settles_call_finish.
Qed.

Lemma settles_call_sync {A B} (m : M A) (k : A → acall B) s a s1 c s2 :
  m s = Some (Return a, s1) → settles_call (k a) s1 c s2 →
  settles_call (sync m k) s c s2.
Proof. unfold settles_call, sync. by intros ->. Qed.

Lemma settles_call_get_node {A} this o (k : obj → acall A) s c s2 :
  nodes s !! this = Some o → settles_call (k o) s c s2 →
  settles_call (sync (get_node this) k) s c s2.
Proof.
  intros Ho. apply settles_call_sync. by apply get_node_Some.
Qed.

Lemma with_world_same (s : state) : with_world (world s) s = s.
Proof. by destruct s. Qed.

Lemma settles_lift_job {A} (j : job A) : ∀ s,
  settles (lift_job j) s (fst (settle j (world s)))
          (with_world (snd (settle j (world s))) s).
Proof.
  induction j as [c|f IH] using (@job_nested_ind App A); intros s; simpl.
  - rewrite with_world_same. constructor.
  - specialize (IH (world s)).
    destruct (f (world s)) as [w j'] eqn:E. simpl in IH.
    eapply settles_atom; [by rewrite E|]. apply (IH (with_world w s)).
Qed.

Lemma settles_call_async {A} (f : acb A) s :
  settles_call (call_async f) s (fst (settle_call f (world s)))
               (with_world (snd (settle_call f (world s))) s).
Proof.
  unfold settles_call, call_async, settle_call.
  destruct (f (world s)) as [w j]. simpl.
  apply (settles_lift_job j (with_world w s)).
Qed.

Lemma settles_ext N {A} (p : proc A) s c s' :
  settles p s c s' → (N ≤ length (nodes s))%nat → framed N p → ext N s s'.
Proof.
  induction 1 as [c s|f s s1 p c s' Hf _ IH]; intros HN Hp.
  - by apply ext_refl.
  - simpl in Hp. specialize (Hp s HN). rewrite Hf in Hp.
    destruct Hp as [He Hp]. eapply ext_trans; [exact He|].
    apply IH; [by eapply ext_length|done].
Qed.

(** ** Execute with retry, suspendable *)

Section AsyncRetry.

Variables (this : addr) (o : obj) (exa : view → value → acb value)
          (p : value).
Hypothesis Hexa : execAsync (meths o) = Some exa.

Lemma settles_call_execAsync s :
  nodes s !! this = Some o →
  settles_call (call_execAsync this p) s
    (fst (settle_call (exa (view_of o) p) (world s)))
    (with_world (snd (settle_call (exa (view_of o) p) (world s))) s).
Proof.
  intros Ho. unfold call_execAsync.
  eapply settles_call_get_node; [exact Ho|]. rewrite Hexa.
  apply settles_call_async.
Qed.

Lemma settles_aexec_attempts_step n i s c1 w1 c s2 :
  nodes s !! this = Some o →
  settle_call (exa (view_of o) p) (world s) = (c1, w1) →
  settles_call
    (match c1 with
     | Return r => finish (Return r)
     | Throw e =>
         sync (get_node this) (λ o,
           if bool_decide (i = maxRetries o - 1)
           then abind (call_execFallbackAsync this p e)
                      (λ r, finish (Return r))
           else if bool_decide (0 < wait o)
           then λ s, (s, Atom (aexec_attempts n (i + 1) this p))
           else aexec_attempts n (i + 1) this p)
     end) (with_world w1 s) c s2 →
  settles_call (aexec_attempts (S n) i this p) s c s2.
Proof.
  intros Ho Hc Hk. pose proof (settles_call_execAsync s Ho) as Hex.
  rewrite Hc in Hex. simpl in Hex.
  unfold settles_call in *. cbn [aexec_attempts].
  destruct (call_execAsync this p s) as [s0 p0]. simpl in *.
  eapply settles_await; [exact Hex|]. exact Hk.
Qed.

(** Attempts that are rejected and are not the last one only move the
    world. *)
Lemma settles_aexec_attempts_rejections n : ∀ i es w' m s c s2,
  nodes s !! this = Some o →
  rejections (exa (view_of o) p) n (world s) = Some (es, w') →
  i + Z.of_nat n ≤ maxRetries o - 1 →
  settles_call (aexec_attempts m (i + Z.of_nat n) this p)
               (with_world w' s) c s2 →
  settles_call (aexec_attempts (n + m) i this p) s c s2.
Proof.
  induction n as [|n IH]; intros i es w' m s c s2 Ho Hr Hle Hm.
  - simpl in Hr. injection Hr as <- <-.
    by rewrite Z.add_0_r, with_world_same in Hm.
  - simpl in Hr.
    destruct (settle_call (exa (view_of o) p) (world s)) as [[r|e] w1] eqn:E;
      [done|].
    destruct (rejections _ n w1) as [[es' w2]|] eqn:F; [|done].
    injection Hr as <- <-.
    change (S n + m)%nat with (S (n + m)).
    eapply settles_aexec_attempts_step; [exact Ho|exact E|].
    eapply settles_call_get_node; [exact Ho|].
    rewrite bool_decide_eq_false_2 by lia.
    assert (Hrec : settles_call (aexec_attempts (n + m) (i + 1) this p)
                     (with_world w1 s) c s2).
    { apply (IH (i + 1) es' w2 m (with_world w1 s)); [done|done|lia|].
      replace (i + 1 + Z.of_nat n) with (i + Z.of_nat (S n)) by lia.
      exact Hm. }
    destruct (bool_decide (0 < wait o)); [|exact Hrec].
    unfold settles_call. simpl. eapply settles_atom; [|exact Hrec].
    by destruct (aexec_attempts (n + m) (i + 1) this p (with_world w1 s)).
Qed.

Lemma AsyncNode_exec_unfold s c s2 :
  nodes s !! this = Some o →
  settles_call (aexec_attempts (Z.to_nat (maxRetries o)) 0 this p) s c s2 →
  settles_call (AsyncNode_exec this p) s c s2.
Proof.
  intros Ho H. unfold AsyncNode_exec.
  eapply settles_call_get_node; [exact Ho|exact H].
Qed.

End AsyncRetry.

Lemma rejections_snoc ex n : ∀ es w w',
  rejections ex (S n) w = Some (es, w') →
  ∃ es0 w0 e,
    rejections ex n w = Some (es0, w0) ∧
    settle_call ex w0 = (Throw e, w') ∧ es = es0 ++ [e].
Proof.
  induction n as [|n IH]; intros es w w' H.
  - simpl in H. destruct (settle_call ex w) as [[r|e] w1] eqn:E; [done|].
    injection H as <- <-. by exists [], w, e.
  - change (rejections ex (S (S n)) w) with
      (match settle_call ex w with
       | (Throw e, w1) =>
           match rejections ex (S n) w1 with
           | Some (es, w2) => Some (e :: es, w2)
           | None => None
           end
       | (Return _, _) => None
       end) in H.
    destruct (settle_call ex w) as [[r|e] w1] eqn:E; [done|].
    destruct (rejections ex (S n) w1) as [[es1 w2]|] eqn:F; [|done].
    injection H as <- <-.
    destruct (IH _ _ _ F) as (es0 & w0 & e' & F0 & E' & ->).
    exists (e :: es0), w0, e'. simpl. by rewrite E, F0.
Qed.

(** X12.  An [AsyncNode] with [maxRetries = k ≥ 1] whose [execAsync] is
    rejected on attempts [1 .. k-1] and fulfilled with [r] on attempt [k],
    run with no other task in between: the wrapped execute is fulfilled
    with [r] and [execFallbackAsync] plays no part.  Unlike [Node], it
    counts the attempts in a local variable: every attempt sees the node
    as it was constructed, and the node is left untouched. *)
Theorem suspendable_retry_returns_first_success
    (this : addr) (o : obj) (exa : view → value → acb value) (p r : value)
    (k : Z) (es : list value) (w1 w2 : W) (s : state) :
  nodes s !! this = Some o →
  execAsync (meths o) = Some exa →
  maxRetries o = k → 1 ≤ k →
  rejections (exa (view_of o) p) (Z.to_nat (k - 1)) (world s) = Some (es, w1) →
  settle_call (exa (view_of o) p) w1 = (Return r, w2) →
  ∃ n, ∀ ch,
    run_sched (replicate n ch) (snd (AsyncNode_exec this p s))
              (fst (AsyncNode_exec this p s))
    = (with_world w2 s, Fin (Return r)).
Proof.
  intros Ho Hex Hk Hk1 Hrej Hok.
  apply settles_call_run.
  apply (AsyncNode_exec_unfold this o p s _ _ Ho). rewrite Hk.
  replace (Z.to_nat k) with (Z.to_nat (k - 1) + 1)%nat by lia.
  eapply (settles_aexec_attempts_rejections this o exa p Hex);
    [exact Ho|exact Hrej|lia|].
  eapply (settles_aexec_attempts_step this o exa p Hex);
    [exact Ho|exact Hok|].
  apply settles_call_finish.
Qed.

(** X13.  An [AsyncNode] with [maxRetries = k ≥ 1] whose [execAsync] is
    rejected on each of its [k] attempts, run with no other task in
    between: [execFallbackAsync] is called once, on the prepare result and
    the error of the [k]-th attempt, in the world the attempts left, and
    the wrapped execute settles as it does; the inherited fallback rejects
    with that error. *)
Theorem suspendable_retry_falls_back_once
    (this : addr) (o : obj) (exa : view → value → acb value) (p e : value)
    (k : Z) (es : list value) (w1 : W) (s : state) :
  nodes s !! this = Some o →
  execAsync (meths o) = Some exa →
  maxRetries o = k → 1 ≤ k →
  rejections (exa (view_of o) p) (Z.to_nat k) (world s) = Some (es, w1) →
  last es = Some e →
  (∀ fb, execFallbackAsync (meths o) = Some fb →
     ∃ n, ∀ ch,
       run_sched (replicate n ch) (snd (AsyncNode_exec this p s))
                 (fst (AsyncNode_exec this p s))
       = (with_world (snd (settle_call (fb (view_of o) p e) w1)) s,
          Fin (fst (settle_call (fb (view_of o) p e) w1)))) ∧
  (execFallbackAsync (meths o) = None →
     ∃ n, ∀ ch,
       run_sched (replicate n ch) (snd (AsyncNode_exec this p s))
                 (fst (AsyncNode_exec this p s))
       = (with_world w1 s, Fin (Throw e))).
Proof.
  intros Ho Hex Hk Hk1 Hrej Hlast.
  replace (Z.to_nat k) with (S (Z.to_nat (k - 1))) in Hrej by lia.
  destruct (rejections_snoc _ _ _ _ _ Hrej) as (es0 & w0 & e' & F0 & E & ->).
  rewrite last_snoc in Hlast. injection Hlast as ->.
  assert (Hgo : ∀ c s2,
            settles_call (call_execFallbackAsync this p e) (with_world w1 s)
                         c s2 →
            settles_call (AsyncNode_exec this p) s c s2).
  { intros c s2 Hfb.
    apply (AsyncNode_exec_unfold this o p s _ _ Ho). rewrite Hk.
    replace (Z.to_nat k) with (Z.to_nat (k - 1) + 1)%nat by lia.
    eapply (settles_aexec_attempts_rejections this o exa p Hex);
      [exact Ho|exact F0|lia|].
    eapply (settles_aexec_attempts_step this o exa p Hex);
      [exact Ho|exact E|].
    eapply settles_call_get_node; [exact Ho|].
    rewrite bool_decide_eq_true_2 by lia.
    destruct c as [r|e0].
    - eapply settles_call_abind; [exact Hfb|apply settles_call_finish].
    - by apply settles_call_abind_Throw. }
  split.
  - intros fb Hfb. apply settles_call_run, Hgo.
    unfold call_execFallbackAsync.
    eapply settles_call_get_node; [exact Ho|]. rewrite Hfb.
    apply (settles_call_async (fb (view_of o) p e) (with_world w1 s)).
  - intros Hnone. apply settles_call_run, Hgo.
    unfold call_execFallbackAsync.
    eapply settles_call_get_node; [exact Ho|]. rewrite Hnone.
    apply settles_call_finish.
Qed.


(** ** The lifecycle of a suspendable node *)

Lemma settles_call_prepAsync this o shared s :
  nodes s !! this = Some o →
  settles_call (call_prepAsync this shared) s
    (fst (prepAsync_alone o shared (world s)))
    (with_world (snd (prepAsync_alone o shared (world s))) s).
Proof.
  intros Ho. unfold call_prepAsync, prepAsync_alone.
  eapply settles_call_get_node; [exact Ho|].
  destruct (prepAsync (meths o)) as [f|]; [apply settles_call_async|].
  simpl. rewrite with_world_same. apply settles_call_finish.
Qed.

Lemma settles_call_postAsync this o shared p e s :
  nodes s !! this = Some o →
  settles_call (call_postAsync this shared p e) s
    (fst (postAsync_alone o shared p e (world s)))
    (with_world (snd (postAsync_alone o shared p e (world s))) s).
Proof.
  intros Ho. unfold call_postAsync, postAsync_alone.
  eapply settles_call_get_node; [exact Ho|].
  destruct (postAsync (meths o)) as [f|]; [apply settles_call_async|].
  simpl. rewrite with_world_same. apply settles_call_finish.
Qed.

Lemma settles_call_ext N {A} (m : acall A) s c s' :
  settles_call m s c s' → (N ≤ length (nodes s))%nat → framed_call N m →
  ext N s s'.
Proof.
  intros Hm HN Hf. destruct (Hf s HN) as [He Hp].
  eapply ext_trans; [exact He|].
  eapply settles_ext; [exact Hm|by eapply ext_length|exact Hp].
Qed.

Lemma settles_call_runAsync {A} (m : acall A) s (c : completion A) s' :
  settles_call m s c s' →
  settles_call (abind m (λ a, finish (Return a))) s c s'.
Proof.
  intros Hm. destruct c as [a|e].
  - eapply settles_call_abind; [exact Hm|apply settles_call_finish].
  - by apply settles_call_abind_Throw.
Qed.

(** X14.  [runAsync] on an [AsyncNode], with no other task in between,
    runs [prepAsync], then the wrapped execute on its result, then
    [postAsync] on both, each from the world the one before left, and is
    fulfilled with the label of [postAsync].  A rejection ends it at once:
    when [prepAsync] is rejected nothing else runs, and when the wrapped
    execute is rejected [postAsync] does not run. *)
Theorem async_node_lifecycle
    (fuel : nat) (this : addr) (o : obj) (shared : Shared) (s : state) :
  nodes s !! this = Some o →
  cls o = CAsyncNode →
  (∀ e w1,
     prepAsync_alone o shared (world s) = (Throw e, w1) →
     ∃ n, ∀ ch,
       run_sched (replicate n ch) (snd (runAsync fuel this shared s))
                 (fst (runAsync fuel this shared s))
       = (with_world w1 s, Fin (Throw e))) ∧
  (∀ p w1 e s2,
     prepAsync_alone o shared (world s) = (Return p, w1) →
     settles_call (AsyncNode_exec this p) (with_world w1 s) (Throw e) s2 →
     ∃ n, ∀ ch,
       run_sched (replicate n ch) (snd (runAsync fuel this shared s))
                 (fst (runAsync fuel this shared s))
       = (s2, Fin (Throw e))) ∧
  (∀ p w1 r s2,
     prepAsync_alone o shared (world s) = (Return p, w1) →
     settles_call (AsyncNode_exec this p) (with_world w1 s) (Return r) s2 →
     ∃ n, ∀ ch,
       run_sched (replicate n ch) (snd (runAsync fuel this shared s))
                 (fst (runAsync fuel this shared s))
       = (with_world (snd (postAsync_alone o shared p r (world s2))) s2,
          Fin (fst (postAsync_alone o shared p r (world s2))))).
Proof.
  intros Ho Hc.
  assert (Hrun : ∀ c s',
            settles_call (AsyncNode_runAsync this shared) s c s' →
            ∃ n, ∀ ch,
              run_sched (replicate n ch) (snd (runAsync fuel this shared s))
                        (fst (runAsync fuel this shared s))
              = (s', Fin c)).
  { intros c s' H. apply settles_call_run. unfold settles_call.
    rewrite runAsync_eq.
    apply settles_call_runAsync. unfold _runAsync.
    eapply settles_call_get_node; [exact Ho|]. by rewrite Hc. }
  pose proof (settles_call_prepAsync this o shared s Ho) as Hprep.
  assert (Hexec : ∀ p w1 c s2,
            settles_call (AsyncNode_exec this p) (with_world w1 s) c s2 →
            settles_call
              (sync (get_node this) (λ o0,
                 match cls o0 with
                 | CAsyncBatchNode => AsyncBatchNode_exec this p
                 | CAsyncParallelBatchNode =>
                     AsyncParallelBatchNode_exec this p
                 | _ => AsyncNode_exec this p
                 end)) (with_world w1 s) c s2).
  { intros p w1 c s2 H.
    eapply (settles_call_get_node this o); [exact Ho|]. by rewrite Hc. }
  split; [|split].
  - intros e w1 Hp. rewrite Hp in Hprep. apply Hrun.
    unfold AsyncNode_runAsync. by apply settles_call_abind_Throw.
  - intros p w1 e s2 Hp He. rewrite Hp in Hprep. apply Hrun.
    unfold AsyncNode_runAsync.
    eapply settles_call_abind; [exact Hprep|].
    apply settles_call_abind_Throw. by apply Hexec.
  - intros p w1 r s2 Hp He. rewrite Hp in Hprep. apply Hrun.
    unfold AsyncNode_runAsync.
    eapply settles_call_abind; [exact Hprep|].
    eapply settles_call_abind; [by apply Hexec|].
    apply settles_call_runAsync.
    apply settles_call_postAsync.
    assert (Hext : ext (length (nodes s)) (with_world w1 s) s2).
    { eapply settles_call_ext; [exact He|done|].
      apply framed_node_aexec. }
    destruct Hext as (_ & _ & Hn). rewrite Hn; [exact Ho|].
    by eapply lookup_lt_Some.
Qed.

(** ** The sequential batched suspendable task *)

Lemma settles_abatch_items this xs acc s c s2 :
  cycles_in_turn this xs acc s c s2 →
  settles_call (abatch_items this xs acc) s c s2.
Proof.
  induction 1 as [acc s|x xs acc r s s1 c s2 Hx _ IH|x xs acc e s s1 Hx];
    cbn [abatch_items].
  - apply settles_call_finish.
  - eapply settles_call_abind; [exact Hx|exact IH].
  - by apply settles_call_abind_Throw.
Qed.

Lemma cycles_in_turn_results this xs acc s v s2 :
  cycles_in_turn this xs acc s (Return v) s2 →
  ∃ rs, v = VArr (acc ++ rs) ∧ length rs = length xs.
Proof.
  intros H. remember (Return v) as c eqn:Hc.
  induction H as [acc s|x xs acc r s s1 c s2 Hx _ IH|x xs acc e s s1 Hx].
  - injection Hc as <-. exists []. by rewrite app_nil_r.
  - destruct (IH Hc) as (rs & -> & Hl). exists (r :: rs).
    split; [by rewrite <- app_assoc|]. simpl. by rewrite Hl.
  - done.
Qed.

(** X17.  [AsyncBatchNode._exec] on the items [[i1, ..., in]], with no
    other task in between, runs the execute-with-retry cycle of each item
    to its end before it starts the next one, each in the state the one
    before left.  When all of them are fulfilled so is the batch, with the
    [n] results in input order; when one is rejected so is the batch, with
    the same error, and the items after it are never started. *)
Theorem async_batch_runs_cycles_in_turn
    (this : addr) (xs : list value) (s s' : state) (c : completion value) :
  cycles_in_turn this xs [] s c s' →
  (∃ n, ∀ ch,
     run_sched (replicate n ch) (snd (AsyncBatchNode_exec this (VArr xs) s))
               (fst (AsyncBatchNode_exec this (VArr xs) s))
     = (s', Fin c)) ∧
  (∀ v, c = Return v → ∃ rs, v = VArr rs ∧ length rs = length xs).
Proof.
  intros H. split.
  - apply settles_call_run. unfold AsyncBatchNode_exec. simpl.
    by apply settles_abatch_items.
  - intros v ->. by apply (cycles_in_turn_results this xs [] s v s').
Qed.


(** ** An [AsyncFlow] over synchronous nodes *)

Lemma all_sync_nodes (s s' : state) :
  nodes s' = nodes s → all_sync s → all_sync s'.
Proof. intros Hn Hs a o. rewrite Hn. apply Hs. Qed.

Lemma all_sync_insert (s : state) a o o' :
  all_sync s → nodes s !! a = Some o → cls o' = cls o →
  all_sync (with_nodes (<[a := o']> (nodes s)) s).
Proof.
  intros Hs Ha Hc b ob. simpl. destruct (decide (b = a)) as [->|Hne].
  - rewrite list_lookup_insert_eq by by eapply lookup_lt_Some.
    intros [= <-]. rewrite Hc. by eapply Hs.
  - rewrite list_lookup_insert_ne by done. apply Hs.
Qed.

Lemma all_sync_app (s : state) a o :
  all_sync s → nodes s !! a = Some o →
  all_sync (with_nodes (nodes s ++ [o]) s).
Proof.
  intros Hs Ha b ob. simpl. intros Hb.
  apply lookup_app_Some in Hb as [Hb|[_ Hb]]; [by eapply Hs|].
  destruct (b - length (nodes s))%nat; [|done].
  injection Hb as <-. by eapply Hs.
Qed.

Lemma keeps_sync_get_node a : keeps all_sync (get_node a).
Proof.
  intros s r Hs. unfold get_node. destruct (nodes s !! a); [|done].
  by intros [= <-].
Qed.

Lemma keeps_sync_get_table t : keeps all_sync (get_table t).
Proof.
  intros s r Hs. unfold get_table. destruct (tables s !! t); [|done].
  by intros [= <-].
Qed.

Lemma keeps_sync_call {A} (f : cb A) : keeps all_sync (call f).
Proof.
  intros s r Hs. unfold call. destruct (f (world s)) as [c w].
  intros [= <-]. by eapply all_sync_nodes.
Qed.

Lemma keeps_sync_update this (g : obj → obj) :
  (∀ o, cls (g o) = cls o) →
  keeps all_sync (bind (get_node this) (λ o, set_node this (g o))).
Proof.
  intros Hg s r Hs. unfold bind, get_node.
  destruct (nodes s !! this) as [o|] eqn:Ho; [|done].
  intros [= <-]. simpl. by eapply all_sync_insert.
Qed.

Lemma keeps_sync_setParams c p : keeps all_sync (setParams c p).
Proof. by apply keeps_sync_update. Qed.

Lemma keeps_sync_clone a : keeps all_sync (clone a).
Proof.
  intros s r Hs. unfold clone. destruct (nodes s !! a) as [o|] eqn:Ho; [|done].
  intros [= <-]. by eapply all_sync_app.
Qed.

Lemma keeps_sync_clone_target t : keeps all_sync (clone_target t).
Proof.
  destruct t as [[a|k]|]; simpl; try apply keeps_ret.
  apply keeps_bind; [apply keeps_sync_clone|intros c; apply keeps_ret].
Qed.

Lemma keeps_sync_getNextNode c a : keeps all_sync (getNextNode c a).
Proof.
  apply keeps_bind; [apply keeps_sync_get_node|]. intros o.
  apply keeps_bind; [apply keeps_sync_get_table|]. intros t. apply keeps_ret.
Qed.

Lemma keeps_sync_call_prep this shared : keeps all_sync (call_prep this shared).
Proof.
  apply keeps_bind; [apply keeps_sync_get_node|]. intros o.
  destruct (prep (meths o)); [apply keeps_sync_call|apply keeps_ret].
Qed.

Lemma keeps_sync_call_exec this p : keeps all_sync (call_exec this p).
Proof.
  apply keeps_bind; [apply keeps_sync_get_node|]. intros o.
  destruct (exec (meths o)); [apply keeps_sync_call|apply keeps_ret].
Qed.

Lemma keeps_sync_call_post this shared p e :
  keeps all_sync (call_post this shared p e).
Proof.
  apply keeps_bind; [apply keeps_sync_get_node|]. intros o.
  destruct (post (meths o)); [apply keeps_sync_call|apply keeps_ret].
Qed.

Lemma keeps_sync_call_flow_post this shared p a :
  keeps all_sync (call_flow_post this shared p a).
Proof.
  apply keeps_bind; [apply keeps_sync_get_node|]. intros o.
  destruct (post (meths o)); [apply keeps_sync_call|apply keeps_ret].
Qed.

Lemma keeps_sync_call_execFallback this p e :
  keeps all_sync (call_execFallback this p e).
Proof.
  apply keeps_bind; [apply keeps_sync_get_node|]. intros o.
  destruct (execFallback (meths o)); [apply keeps_sync_call|apply keeps_throw].
Qed.

Lemma keeps_sync_exec_attempts n this p :
  keeps all_sync (exec_attempts n this p).
Proof.
  induction n as [|n IH]; cbn [exec_attempts]; [apply keeps_ret|].
  apply keeps_try_catch; [apply keeps_sync_call_exec|].
  intros [r|e]; [apply keeps_ret|].
  intros s r Hs. unfold bind at 1, get_node.
  destruct (nodes s !! this) as [o|] eqn:Ho; [|done].
  destruct (bool_decide _); [by apply keeps_sync_call_execFallback|].
  unfold bind, set_node. apply IH. by eapply all_sync_insert.
Qed.

Lemma keeps_sync_Node_exec this p : keeps all_sync (Node_exec this p).
Proof.
  intros s r Hs. unfold Node_exec, bind at 1, get_node.
  destruct (nodes s !! this) as [o|] eqn:Ho; [|done].
  unfold bind, set_node. apply keeps_sync_exec_attempts.
  by eapply all_sync_insert.
Qed.

Lemma keeps_sync_BatchNode_exec this p : keeps all_sync (BatchNode_exec this p).
Proof.
  unfold BatchNode_exec.
  destruct (if truthy p then p else VArr []); try apply keeps_throw.
  apply keeps_bind; [|intros rs; apply keeps_ret].
  apply keeps_traverse. intros x. apply keeps_sync_Node_exec.
Qed.

Lemma keeps_sync_orch_from loop this shared ps :
  (∀ curr p last, keeps all_sync (loop curr p shared last)) →
  keeps all_sync (orch_from loop this shared ps).
Proof.
  intros Hloop. unfold orch_from.
  apply keeps_bind; [apply keeps_sync_get_node|]. intros f.
  apply keeps_bind; [apply keeps_sync_clone_target|]. intros curr.
  apply Hloop.
Qed.

Lemma keeps_sync_run_body loop this shared (o : obj) :
  (∀ curr p last, keeps all_sync (loop curr p shared last)) →
  keeps all_sync (run_body loop this shared o).
Proof.
  intros Hloop. unfold run_body.
  destruct (cls o);
    repeat first
      [ apply keeps_sync_call_prep | apply keeps_sync_call_exec
      | apply keeps_sync_call_post | apply keeps_sync_call_flow_post
      | apply keeps_sync_get_node | apply keeps_throw
      | apply keeps_sync_Node_exec | apply keeps_sync_BatchNode_exec
      | apply keeps_sync_orch_from; exact Hloop
      | apply keeps_bind; [|intros ?]
      | apply keeps_traverse; intros ?
      | match goal with
        | |- keeps _ (match ?x with _ => _ end) => destruct x
        end ].
Qed.

Lemma keeps_sync_step (fuel : nat) :
  (∀ this shared, keeps all_sync (_run fuel this shared)) ∧
  (∀ curr p shared last, keeps all_sync (orch_loop fuel curr p shared last)).
Proof.
  induction fuel as [|fuel [IHr IHo]].
  - split; [by intros this shared s r|].
    intros [[c|k]|] p shared last.
    + by intros s r.
    + rewrite orch_loop_Inherited. apply keeps_throw.
    + rewrite orch_loop_None. apply keeps_ret.
  - split.
    + intros this shared. rewrite run_S.
      apply keeps_bind; [apply keeps_sync_get_node|]. intros o.
      apply keeps_sync_run_body. intros. apply IHo.
    + intros [[c|k]|] p shared last.
      * rewrite orch_loop_S.
        apply keeps_bind; [apply keeps_sync_setParams|]. intros _.
        apply keeps_bind; [apply IHr|]. intros a.
        apply keeps_bind; [apply keeps_sync_getNextNode|]. intros nxt.
        apply keeps_bind; [apply keeps_sync_clone_target|]. intros curr'.
        apply IHo.
      * rewrite orch_loop_Inherited. apply keeps_throw.
      * rewrite orch_loop_None. apply keeps_ret.
Qed.

Lemma sync_Some {A B} (m : M A) (k : A → acall B) s a s1 :
  m s = Some (Return a, s1) → sync m k s = k a s1.
Proof. unfold sync. by intros ->. Qed.

Lemma sync_Throw {A B} (m : M A) (k : A → acall B) s e s1 :
  m s = Some (Throw e, s1) → sync m k s = (s1, Fin (Throw e)).
Proof. unfold sync. by intros ->. Qed.

(** With synchronous nodes only, the loop of [_orchAsync] does what the
    loop of [_orch] does, in one block. *)
Lemma orchAsync_loop_sync fuel : ∀ curr p shared last s c s',
  all_sync s →
  orch_loop fuel curr p shared last s = Some (c, s') →
  orchAsync_loop fuel curr p shared last s = (s', Fin c).
Proof.
  induction fuel as [|fuel IH]; intros [[c0|k]|] p shared last s c s' Hs H;
    try (rewrite orch_loop_Inherited in H; injection H as <- <-; reflexivity);
    try (rewrite orch_loop_None in H; injection H as <- <-; reflexivity).
  - done.
  - rewrite orch_loop_S in H. cbn [orchAsync_loop].
    destruct (bind_Some _ _ _ _ H)
      as [([] & s1 & Hset & H1)|(e & s1 & Hset & [= -> ->])].
    2: { apply sync_Throw. unfold bind at 1. by rewrite Hset. }
    pose proof (keeps_sync_setParams c0 p s _ Hs Hset) as Hs1. simpl in Hs1.
    destruct (nodes s1 !! c0) as [o1|] eqn:Ho1.
    2: { destruct fuel as [|fuel']; [done|].
         rewrite run_S in H1. unfold bind at 1 2, get_node in H1.
         by rewrite Ho1 in H1. }
    rewrite (sync_Some _ _ s o1 s1)
      by (unfold bind; rewrite Hset; by apply get_node_Some).
    rewrite (Hs1 _ _ Ho1).
    destruct (bind_Some _ _ _ _ H1)
      as [(a & s2 & Hrun & H2)|(e & s2 & Hrun & [= -> ->])].
    2: { by apply sync_Throw. }
    rewrite (sync_Some _ _ s1 a s2) by done.
    pose proof (proj1 (keeps_sync_step fuel) c0 shared s1 _ Hs1 Hrun) as Hs2.
    simpl in Hs2.
    destruct (bind_Some _ _ _ _ H2)
      as [(nxt & s3 & Hn & H3)|(e & s3 & Hn & [= -> ->])].
    2: { apply sync_Throw. unfold bind. by rewrite Hn. }
    pose proof (keeps_sync_getNextNode c0 a s2 _ Hs2 Hn) as Hs3.
    simpl in Hs3.
    destruct (bind_Some _ _ _ _ H3)
      as [(curr' & s4 & Hc & H4)|(e & s4 & Hc & [= -> ->])].
    2: { apply sync_Throw. unfold bind. by rewrite Hn, Hc. }
    pose proof (keeps_sync_clone_target nxt s3 _ Hs3 Hc) as Hs4.
    simpl in Hs4.
    rewrite (sync_Some _ _ s2 curr' s4) by (unfold bind; by rewrite Hn, Hc).
    by apply IH.
Qed.

Lemma orchAsync_sync fuel this shared ps s c s' :
  all_sync s →
  _orch fuel this shared ps s = Some (c, s') →
  _orchAsync fuel this shared ps s = (s', Fin c).
Proof.
  intros Hs H. unfold _orch, orch_from in H. unfold _orchAsync.
  destruct (bind_Some _ _ _ _ H)
    as [(f & s1 & Hf & H1)|(e & s1 & Hf & [= -> ->])].
  2: { apply sync_Throw. unfold bind. by rewrite Hf. }
  pose proof (keeps_sync_get_node this s _ Hs Hf) as Hs1. simpl in Hs1.
  destruct (bind_Some _ _ _ _ H1)
    as [(curr & s2 & Hc & H2)|(e & s2 & Hc & [= -> ->])].
  2: { apply sync_Throw. unfold bind. by rewrite Hf, Hc. }
  pose proof (keeps_sync_clone_target _ s1 _ Hs1 Hc) as Hs2. simpl in Hs2.
  rewrite (sync_Some _ _ s (curr, default (params f) ps) s2)
    by (unfold bind; by rewrite Hf, Hc).
  by apply orchAsync_loop_sync.
Qed.

(** X15.  When no node of the graph is a suspendable node, the traversal
    of an [AsyncFlow] never suspends: the call of [_orchAsync] returns a
    promise that is already settled, with the label or the error, and in
    the state, of the synchronous traversal [_orch]; and it has allocated
    one copy per step, as [_orch] does, writing to no object that existed
    before. *)
Theorem async_flow_over_sync_nodes
    (fuel : nat) (this : addr) (shared : Shared)
    (ps : option (gmap string value)) (s s' : state)
    (c : completion action) :
  all_sync s →
  _orch fuel this shared ps s = Some (c, s') →
  _orchAsync fuel this shared ps s = (s', Fin c) ∧
  tables s' = tables s ∧ nodes s `prefix_of` nodes s'.
Proof.
  intros Hs H. split; [by apply orchAsync_sync|].
  pose proof (orch_touches _ _ _ _ _ _ H) as Hp. simpl in Hp.
  split; [apply Hp|by apply preserved_prefix].
Qed.


Lemma settles_call_flow_postAsync this o shared p a s :
  nodes s !! this = Some o →
  settles_call (call_flow_postAsync this shared p a) s
    (fst (flow_postAsync_alone o shared p a (world s)))
    (with_world (snd (flow_postAsync_alone o shared p a (world s))) s).
Proof.
  intros Ho. unfold call_flow_postAsync, flow_postAsync_alone.
  eapply settles_call_get_node; [exact Ho|].
  destruct (postAsync (meths o)) as [f|]; [apply settles_call_async|].
  simpl. rewrite with_world_same. apply settles_call_finish.
Qed.

Lemma settles_call_settled {A} (m : acall A) s c s' :
  m s = (s', Fin c) → settles_call m s c s'.
Proof. unfold settles_call. intros ->. constructor. Qed.

(** X18.  [runAsync] on an [AsyncFlow] whose graph has synchronous nodes
    only, with no other task in between: [prepAsync], then the whole
    traversal in one block, as [_orch] does it, then [postAsync] on the
    last label of the traversal; the inherited [postAsync] makes that
    label the result.  A rejected [prepAsync] or an error thrown by a node
    ends it at once. *)
Theorem async_flow_lifecycle
    (fuel : nat) (this : addr) (f : obj) (shared : Shared) (s : state) :
  nodes s !! this = Some f →
  cls f = CAsyncFlow →
  all_sync s →
  (∀ e w1,
     prepAsync_alone f shared (world s) = (Throw e, w1) →
     ∃ n, ∀ ch,
       run_sched (replicate n ch) (snd (runAsync fuel this shared s))
                 (fst (runAsync fuel this shared s))
       = (with_world w1 s, Fin (Throw e))) ∧
  (∀ p w1 e s2,
     prepAsync_alone f shared (world s) = (Return p, w1) →
     _orch fuel this shared None (with_world w1 s) = Some (Throw e, s2) →
     ∃ n, ∀ ch,
       run_sched (replicate n ch) (snd (runAsync fuel this shared s))
                 (fst (runAsync fuel this shared s))
       = (s2, Fin (Throw e))) ∧
  (∀ p w1 a s2,
     prepAsync_alone f shared (world s) = (Return p, w1) →
     _orch fuel this shared None (with_world w1 s) = Some (Return a, s2) →
     ∃ n, ∀ ch,
       run_sched (replicate n ch) (snd (runAsync fuel this shared s))
                 (fst (runAsync fuel this shared s))
       = (with_world (snd (flow_postAsync_alone f shared p a (world s2))) s2,
          Fin (fst (flow_postAsync_alone f shared p a (world s2))))).
Proof.
  intros Hf Hc Hs.
  assert (Hrun : ∀ c s',
            settles_call
              (abind (call_prepAsync this shared) (λ p,
               abind (_orchAsync fuel this shared None) (λ a,
               abind (call_flow_postAsync this shared p a) (λ r,
               finish (Return r))))) s c s' →
            ∃ n, ∀ ch,
              run_sched (replicate n ch) (snd (runAsync fuel this shared s))
                        (fst (runAsync fuel this shared s))
              = (s', Fin c)).
  { intros c s' H. apply settles_call_run. unfold settles_call.
    rewrite runAsync_eq.
    apply settles_call_runAsync. unfold _runAsync.
    eapply settles_call_get_node; [exact Hf|]. by rewrite Hc. }
  pose proof (settles_call_prepAsync this f shared s Hf) as Hprep.
  assert (Horch : ∀ w1 c s2,
            _orch fuel this shared None (with_world w1 s) = Some (c, s2) →
            settles_call (_orchAsync fuel this shared None)
                         (with_world w1 s) c s2).
  { intros w1 c s2 H. apply settles_call_settled.
    apply orchAsync_sync; [|exact H]. by eapply all_sync_nodes. }
  split; [|split].
  - intros e w1 Hp. rewrite Hp in Hprep. apply Hrun.
    by apply settles_call_abind_Throw.
  - intros p w1 e s2 Hp He. rewrite Hp in Hprep. apply Hrun.
    eapply settles_call_abind; [exact Hprep|].
    apply settles_call_abind_Throw. by apply Horch.
  - intros p w1 a s2 Hp Ha. rewrite Hp in Hprep. apply Hrun.
    eapply settles_call_abind; [exact Hprep|].
    eapply settles_call_abind; [by apply Horch|].
    apply settles_call_runAsync. apply settles_call_flow_postAsync.
    destruct (orch_touches _ _ _ _ _ _ Ha) as (_ & _ & Hn). simpl in Hn.
    rewrite Hn; [exact Hf| |tauto]. by eapply lookup_lt_Some.
Qed.

(** ** The parallel batch flow *)

(** Each task the parallel batch flow launches is the traversal
    [this._orchAsync(shared, {...this.params, ...bp})] of its parameter
    set: launching a traversal leaves the flow object as it is. *)
Lemma launch_traversals fuel flow (fp : obj) shared bps : ∀ st,
  nodes st !! flow = Some fp →
  launch (traversal_call fuel flow shared <$> bps) st
  = launch ((λ bp, _orchAsync fuel flow shared
                     (Some (merge_params (params fp) bp))) <$> bps) st.
Proof.
  induction bps as [|bp bps IH]; intros st Hf; [done|].
  rewrite !fmap_cons. cbn [launch].
  assert (E : traversal_call fuel flow shared bp st
              = _orchAsync fuel flow shared
                  (Some (merge_params (params fp) bp)) st).
  { unfold traversal_call.
    by rewrite (sync_Some _ _ st fp st (get_node_Some _ _ _ Hf)). }
  rewrite E.
  assert (Hlt : (S flow ≤ length (nodes st))%nat)
    by (apply lookup_lt_Some in Hf; lia).
  destruct (framed_orchAsync (S flow) fuel flow shared
              (Some (merge_params (params fp) bp)) st Hlt) as [He _].
  destruct (_orchAsync fuel flow shared _ st) as [s1 p]. simpl in He.
  rewrite IH; [done|]. destruct He as (_ & _ & Hn).
  rewrite Hn by lia. exact Hf.
Qed.

Lemma par_of_fulfilled {B A} (vs : list B) (k : completion (list B) → proc A) :
  par ((λ v, Fin (Return v)) <$> vs) k = k (Return vs).
Proof.
  assert (H : first_rejection ((λ v : B, Fin (Return v)) <$> vs) = None ∧
              existsb is_stuck ((λ v : B, Fin (Return v)) <$> vs) = false ∧
              all_fulfilled ((λ v : B, Fin (Return v)) <$> vs) = Some vs).
  { induction vs as [|v vs (IH1 & IH2 & IH3)]; [done|].
    rewrite fmap_cons. split; [exact IH1|]. split; [exact IH2|].
    cbn [all_fulfilled]. rewrite IH3. reflexivity. }
  destruct H as (Hr & Hs & Hv). unfold par. by rewrite Hr, Hs, Hv.
Qed.

Lemma keeps_sync_orch fuel this shared ps :
  keeps all_sync (_orch fuel this shared ps).
Proof.
  apply keeps_sync_orch_from. intros. apply (proj2 (keeps_sync_step fuel)).
Qed.

(** With synchronous nodes only, every traversal runs to its end in the
    block that launches it: launching the [m] traversals runs them one
    after the other in input order, and leaves [m] fulfilled tasks. *)
Lemma launch_traversals_sync fuel flow (fp : obj) shared bps st s' :
  all_sync st → nodes st !! flow = Some fp →
  traversals fuel flow shared (params fp) bps st s' →
  ∃ labels,
    launch (traversal_call fuel flow shared <$> bps) st
    = (s', (λ a, Fin (Return a)) <$> labels) ∧
    length labels = length bps ∧ nodes s' !! flow = Some fp.
Proof.
  intros Hs Hf Ht. rewrite (launch_traversals _ _ fp) by done.
  induction Ht as [s|bp bps a s s1 s2 Hbp Ht IH].
  - by exists [].
  - rewrite fmap_cons. cbn [launch].
    rewrite (orchAsync_sync _ _ _ _ _ _ _ Hs Hbp).
    destruct IH as (labels & Hl & Hlen & Hf2).
    + exact (keeps_sync_orch _ _ _ _ _ _ Hs Hbp).
    + exact (orch_keeps_flow _ _ _ _ _ _ _ Hf Hbp).
    + rewrite Hl. exists (a :: labels). simpl. by rewrite Hlen.
Qed.

Lemma settles_finalize_call this (o : obj) shared pr s :
  nodes s !! this = Some o →
  settles_call (finalize_call this shared pr) s
    (fst (flow_postAsync_alone o shared pr None (world s)))
    (with_world (snd (flow_postAsync_alone o shared pr None (world s))) s).
Proof.
  intros Ho. unfold finalize_call.
  apply settles_call_runAsync. by apply settles_call_flow_postAsync.
Qed.

(** [runAsync] on a parallel batch flow over synchronous nodes, with no
    other task in between: [prepAsync], then the [m] traversals in input
    order, then [postAsync] on the parameter sets and [null]. *)
Lemma parallel_batch_flow_sync fuel flow (fp : obj) shared bps st w1 s' :
  nodes st !! flow = Some fp → cls fp = CAsyncParallelBatchFlow →
  all_sync st →
  prepAsync_alone fp shared (world st) = (Return (VArr bps), w1) →
  traversals fuel flow shared (params fp) bps (with_world w1 st) s' →
  settles_call (_runAsync fuel flow shared) st
    (fst (flow_postAsync_alone fp shared (VArr bps) None (world s')))
    (with_world (snd (flow_postAsync_alone fp shared (VArr bps) None
                        (world s'))) s').
Proof.
  intros Hf Hc Hs Hp Ht. unfold _runAsync.
  eapply settles_call_get_node; [exact Hf|]. rewrite Hc.
  pose proof (settles_call_prepAsync flow fp shared st Hf) as Hprep.
  rewrite Hp in Hprep. eapply settles_call_abind; [exact Hprep|].
  cbn [truthy fst snd].
  destruct (launch_traversals_sync fuel flow fp shared bps
              (with_world w1 st) s') as (labels & Hl & _ & Hf');
    [by eapply all_sync_nodes|exact Hf|exact Ht|].
  unfold settles_call, parallel_traversals. rewrite Hl. cbn [fst snd].
  rewrite par_of_fulfilled. unfold join_then_finalize.
  eapply settles_atom; [apply surjective_pairing|].
  by apply settles_finalize_call.
Qed.

(** C6.  A [BatchFlow] whose prepare returned the parameter sets
    [[p1, ..., pm]]: [run] returns exactly when [m] complete traversals of
    its subgraph, run one after the other in input order, each return,
    the [i]-th one with the parameters [{...this.params, ...pi}], in which
    an entry of [pi] wins over one of the flow's own; its result is then
    that of finalize, called in the state the last traversal left.

    In the parallel variant all [m] traversals are launched, each running
    its first block, before anything else, and the [i]-th task is the
    traversal [_orchAsync] with the parameters [{...this.params, ...pi}].
    Whenever the flow returns, under whatever schedule, the schedule
    splits into a part after which every one of the [m] tasks is fulfilled
    and a part in which finalize runs, from its first block on; finalize
    is [postAsync] on the parameter sets and [null], and its label is the
    result.  When the subgraph has synchronous nodes only, each traversal
    runs to its end in the block that launches it: run with no other task
    in between, the flow does [prepAsync], then the [m] traversals in
    input order as the sequential flow does them, then [postAsync]. *)
Theorem batch_flow_runs_one_traversal_per_parameter_set
    (fuel : nat) (this : addr) (shared : Shared) (f : obj)
    (bps : list value) (s s0 : state) :
  nodes s !! this = Some f →
  cls f = CBatchFlow →
  call_prep this shared s = Some (Return (VArr bps), s0) →
  (∀ s', traversals fuel this shared (params f) bps s0 s' →
         run (S fuel) this shared s
         = call_flow_post this shared (VArr bps) None s') ∧
  (∀ a s'', run (S fuel) this shared s = Some (Return a, s'') →
     ∃ s', traversals fuel this shared (params f) bps s0 s' ∧
           call_flow_post this shared (VArr bps) None s'
           = Some (Return a, s'')) ∧
  (∀ base p k,
     merge_params base (VObj p) !! k
     = match p !! k with
       | Some v => Some v
       | None => base !! k
       end) ∧
  (∀ fuel' flow fp st,
     nodes st !! flow = Some fp → cls fp = CAsyncParallelBatchFlow →
     _runAsync fuel' flow shared st
     = abind (call_prepAsync flow shared) (λ p,
         match (if truthy p then p else VArr []) with
         | VArr bps' =>
             parallel_traversals fuel' flow shared
               (if truthy p then p else VArr []) bps'
         | _ => finish (Throw (VError "pr.map is not a function"))
         end) st) ∧
  (∀ fuel' flow fp st,
     nodes st !! flow = Some fp →
     launch (traversal_call fuel' flow shared <$> bps) st
     = launch ((λ bp, _orchAsync fuel' flow shared
                        (Some (merge_params (params fp) bp))) <$> bps) st) ∧
  (∀ fuel' flow pr sched st st' P' a,
     run_sched sched
       (snd (parallel_traversals fuel' flow shared pr bps st))
       (fst (parallel_traversals fuel' flow shared pr bps st)) = (st', P') →
     outcome_of P' = Some (Return a) →
     ∃ st0 tasks sched1 sched2 st1 tasks1 labels,
       launch (traversal_call fuel' flow shared <$> bps) st = (st0, tasks) ∧
       length tasks = length bps ∧
       sched = sched1 ++ sched2 ∧
       pool_run sched1 tasks st0 = (st1, tasks1) ∧
       all_fulfilled tasks1 = Some labels ∧
       length labels = length bps ∧
       run_sched sched2 (Atom (finalize_call flow shared pr)) st1
       = (st', P')) ∧
  (∀ flow fp pr st,
     nodes st !! flow = Some fp →
     settles_call (finalize_call flow shared pr) st
       (fst (flow_postAsync_alone fp shared pr None (world st)))
       (with_world (snd (flow_postAsync_alone fp shared pr None (world st)))
          st)) ∧
  (∀ fuel' flow fp st w1 s',
     nodes st !! flow = Some fp → cls fp = CAsyncParallelBatchFlow →
     all_sync st →
     prepAsync_alone fp shared (world st) = (Return (VArr bps), w1) →
     traversals fuel' flow shared (params fp) bps (with_world w1 st) s' →
     (∃ labels,
        launch (traversal_call fuel' flow shared <$> bps) (with_world w1 st)
        = (s', (λ a, Fin (Return a)) <$> labels) ∧
        length labels = length bps) ∧
     ∃ n, ∀ ch,
       run_sched (replicate n ch) (snd (runAsync fuel' flow shared st))
                 (fst (runAsync fuel' flow shared st))
       = (with_world (snd (flow_postAsync_alone fp shared (VArr bps) None
                             (world s'))) s',
          Fin (fst (flow_postAsync_alone fp shared (VArr bps) None
                      (world s'))))).
Proof.
  intros Hf Hc Hp.
  destruct (batch_flow_sequential fuel this shared f bps s s0 Hf Hc Hp)
    as [H1 H2].
  split; [exact H1|]. split; [exact H2|].
  split; [|split; [|split; [|split; [|split]]]].
  - intros. apply merge_params_lookup.
  - intros fuel' flow fp st Hfp Hcp. unfold _runAsync, sync at 1.
    rewrite (get_node_Some _ _ _ Hfp), Hcp. reflexivity.
  - intros fuel' flow fp st Hfp. by apply launch_traversals.
  - intros. by eapply parallel_traversals_join.
  - intros flow fp pr st Hfp. by apply settles_finalize_call.
  - intros fuel' flow fp st w1 s' Hfp Hcp Hs Hprep Ht. split.
    + destruct (launch_traversals_sync fuel' flow fp shared bps
                  (with_world w1 st) s') as (labels & Hl & Hlen & _);
        [by eapply all_sync_nodes|exact Hfp|exact Ht|].
      by exists labels.
    + apply settles_call_run. unfold settles_call. rewrite runAsync_eq.
      apply settles_call_runAsync.
      by apply (parallel_batch_flow_sync fuel' flow fp shared bps st w1 s').
Qed.

(** ** A node that selects itself *)

Lemma keeps_is_at_call_prep this o shared :
  keeps (is_at this o) (call_prep this shared).
Proof. apply keeps_pure, touches_call_prep. Qed.

Lemma keeps_is_at_call_exec this o p :
  keeps (is_at this o) (call_exec this p).
Proof. apply keeps_pure, touches_call_exec. Qed.

(** The label a node that is not a flow returns is the one its finalize
    returned, called on the node up to its retry counter. *)
Lemma run_post_label fuel this shared o s a s' :
  nodes s !! this = Some o → flow_class (cls o) = false →
  _run fuel this shared s = Some (Return a, s') →
  ∃ p e s2, is_at this o s2 ∧
            call_post this shared p e s2 = Some (Return a, s').
Proof.
  intros Ho Hc H. destruct fuel as [|fuel]; [done|].
  rewrite run_S, (bind_get_node _ _ _ _ Ho) in H.
  assert (Hat : is_at this o s) by (exists (curRetry o); by destruct o).
  assert (Hgo : ∀ (ex : value → M value),
            (∀ p, keeps (is_at this o) (ex p)) →
            bind (call_prep this shared) (λ p,
              bind (ex p) (λ e, call_post this shared p e)) s
            = Some (Return a, s') →
            ∃ p e s2, is_at this o s2 ∧
                      call_post this shared p e s2 = Some (Return a, s')).
  { intros ex Hex H0.
    destruct (bind_Some _ _ _ _ H0) as [(p & s1 & Hp & H1)|(? & ? & _ & ?)];
      [|done].
    destruct (bind_Some _ _ _ _ H1) as [(e & s2 & He & H2)|(? & ? & _ & ?)];
      [|done].
    exists p, e, s2. split; [|exact H2].
    apply (Hex p s1 _ (keeps_is_at_call_prep this o shared s _ Hat Hp) He). }
  unfold run_body in H. destruct (cls o); try done.
  - apply (Hgo (call_exec this)); [intros; apply keeps_is_at_call_exec|done].
  - apply (Hgo (Node_exec this)); [intros; apply keeps_node_exec|done].
  - apply (Hgo (BatchNode_exec this)); [intros; apply keeps_batch_exec|done].
Qed.

Section SelfLoop.

Variables (a0 : addr) (o : obj)
          (f : view → Shared → value → value → cb action)
          (k : string) (t : gmap string addr).
Hypothesis Hclass : flow_class (cls o) = false.
Hypothesis Hpost : post (meths o) = Some f.
Hypothesis Hlabel :
  ∀ v sh pr e w l, fst (f v sh pr e w) = Return l → key_of l = k.
Hypothesis Hself : t !! k = Some a0.

Lemma self_loop_label fuel c p shared s a s2 :
  nodes s !! c = Some o →
  _run fuel c shared (bound c p o s) = Some (Return a, s2) →
  key_of a = k.
Proof.
  intros Hc Hrun.
  destruct (run_post_label fuel c shared (with_params p o) _ a s2
              (bound_lookup c p o s Hc) Hclass Hrun)
    as (pr & e & s1 & [j Hj] & Hcall).
  unfold call_post in Hcall. rewrite (bind_get_node _ _ _ _ Hj) in Hcall.
  simpl in Hcall. rewrite Hpost in Hcall. unfold call in Hcall.
  destruct (f (view_of (with_curRetry j (with_params p o))) shared pr e
              (world s1)) as [c' w] eqn:E.
  injection Hcall as -> _. eapply Hlabel. by rewrite E.
Qed.

Lemma self_loop_goes_on fuel p shared : ∀ c last s,
  nodes s !! a0 = Some o → tables s !! successors o = Some t →
  nodes s !! c = Some o → c ≠ a0 →
  ∀ a s', orch_loop fuel (Some (NodeRef c)) p shared last s
          ≠ Some (Return a, s').
Proof.
  induction fuel as [|fuel IH]; intros c last s Ha0 Ht Hc Hne a s' H; [done|].
  rewrite orch_loop_S in H. unfold bind at 1 in H.
  rewrite (setParams_Some _ _ _ _ Hc) in H.
  destruct (bind_Some _ _ _ _ H) as [(a1 & s2 & Hrun & H1)|(? & ? & _ & ?)];
    [|done].
  unfold bind at 1 in H1.
  rewrite (getNextNode_after_run _ _ _ _ _ _ _ _ _ Hc Ht Hrun) in H1.
  rewrite (self_loop_label _ _ _ _ _ _ _ Hc Hrun) in H1.
  unfold js_get in H1. rewrite Hself in H1. simpl in H1.
  destruct (proj1 (frame_step fuel) _ _ _ _ Hrun) as (Htb & Hlen & Hn).
  simpl in Htb, Hlen, Hn. rewrite length_insert in Hlen, Hn.
  assert (Hlt : (a0 < length (nodes s))%nat) by by eapply lookup_lt_Some.
  assert (Ha2 : nodes s2 !! a0 = Some o).
  { rewrite Hn by done. by rewrite list_lookup_insert_ne. }
  unfold bind at 1 2 in H1. rewrite (clone_Some _ _ _ Ha2) in H1.
  unfold ret in H1.
  eapply (IH (length (nodes s2)) a1); [| | | |exact H1]; simpl.
  - by apply lookup_app_l_Some.
  - by rewrite Htb.
  - by apply list_lookup_middle.
  - lia.
Qed.

End SelfLoop.

(** X19.  A flow that starts at a node whose finalize always returns a
    label registered to that node itself never returns: whatever the fuel,
    its traversal and its [run] are still going, or have ended with an
    error thrown by a callback.  The orchestrator has no bound on the
    number of steps. *)
Theorem self_loop_never_returns
    (flow a0 : addr) (fl o : obj)
    (f : view → Shared → value → value → cb action)
    (k : string) (t : gmap string addr) (s : state) :
  nodes s !! flow = Some fl →
  startNode fl = Some a0 →
  nodes s !! a0 = Some o →
  flow_class (cls o) = false →
  post (meths o) = Some f →
  (∀ v sh pr e w l, fst (f v sh pr e w) = Return l → key_of l = k) →
  tables s !! successors o = Some t →
  t !! k = Some a0 →
  (∀ fuel shared ps a s',
     _orch fuel flow shared ps s ≠ Some (Return a, s')) ∧
  (runs_as_Flow (cls fl) = true →
   ∀ fuel shared a s', run fuel flow shared s ≠ Some (Return a, s')).
Proof.
  intros Hfl Hstart Ha0 Hclass Hpost Hlabel Ht Hself.
  assert (Horch : ∀ fuel shared ps w a s',
            _orch fuel flow shared ps (with_world w s)
            ≠ Some (Return a, s')).
  { intros fuel shared ps w a s' H. unfold _orch, orch_from in H.
    rewrite (bind_get_node _ fl) in H by exact Hfl.
    rewrite Hstart in H. simpl in H. unfold bind at 1 2 in H.
    rewrite (clone_Some a0 o) in H by exact Ha0. unfold ret in H.
    assert (Hlt : (a0 < length (nodes s))%nat) by by eapply lookup_lt_Some.
    eapply (self_loop_goes_on a0 o f k t Hclass Hpost Hlabel Hself);
      [| | | |exact H]; simpl.
    - by apply lookup_app_l_Some.
    - exact Ht.
    - by apply list_lookup_middle.
    - lia. }
  split.
  - intros fuel shared ps a s'. rewrite <- (with_world_same s).
    apply Horch.
  - intros Hc fuel shared a s' H. rewrite !run_eq in H.
    destruct fuel as [|fuel]; [done|]. rewrite (run_Flow _ _ _ _ _ Hfl Hc) in H.
    destruct (bind_Some _ _ _ _ H) as [(p & s0 & Hp & H1)|(? & ? & _ & ?)];
      [|done].
    destruct (call_prep_inv _ _ _ _ _ Hp) as [w ->].
    destruct (bind_Some _ _ _ _ H1) as [(a1 & s1 & Ho & _)|(? & ? & _ & ?)];
      [|done].
    by eapply Horch.
Qed.

(** ** Cycles that do not interfere *)

Section Independent.

Context {V : Type}.
Variable h : state.

Lemma with_world_heap w w' : with_world w' (with_world w h) = with_world w' h.
Proof. reflexivity. Qed.

Lemma ends_mono {A} (π : W → V) (p : proc A) :
  ∀ (Q Q' : completion A → V → Prop) v,
    (∀ c v', Q c v' → Q' c v') → ends h π Q v p → ends h π Q' v p.
Proof.
  induction A, p as [A c|A|A f IH|B' A ps k0 _ _|B' A bg m _ _]
    using (@proc_nested_ind App); intros Q Q' v HQ Hp; simpl in *;
    try done.
  - by apply HQ.
  - intros w Hw. specialize (Hp w Hw). specialize (IH (with_world w h)).
    destruct (f (with_world w h)) as [s' p']. destruct Hp as [Hs Hp].
    split; [done|]. by eapply IH.
Qed.

Lemma ends_await {A} (π : W → V) (p : proc A) :
  ∀ B (k : completion A → acall B) Q Q' v,
    ends h π Q v p →
    (∀ c v', Q c v' → ends_call h π Q' v' (k c)) →
    ends h π Q' v (await p k).
Proof.
  induction A, p as [A c|A|A f IH|B' A ps k0 _ _|B' A bg m _ _]
    using (@proc_nested_ind App); intros B k Q Q' v Hp Hk; simpl in *;
    try done.
  - by apply Hk.
  - intros w Hw. specialize (Hp w Hw). specialize (IH (with_world w h)).
    destruct (f (with_world w h)) as [s' p']. destruct Hp as [Hs Hp].
    split; [done|]. by eapply IH.
Qed.

Lemma ends_call_finish {A} (π : W → V) (Q : completion A → V → Prop) v c :
  Q c v → ends_call h π Q v (finish c).
Proof. intros HQ w Hw. simpl. by subst. Qed.

Lemma ends_call_abind {A B} (π : W → V) (m : acall A) (k : A → acall B)
    Q Q' v :
  ends_call h π Q v m →
  (∀ a v', Q (Return a) v' → ends_call h π Q' v' (k a)) →
  (∀ e v', Q (Throw e) v' → Q' (Throw e) v') →
  ends_call h π Q' v (abind m k).
Proof.
  intros Hm Hk He w Hw. unfold abind. specialize (Hm w Hw).
  destruct (m (with_world w h)) as [s1 p]. destruct Hm as [Hs Hp].
  split; [done|]. eapply ends_await; [exact Hp|].
  intros [a|e] v' HQ; [by apply Hk|]. apply ends_call_finish. by apply He.
Qed.

Lemma ends_call_get_node {B} (π : W → V) this o (k : obj → acall B) Q v :
  nodes h !! this = Some o → ends_call h π Q v (k o) →
  ends_call h π Q v (sync (get_node this) k).
Proof.
  intros Ho Hk w Hw. unfold sync.
  rewrite (get_node_Some this o (with_world w h)) by exact Ho.
  by apply Hk.
Qed.

Lemma ends_lift_job {A} (π : W → V) (j0 j : job A) :
  job_agrees π j0 j →
  ∀ w0, ends h π (λ c v, c = fst (settle j0 w0) ∧ v = π (snd (settle j0 w0)))
          (π w0) (lift_job j).
Proof.
  induction 1 as [c|f g Hw Hj IH]; intros w0; simpl; [done|].
  intros w Hπ. specialize (IH w0 w (eq_sym Hπ) (fst (f w0))).
  specialize (Hw w0 w (eq_sym Hπ)).
  destruct (g w) as [w' j']. destruct (f w0) as [w0' j0']. simpl in *.
  split; [done|]. by rewrite <- Hw.
Qed.

Lemma ends_call_async {A} (π : W → V) (f : acb A) w0 :
  reads_only π f →
  ends_call h π
    (λ c v, c = fst (settle_call f w0) ∧ v = π (snd (settle_call f w0)))
    (π w0) (call_async f).
Proof.
  intros [Hw Hj] w Hπ. unfold call_async, settle_call. cbn [world with_world].
  specialize (Hw w0 w (eq_sym Hπ)). specialize (Hj w0 w (eq_sym Hπ)).
  pose proof (ends_lift_job π _ _ Hj (fst (f w0))) as H.
  destruct (f w) as [w' j]. destruct (f w0) as [w0' j0]. simpl in *.
  split; [done|]. by rewrite <- Hw.
Qed.

(** *** Sparing *)

Lemma task_spares_await {A} (π : W → V) (p : proc A) :
  ∀ B (k : completion A → acall B),
    task_spares h π p → (∀ c, call_spares h π (k c)) →
    task_spares h π (await p k).
Proof.
  induction A, p as [A c|A|A f IH|B' A ps k0 _ _|B' A bg m _ _]
    using (@proc_nested_ind App); intros B k Hp Hk; simpl in *;
    try done.
  - apply Hk.
  - intros w. specialize (Hp w). specialize (IH (with_world w h)).
    destruct (f (with_world w h)) as [s' p']. destruct Hp as (Hs & Hv & Hp).
    split; [done|]. split; [done|]. by apply IH.
Qed.

Lemma call_spares_finish {A} (π : W → V) (c : completion A) :
  call_spares h π (finish c).
Proof. intros w. by simpl. Qed.

Lemma call_spares_abind {A B} (π : W → V) (m : acall A) (k : A → acall B) :
  call_spares h π m → (∀ a, call_spares h π (k a)) →
  call_spares h π (abind m k).
Proof.
  intros Hm Hk w. unfold abind. specialize (Hm w).
  destruct (m (with_world w h)) as [s1 p]. destruct Hm as (Hs & Hv & Hp).
  split; [done|]. split; [done|]. apply task_spares_await; [done|].
  intros [a|e]; [apply Hk|apply call_spares_finish].
Qed.

Lemma call_spares_get_node {B} (π : W → V) this o (k : obj → acall B) :
  nodes h !! this = Some o → call_spares h π (k o) →
  call_spares h π (sync (get_node this) k).
Proof.
  intros Ho Hk w. unfold sync.
  rewrite (get_node_Some this o (with_world w h)) by exact Ho.
  apply Hk.
Qed.

Lemma task_spares_lift_job {A} (π : W → V) (j : job A) :
  job_spares π j → task_spares h π (lift_job j).
Proof.
  induction j as [c|f IH] using (@job_nested_ind App A); simpl; [done|].
  intros Hj w. specialize (Hj w). specialize (IH w).
  destruct (f w) as [w' j']. destruct Hj as [Hv Hj]. simpl in *.
  split; [done|]. split; [done|]. by apply IH.
Qed.

Lemma call_spares_async {A} (π : W → V) (f : acb A) :
  spares π f → call_spares h π (call_async f).
Proof.
  intros Hf w. unfold call_async. destruct (Hf w) as [Hv Hj].
  cbn [world with_world]. destruct (f w) as [w' j]. simpl in *.
  split; [done|]. split; [done|]. by apply task_spares_lift_job.
Qed.

End Independent.
(** *** The cycle of one item *)

Section Cycle.

Context {V : Type}.
Variables (h : state) (this : addr) (o : obj).
Hypothesis Hthis : nodes h !! this = Some o.

Lemma ends_call_execAsync (π : W → V) x w0 :
  reads_only π (execAsync_of o x) →
  ends_call h π
    (λ c v, c = fst (settle_call (execAsync_of o x) w0) ∧
            v = π (snd (settle_call (execAsync_of o x) w0)))
    (π w0) (call_execAsync this x).
Proof.
  intros Hr. unfold call_execAsync.
  eapply ends_call_get_node; [exact Hthis|].
  pose proof (ends_call_async h π (execAsync_of o x) w0 Hr) as H.
  unfold execAsync_of in *. destruct (execAsync (meths o)) as [f|]; [done|].
  intros w Hw. simpl. by subst.
Qed.

Lemma ends_call_execFallbackAsync (π : W → V) x e w0 :
  reads_only π (fallbackAsync_of o x e) →
  ends_call h π
    (λ c v, c = fst (settle_call (fallbackAsync_of o x e) w0) ∧
            v = π (snd (settle_call (fallbackAsync_of o x e) w0)))
    (π w0) (call_execFallbackAsync this x e).
Proof.
  intros Hr. unfold call_execFallbackAsync.
  eapply ends_call_get_node; [exact Hthis|].
  pose proof (ends_call_async h π (fallbackAsync_of o x e) w0 Hr) as H.
  unfold fallbackAsync_of in *.
  destruct (execFallbackAsync (meths o)) as [f|]; [done|].
  intros w Hw. simpl. by subst.
Qed.

Lemma ends_aexec_attempts (π : W → V) x :
  reads_only π (execAsync_of o x) →
  (∀ e, reads_only π (fallbackAsync_of o x e)) →
  ∀ n i w0,
    ends_call h π
      (λ c v, c = fst (cycle_alone o x n i w0) ∧
              v = π (snd (cycle_alone o x n i w0)))
      (π w0) (aexec_attempts n i this x).
Proof.
  intros Hex Hfb. induction n as [|n IH]; intros i w0.
  - by apply ends_call_finish.
  - intros w Hw. cbn [aexec_attempts].
    pose proof (ends_call_execAsync π x w0 Hex w Hw) as H.
    destruct (call_execAsync this x (with_world w h)) as [s1 p].
    destruct H as [Hs Hp]. split; [done|].
    eapply ends_await; [exact Hp|]. clear Hp Hs.
    intros c v' [-> ->]. cbn [cycle_alone].
    destruct (settle_call (execAsync_of o x) w0) as [[r|e] w1]; cbn [fst snd].
    + by apply ends_call_finish.
    + eapply ends_call_get_node; [exact Hthis|].
      case_bool_decide as Hlast.
      * eapply ends_call_abind;
          [apply (ends_call_execFallbackAsync π x e w1 (Hfb e))| |].
        -- intros a v' [Ha Hv]. apply ends_call_finish. by rewrite <- Ha.
        -- intros e' v' [He Hv]. by rewrite <- He.
      * case_bool_decide as Hwait; [|apply IH].
        intros w' Hw'. split; [done|]. cbn [world with_world].
        rewrite Hw'. apply IH.
Qed.

Lemma ends_AsyncNode_exec (π : W → V) x w0 :
  reads_only π (execAsync_of o x) →
  (∀ e, reads_only π (fallbackAsync_of o x e)) →
  ends_call h π
    (λ c v, c = fst (cycle_alone o x (Z.to_nat (maxRetries o)) 0 w0) ∧
            v = π (snd (cycle_alone o x (Z.to_nat (maxRetries o)) 0 w0)))
    (π w0) (AsyncNode_exec this x).
Proof.
  intros Hex Hfb. unfold AsyncNode_exec.
  eapply ends_call_get_node; [exact Hthis|]. by apply ends_aexec_attempts.
Qed.

Lemma call_spares_execAsync (π : W → V) x :
  spares π (execAsync_of o x) → call_spares h π (call_execAsync this x).
Proof.
  intros Hs. unfold call_execAsync.
  eapply call_spares_get_node; [exact Hthis|].
  pose proof (call_spares_async h π (execAsync_of o x) Hs) as H.
  unfold execAsync_of in *. destruct (execAsync (meths o)) as [f|]; [done|].
  apply call_spares_finish.
Qed.

Lemma call_spares_execFallbackAsync (π : W → V) x e :
  spares π (fallbackAsync_of o x e) →
  call_spares h π (call_execFallbackAsync this x e).
Proof.
  intros Hs. unfold call_execFallbackAsync.
  eapply call_spares_get_node; [exact Hthis|].
  pose proof (call_spares_async h π (fallbackAsync_of o x e) Hs) as H.
  unfold fallbackAsync_of in *.
  destruct (execFallbackAsync (meths o)) as [f|]; [done|].
  apply call_spares_finish.
Qed.

Lemma call_spares_aexec_attempts (π : W → V) x :
  spares π (execAsync_of o x) →
  (∀ e, spares π (fallbackAsync_of o x e)) →
  ∀ n i, call_spares h π (aexec_attempts n i this x).
Proof.
  intros Hex Hfb. induction n as [|n IH]; intros i.
  - apply call_spares_finish.
  - intros w. cbn [aexec_attempts].
    pose proof (call_spares_execAsync π x Hex w) as H.
    destruct (call_execAsync this x (with_world w h)) as [s1 p].
    destruct H as (Hs & Hv & Hp). split; [done|]. split; [done|].
    apply task_spares_await; [exact Hp|].
    intros [r|e]; [apply call_spares_finish|].
    eapply call_spares_get_node; [exact Hthis|].
    case_bool_decide as Hlast.
    + apply call_spares_abind; [by apply call_spares_execFallbackAsync|].
      intros a. apply call_spares_finish.
    + case_bool_decide as Hwait; [|apply IH].
      intros w'. split; [done|]. split; [done|]. apply IH.
Qed.

Lemma call_spares_AsyncNode_exec (π : W → V) x :
  spares π (execAsync_of o x) →
  (∀ e, spares π (fallbackAsync_of o x e)) →
  call_spares h π (AsyncNode_exec this x).
Proof.
  intros Hex Hfb. unfold AsyncNode_exec.
  eapply call_spares_get_node; [exact Hthis|].
  by apply call_spares_aexec_attempts.
Qed.

End Cycle.
(** *** Tasks run to their end *)

Lemma run_sched_Fin {A} sched (c : completion A) (s : state) :
  run_sched sched (Fin c) s = (s, Fin c).
Proof. induction sched as [|ch sched IH]; simpl; [done|apply IH]. Qed.

Lemma settles_outcome {A} (p : proc A) s c s' :
  settles p s c s' →
  ∀ sched c1, outcome_of (snd (run_sched sched p s)) = Some c1 → c1 = c.
Proof.
  induction 1 as [c s|f s s1 p c s' Hf _ IH]; intros sched c1.
  - rewrite run_sched_Fin. simpl. congruence.
  - destruct sched as [|ch sched]; [done|]. cbn [run_sched step].
    rewrite Hf. apply IH.
Qed.

Section Alone.

Context {V : Type}.
Variable h : state.

Lemma ends_settles {A} (π : W → V) (p : proc A) :
  ∀ (Q : completion A → V → Prop) v w,
    ends h π Q v p → π w = v →
    ∃ c w', settles p (with_world w h) c (with_world w' h) ∧ Q c (π w').
Proof.
  induction A, p as [A c|A|A f IH|B' A ps k0 _ _|B' A bg m _ _]
    using (@proc_nested_ind App); intros Q v w Hp Hw; simpl in *;
    try done.
  - exists c, w. split; [constructor|by subst].
  - specialize (Hp w Hw). specialize (IH (with_world w h)).
    destruct (f (with_world w h)) as [s' p'] eqn:E. destruct Hp as [Hs Hp].
    destruct (IH Q _ (world s') Hp eq_refl) as (c & w' & Hset & HQ).
    exists c, w'. split; [|done].
    eapply settles_atom; [exact E|]. by rewrite Hs.
Qed.

Lemma ends_call_settles {A} (π : W → V) (m : acall A) Q v w :
  ends_call h π Q v m → π w = v →
  ∃ c w', settles_call m (with_world w h) c (with_world w' h) ∧ Q c (π w').
Proof.
  intros Hm Hw. specialize (Hm w Hw). unfold settles_call.
  destruct (m (with_world w h)) as [s' p']. destruct Hm as [Hs Hp].
  destruct (ends_settles π p' Q _ (world s') Hp eq_refl)
    as (c & w' & Hset & HQ).
  exists c, w'. split; [|done]. simpl. by rewrite Hs.
Qed.

Lemma task_spares_settles {A} (π : W → V) (p : proc A) s c s' :
  settles p s c s' →
  ∀ w, s = with_world w h → task_spares h π p →
       ∃ w', s' = with_world w' h ∧ π w' = π w.
Proof.
  induction 1 as [c s|f s s1 p c s' Hf _ IH]; intros w -> Hp.
  - by exists w.
  - simpl in Hp. specialize (Hp w). rewrite Hf in Hp.
    destruct Hp as (Hs & Hv & Hp).
    destruct (IH (world s1) Hs Hp) as (w' & -> & Hv').
    exists w'. split; [done|]. congruence.
Qed.

Lemma call_spares_settles {A} (π : W → V) (m : acall A) w c s' :
  settles_call m (with_world w h) c s' → call_spares h π m →
  ∃ w', s' = with_world w' h ∧ π w' = π w.
Proof.
  unfold settles_call. intros Hset Hm. specialize (Hm w).
  destruct (m (with_world w h)) as [s1 p]. destruct Hm as (Hs & Hv & Hp).
  simpl in Hset.
  destruct (task_spares_settles π p _ _ _ Hset (world s1) Hs Hp)
    as (w' & -> & Hv').
  exists w'. split; [done|]. congruence.
Qed.

Lemma ends_step {A} (π : W → V) (p : proc A) Q v w ch :
  ends h π Q v p → π w = v →
  match step p ch (with_world w h) with
  | (s', p') => s' = with_world (world s') h ∧ ends h π Q (π (world s')) p'
  end.
Proof.
  intros Hp Hw. destruct p as [A c|A|A f|B' A qs k0|B' A bg m]; try done.
  - simpl. by subst.
  - cbn [step]. by apply Hp.
Qed.

Lemma task_spares_step {A} (π : W → V) (p : proc A) w ch :
  task_spares h π p →
  match step p ch (with_world w h) with
  | (s', p') =>
      s' = with_world (world s') h ∧ π (world s') = π w ∧ task_spares h π p'
  end.
Proof.
  intros Hp. destruct p as [A c|A|A f|B' A qs k0|B' A bg m]; try done.
  cbn [step]. apply Hp.
Qed.

Lemma ends_outcome {A} (π : W → V) (p : proc A) Q v c :
  ends h π Q v p → outcome_of p = Some c → Q c v.
Proof.
  intros Hp Hc. destruct p as [A c0|A|A f|B' A qs k0|B' A bg m]; try done.
  simpl in *. congruence.
Qed.

Lemma ends_not_stuck {A} (π : W → V) (p : proc A) Q v :
  ends h π Q v p → is_stuck p = false.
Proof. intros Hp. by destruct p. Qed.

End Alone.

(** With the identity for [π], a callback reads what it reads. *)
Lemma job_agrees_refl {A} (j : job A) : job_agrees id j j.
Proof.
  induction j as [c|f IH] using (@job_nested_ind App A); [constructor|].
  constructor; intros w1 w2 Hw; simpl in Hw; subst; [done|apply IH].
Qed.

Lemma reads_only_id {A} (f : acb A) : reads_only id f.
Proof.
  split; intros w1 w2 Hw; simpl in Hw; subst; [done|apply job_agrees_refl].
Qed.

(** What [cycle_alone] computes is how the wrapped execute of a
    suspendable node settles when nothing else runs in between. *)
Lemma settles_cycle_alone this (o : obj) x s :
  nodes s !! this = Some o →
  settles_call (AsyncNode_exec this x) s
    (fst (cycle_alone o x (Z.to_nat (maxRetries o)) 0 (world s)))
    (with_world (snd (cycle_alone o x (Z.to_nat (maxRetries o)) 0 (world s)))
       s).
Proof.
  intros Ho.
  destruct (ends_call_settles s id (AsyncNode_exec this x) _ _ (world s)
              (ends_AsyncNode_exec s this o Ho id x (world s)
                 (reads_only_id _) (λ e, reads_only_id _)) eq_refl)
    as (c & w' & Hset & -> & Hw).
  rewrite with_world_same in Hset. simpl in Hw. by rewrite <- Hw.
Qed.

Lemma seq_result_Return (f : value → completion value) xs : ∀ acc v,
  seq_result f xs acc = Return v ↔
  ∃ vs, v = VArr (acc ++ vs) ∧ Forall2 (λ x r, f x = Return r) xs vs.
Proof.
  induction xs as [|x xs IH]; intros acc v; simpl.
  - split.
    + intros [= <-]. exists []. by rewrite app_nil_r.
    + intros (vs & -> & Hvs). inversion Hvs. by rewrite app_nil_r.
  - destruct (f x) as [r|e] eqn:E.
    + rewrite IH. split.
      * intros (vs & -> & Hvs). exists (r :: vs).
        rewrite <- app_assoc. split; [done|]. by constructor.
      * intros (vs & -> & Hvs).
        inversion Hvs as [|? r' ? vs' Hr Hvs']; subst.
        exists vs'. rewrite <- app_assoc. split; [|done].
        simpl. congruence.
    + split; [done|]. intros (vs & _ & Hvs). inversion Hvs. congruence.
Qed.

(** *** The items of a batch *)

Lemma step_at_spec {B} (resume : proc B → state * proc B) s ps : ∀ i,
  step_at resume s ps i
  = match ps !! i with
    | Some q => (fst (resume q), <[i := snd (resume q)]> ps)
    | None => (s, ps)
    end.
Proof.
  induction ps as [|p ps IH]; intros [|i]; simpl; try done.
  - by destruct (resume p).
  - rewrite IH. by destruct (ps !! i).
Qed.

Lemma all_fulfilled_lookup {B} (ps : list (proc B)) : ∀ vs,
  all_fulfilled ps = Some vs →
  ∀ i, fulfilment <$> ps !! i = Some <$> vs !! i.
Proof.
  induction ps as [|p ps IH]; simpl; intros vs.
  - by intros [= <-] i.
  - destruct (fulfilment p) as [v|] eqn:E; [|done].
    destruct (all_fulfilled ps) as [vs'|]; [|done].
    intros [= <-] [|i]; simpl; [by rewrite E|by apply IH].
Qed.

Lemma first_rejection_lookup {B} (ps : list (proc B)) e :
  first_rejection ps = Some e →
  ∃ i p, ps !! i = Some p ∧ rejection p = Some e.
Proof.
  induction ps as [|p ps IH]; simpl; [done|].
  destruct (rejection p) as [e'|] eqn:E.
  - intros [= ->]. by exists 0%nat, p.
  - intros H. destruct (IH H) as (i & q & Hq & Hr). by exists (S i), q.
Qed.

Lemma launch_tasks {B C} (f : C → acall B) (xs : list C) : ∀ s,
  Forall2 (λ x p, ∃ si, p = snd (f x si)) xs (snd (launch (f <$> xs) s)).
Proof.
  induction xs as [|x xs IH]; intros s; [constructor|].
  rewrite fmap_cons. cbn [launch].
  destruct (f x s) as [s1 p] eqn:E. specialize (IH s1).
  destruct (launch (f <$> xs) s1) as [s2 ps]. simpl in *.
  constructor; [|done]. exists s. by rewrite E.
Qed.

Lemma run_collect sched (c : completion (list value)) s s' P' c' :
  run_sched sched (collect c) s = (s', P') →
  outcome_of P' = Some c' →
  c' = match c with Return rs => Return (VArr rs) | Throw e => Throw e end.
Proof.
  destruct sched as [|ch sched]; simpl.
  - by intros [= <- <-].
  - rewrite run_sched_Fin. intros [= <- <-]. simpl. congruence.
Qed.

Lemma step_at_here {B} (resume : proc B → state * proc B) s s' done q q'
    rest :
  resume q = (s', q') →
  step_at resume s (done ++ q :: rest) (length done)
  = (s', done ++ q' :: rest).
Proof.
  intros Hq. induction done as [|d done IH]; simpl; [by rewrite Hq|].
  by rewrite IH.
Qed.

Lemma all_fulfilled_suspended {B} (done rest : list (proc B)) f :
  all_fulfilled (done ++ Atom f :: rest) = None.
Proof.
  induction done as [|d done IH]; simpl; [done|].
  rewrite IH. by destruct (fulfilment d).
Qed.

Lemma first_rejection_None {B} (ps : list (proc B)) :
  Forall (λ p, rejection p = None) ps → first_rejection ps = None.
Proof. induction 1 as [|p ps Hp _ IH]; simpl; [done|]. by rewrite Hp. Qed.

Lemma existsb_is_stuck_false {B} (ps : list (proc B)) :
  Forall (λ p, is_stuck p = false) ps → existsb is_stuck ps = false.
Proof. induction 1 as [|p ps Hp _ IH]; simpl; [done|]. by rewrite Hp. Qed.

(** A task of a pending [Promise.all] that settles when it is resumed on
    its own can be run to its end, the others staying as they are. *)
Lemma pool_task_completes {A} (k : completion (list value) → proc A)
    (q : proc value) s c s1 :
  settles q s c s1 →
  ∀ done rest,
    Forall (λ p, rejection p = None) (done ++ rest) →
    Forall (λ p, is_stuck p = false) (done ++ rest) →
    ∃ sched,
      run_sched sched (par (done ++ q :: rest) k) s
      = (s1, par (done ++ Fin c :: rest) k).
Proof.
  induction 1 as [c s|f s s1 q c s' Hf _ IH]; intros done rest Hr Hs.
  - by exists [].
  - destruct (IH done rest Hr Hs) as [sched Hsched].
    exists ([length done] :: sched).
    apply Forall_app in Hr as [Hr1 Hr2]. apply Forall_app in Hs as [Hs1 Hs2].
    unfold par at 1.
    rewrite first_rejection_None
      by (apply Forall_app; split; [done|by constructor]).
    rewrite existsb_is_stuck_false
      by (apply Forall_app; split; [done|by constructor]).
    rewrite all_fulfilled_suspended. cbn [run_sched step].
    rewrite (step_at_here _ s s1 done (Atom f) q rest) by exact Hf.
    exact Hsched.
Qed.

Section Batch.

Context {V : Type}.
Variables (π : nat → W → V) (h : state) (this : addr) (o : obj)
          (xs : list value) (w0 : W).
Hypothesis Hthis : nodes h !! this = Some o.
Hypothesis Hind : independent π o xs.

Local Abbreviation cyc := (cycle_result o w0) (only parsing).

(** The cycle of the item at [i], started in a world that shows at [i]
    what [w0] shows. *)
Lemma item_ends i x :
  xs !! i = Some x →
  ends_call h (π i) (λ c _, c = cyc x) (π i w0) (AsyncNode_exec this x).
Proof.
  intros Hx. destruct (Hind i x Hx) as (Hex & Hfb & _).
  pose proof (ends_AsyncNode_exec h this o Hthis (π i) x w0 Hex Hfb) as H.
  intros w Hw. specialize (H w Hw).
  destruct (AsyncNode_exec this x (with_world w h)) as [s' p'].
  destruct H as [Hs Hp]. split; [done|].
  eapply ends_mono; [|exact Hp]. by intros c v [-> _].
Qed.

Lemma item_spares i x j :
  xs !! i = Some x → j ≠ i → (j < length xs)%nat →
  call_spares h (π j) (AsyncNode_exec this x).
Proof.
  intros Hx Hj Hlt. destruct (Hind i x Hx) as (_ & _ & Hsp).
  destruct (Hsp j Hj Hlt) as [Hex Hfb].
  by apply (call_spares_AsyncNode_exec h this o Hthis).
Qed.

(** *** The sequential loop *)

Lemma seq_settles : ∀ rest pre acc w,
  xs = pre ++ rest →
  (∀ j, (length pre ≤ j < length xs)%nat → π j w = π j w0) →
  ∃ w', settles_call (abatch_items this rest acc) (with_world w h)
          (seq_result cyc rest acc) (with_world w' h).
Proof.
  induction rest as [|x rest IH]; intros pre acc w Hxs Hw.
  - exists w. apply settles_call_finish.
  - assert (Hx : xs !! length pre = Some x)
      by (rewrite Hxs; by apply list_lookup_middle).
    assert (Hlt : (length pre < length xs)%nat)
      by (by eapply lookup_lt_Some).
    destruct (ends_call_settles h (π (length pre)) _ _ _ w
                (item_ends _ x Hx) (Hw (length pre) ltac:(lia)))
      as (c & w1 & Hset & Hc).
    assert (Hw1 : ∀ j, (length (pre ++ [x]) ≤ j < length xs)%nat →
              π j w1 = π j w0).
    { intros j Hj. rewrite length_app in Hj. simpl in Hj.
      destruct (call_spares_settles h (π j) _ w c _ Hset)
        as (w' & Hw' & Hv).
      - apply (item_spares (length pre) x j); [done|lia|lia].
      - assert (w' = w1) as -> by (by injection Hw').
        rewrite Hv. apply Hw. lia. }
    cbn [abatch_items seq_result]. rewrite <- Hc.
    destruct c as [r|e].
    + destruct (IH (pre ++ [x]) (acc ++ [r]) w1) as [w' Hrest];
        [by rewrite <- app_assoc|exact Hw1|].
      exists w'. eapply settles_call_abind; [exact Hset|exact Hrest].
    + exists w1. by apply settles_call_abind_Throw.
Qed.

(** *** The pool of [Promise.all] *)

Local Abbreviation ok := (pool_ok h π o xs w0) (only parsing).

Lemma pool_ok_launch : ∀ rest pre w s' ps,
  xs = pre ++ rest →
  (∀ j, (length pre ≤ j < length xs)%nat → π j w = π j w0) →
  launch (AsyncNode_exec this <$> rest) (with_world w h) = (s', ps) →
  ∃ w', s' = with_world w' h ∧
        (∀ j, (j < length pre)%nat → π j w' = π j w) ∧
        ∀ i p, ps !! i = Some p →
          ∃ x, xs !! (length pre + i)%nat = Some x ∧
               ends h (π (length pre + i)%nat) (λ c _, c = cyc x)
                    (π (length pre + i)%nat w') p ∧
               ∀ j, j ≠ (length pre + i)%nat → (j < length xs)%nat →
                    task_spares h (π j) p.
Proof.
  induction rest as [|x rest IH]; intros pre w s' ps Hxs Hw Hl.
  - injection Hl as <- <-. exists w. split; [done|]. split; [done|].
    intros i p Hp. done.
  - assert (Hx : xs !! length pre = Some x)
      by (rewrite Hxs; by apply list_lookup_middle).
    assert (Hlt : (length pre < length xs)%nat)
      by (by eapply lookup_lt_Some).
    rewrite fmap_cons in Hl. cbn [launch] in Hl.
    pose proof (item_ends _ x Hx w (Hw (length pre) ltac:(lia))) as He.
    assert (Hsp : ∀ j, j ≠ length pre → (j < length xs)%nat →
              match AsyncNode_exec this x (with_world w h) with
              | (s1, p1) => π j (world s1) = π j w ∧ task_spares h (π j) p1
              end).
    { intros j Hj Hjlt.
      pose proof (item_spares _ x j Hx Hj Hjlt w) as H.
      destruct (AsyncNode_exec this x (with_world w h)) as [s1 p1].
      by destruct H as (_ & ? & ?). }
    destruct (AsyncNode_exec this x (with_world w h)) as [s1 p1].
    destruct He as [Hs1 Hp1].
    destruct (launch (AsyncNode_exec this <$> rest) s1) as [s2 ps2] eqn:El.
    injection Hl as <- <-. rewrite Hs1 in El.
    destruct (IH (pre ++ [x]) (world s1) s2 ps2) as (w' & Hs2 & Hpre & Hps);
      [by rewrite <- app_assoc| |exact El|].
    { intros j Hj. rewrite length_app in Hj. simpl in Hj.
      destruct (Hsp j) as [Hv _]; [lia|lia|]. rewrite Hv. apply Hw. lia. }
    rewrite length_app in Hpre, Hps. simpl in Hpre, Hps.
    exists w'. split; [done|]. split.
    { intros j Hj. rewrite Hpre by lia. destruct (Hsp j) as [Hv _]; [lia|lia|].
      exact Hv. }
    intros [|i] p Hp; simpl in Hp.
    + injection Hp as <-. exists x. rewrite Nat.add_0_r.
      split; [done|]. split.
      * rewrite Hpre by lia. exact Hp1.
      * intros j Hj Hjlt. by destruct (Hsp j Hj Hjlt).
    + replace (length pre + S i)%nat with (length pre + 1 + i)%nat by lia.
      by apply Hps.
Qed.

Lemma pool_ok_launched s' ps :
  launch (AsyncNode_exec this <$> xs) (with_world w0 h) = (s', ps) →
  ∃ w', s' = with_world w' h ∧ ok w' ps.
Proof.
  intros Hl.
  destruct (pool_ok_launch xs [] w0 s' ps eq_refl (λ _ _, eq_refl) Hl)
    as (w' & Hs & _ & Hps).
  exists w'. split; [done|]. intros i p Hp.
  destruct (Hps i p Hp) as (x & Hx & He & Hsp). by exists x.
Qed.

Lemma pool_ok_lt w ps i p :
  ok w ps → ps !! i = Some p → (i < length xs)%nat.
Proof.
  intros Hok Hp. destruct (Hok i p Hp) as (x & Hx & _).
  by eapply lookup_lt_Some.
Qed.

(** Resuming a task of the pool, whichever it is, keeps the pool as
    [pool_ok] says. *)
Lemma pool_ok_step_at w ps ch i s' ps' :
  ok w ps →
  step_at (λ q, step q ch (with_world w h)) (with_world w h) ps i
  = (s', ps') →
  ∃ w', s' = with_world w' h ∧ ok w' ps'.
Proof.
  intros Hok. rewrite step_at_spec.
  destruct (ps !! i) as [q|] eqn:Hq; [|intros [= <- <-]; by exists w].
  destruct (Hok i q Hq) as (x & Hx & He & Hsp).
  assert (Hi : (i < length xs)%nat) by (by eapply lookup_lt_Some).
  pose proof (ends_step h (π i) q _ _ w ch He eq_refl) as Hstep.
  assert (Hothers : ∀ j, j ≠ i → (j < length xs)%nat →
            match step q ch (with_world w h) with
            | (s1, p1) => π j (world s1) = π j w ∧ task_spares h (π j) p1
            end).
  { intros j Hj Hjlt.
    pose proof (task_spares_step h (π j) q w ch (Hsp j Hj Hjlt)) as H.
    destruct (step q ch (with_world w h)) as [s1 p1].
    by destruct H as (_ & ? & ?). }
  destruct (step q ch (with_world w h)) as [s1 p1]. simpl.
  destruct Hstep as [Hs1 Hp1]. intros [= <- <-].
  exists (world s1). split; [done|].
  intros j p Hp. destruct (decide (j = i)) as [->|Hne].
  - rewrite list_lookup_insert_eq in Hp by (by eapply lookup_lt_Some).
    injection Hp as <-. exists x. split; [done|]. split; [done|].
    intros j Hj Hjlt. by destruct (Hothers j Hj Hjlt).
  - rewrite list_lookup_insert_ne in Hp by done.
    destruct (Hok j p Hp) as (y & Hy & Hey & Hspy).
    exists y. split; [done|]. split; [|done].
    destruct (Hothers j Hne) as [Hv _]; [by eapply lookup_lt_Some|].
    by rewrite Hv.
Qed.

Lemma pool_ok_run sched : ∀ w ps s' ps',
  ok w ps → pool_run sched ps (with_world w h) = (s', ps') →
  ∃ w', s' = with_world w' h ∧ ok w' ps'.
Proof.
  induction sched as [|[|i ch] sched IH]; intros w ps s' ps' Hok; simpl.
  - intros [= <- <-]. by exists w.
  - by apply IH.
  - destruct (step_at _ (with_world w h) ps i) as [s1 ps1] eqn:E.
    destruct (pool_ok_step_at _ _ _ _ _ _ Hok E) as (w1 & -> & Hok1).
    by apply IH.
Qed.

(** A task of the pool that is settled is settled as the cycle of its
    item is, run alone from [w0]. *)
Lemma pool_ok_outcome w ps i p c :
  ok w ps → ps !! i = Some p → outcome_of p = Some c →
  ∃ x, xs !! i = Some x ∧ c = cyc x.
Proof.
  intros Hok Hp Hc. destruct (Hok i p Hp) as (x & Hx & He & _).
  exists x. split; [done|]. exact (ends_outcome h _ _ _ _ _ He Hc).
Qed.

Lemma pool_ok_not_stuck w ps : ok w ps → existsb is_stuck ps = false.
Proof.
  intros Hok. destruct (existsb is_stuck ps) eqn:E; [|done].
  apply existsb_exists in E as (p & Hin & Hp).
  apply list_elem_of_In, list_elem_of_lookup in Hin as [i Hi].
  destruct (Hok i p Hi) as (x & _ & He & _).
  rewrite (ends_not_stuck h _ _ _ _ He) in Hp. done.
Qed.

Lemma pool_ok_fulfilled w ps vs :
  ok w ps → length ps = length xs → all_fulfilled ps = Some vs →
  Forall2 (λ x v, cyc x = Return v) xs vs.
Proof.
  intros Hok Hlen Hvs.
  apply Forall2_same_length_lookup_2.
  { by rewrite (all_fulfilled_length _ _ Hvs), Hlen. }
  intros i x v Hx Hv.
  pose proof (all_fulfilled_lookup _ _ Hvs i) as Hi. rewrite Hv in Hi.
  destruct (ps !! i) as [p|] eqn:Hp; [|done]. simpl in Hi.
  injection Hi as Hi. unfold fulfilment in Hi.
  destruct (outcome_of p) as [[r|e]|] eqn:Ho; try done.
  injection Hi as ->.
  destruct (pool_ok_outcome _ _ _ _ _ Hok Hp Ho) as (y & Hy & Hc).
  congruence.
Qed.

Lemma pool_ok_rejection w ps e :
  ok w ps → first_rejection ps = Some e →
  ∃ x, x ∈ xs ∧ cyc x = Throw e.
Proof.
  intros Hok Hr.
  destruct (first_rejection_lookup _ _ Hr) as (i & p & Hp & Hrej).
  unfold rejection in Hrej.
  destruct (outcome_of p) as [[r|e']|] eqn:Ho; try done.
  injection Hrej as ->.
  destruct (pool_ok_outcome _ _ _ _ _ Hok Hp Ho) as (x & Hx & Hc).
  exists x. split; [by eapply list_elem_of_lookup_2|done].
Qed.

(** How the awaited [Promise.all] of the pool can be settled. *)
Lemma pool_ok_par_outcome w ps sched s' P' c :
  ok w ps → length ps = length xs →
  run_sched sched (par ps collect) (with_world w h) = (s', P') →
  outcome_of P' = Some c →
  (∃ vs, c = Return (VArr vs) ∧ Forall2 (λ x v, cyc x = Return v) xs vs) ∨
  (∃ e e' x, c = Throw e' ∧ x ∈ xs ∧ cyc x = Throw e).
Proof.
  intros Hok Hlen Hrun Hout.
  destruct (par_run_cases _ _ _ _ _ _ Hrun)
    as [(ps' & -> & Hp)|[->|[(sched1 & sched2 & s1 & ps1 & e & -> & Hp & He & Hr)
                            |(sched1 & sched2 & s1 & ps1 & vs & -> & Hp & Hv & Hr)]]];
    [done|done| |].
  - destruct (pool_ok_run _ _ _ _ _ Hok Hp) as (w1 & -> & Hok1).
    destruct (pool_ok_rejection _ _ _ Hok1 He) as (x & Hx & Hc).
    right. destruct c as [v|e'].
    + exfalso.
      eapply (rejected_never_returns e sched2 _ ps1 (with_world w1 h));
        [by left|].
      unfold collect in Hr. rewrite Hr. exact Hout.
    + by exists e, e', x.
  - destruct (pool_ok_run _ _ _ _ _ Hok Hp) as (w1 & -> & Hok1).
    left. exists vs. split.
    + by apply (run_collect _ _ _ _ _ _ Hr Hout).
    + eapply pool_ok_fulfilled; [exact Hok1| |exact Hv].
      pose proof (pool_run_length sched1 ps (with_world w h)) as Hl.
      rewrite Hp in Hl. simpl in Hl. congruence.
Qed.

(** *** A schedule under which [Promise.all] is fulfilled *)

Local Abbreviation returns :=
  (Forall (λ x, ∃ v, cyc x = Return v) xs) (only parsing).

Lemma pool_ok_calm w ps :
  ok w ps → returns →
  Forall (λ p, rejection p = None) ps ∧
  Forall (λ p, is_stuck p = false) ps.
Proof.
  intros Hok Hret. split; apply Forall_lookup_2; intros i p Hp.
  - unfold rejection. destruct (outcome_of p) as [[r|e]|] eqn:Ho; try done.
    destruct (pool_ok_outcome _ _ _ _ _ Hok Hp Ho) as (x & Hx & Hc).
    rewrite Forall_forall in Hret.
    destruct (Hret x) as [v Hv]; [by eapply list_elem_of_lookup_2|].
    congruence.
  - destruct (Hok i p Hp) as (x & _ & He & _).
    exact (ends_not_stuck h _ _ _ _ He).
Qed.

Lemma pool_completes : ∀ rest done w,
  ok w (done ++ rest) → returns →
  ∃ sched w' fin,
    run_sched sched (par (done ++ rest) collect) (with_world w h)
    = (with_world w' h, par (done ++ fin) collect) ∧
    ok w' (done ++ fin) ∧
    Forall (λ p, ∃ c, p = Fin c) fin ∧ length fin = length rest.
Proof.
  induction rest as [|q rest IH]; intros done w Hok Hret.
  - exists [], w, []. by repeat split.
  - assert (Hq : (done ++ q :: rest) !! length done = Some q)
      by (by apply list_lookup_middle).
    destruct (Hok _ _ Hq) as (x & Hx & He & Hsp).
    destruct (ends_settles h _ q _ _ w He eq_refl) as (c & w1 & Hset & Hc).
    destruct (pool_ok_calm _ _ Hok Hret) as [Hr Hs].
    destruct (pool_task_completes collect q _ _ _ Hset done rest)
      as [sched1 H1].
    { apply Forall_app in Hr as [? Hr]. apply Forall_cons in Hr as [_ ?].
      by apply Forall_app. }
    { apply Forall_app in Hs as [? Hs]. apply Forall_cons in Hs as [_ ?].
      by apply Forall_app. }
    assert (Hok1 : ok w1 ((done ++ [Fin c]) ++ rest)).
    { rewrite <- app_assoc. simpl. intros j p Hp.
      destruct (decide (j = length done)) as [->|Hne].
      - rewrite list_lookup_middle in Hp by done. injection Hp as <-.
        exists x. by repeat split.
      - assert (Hp' : (done ++ q :: rest) !! j = Some p).
        { destruct (decide (j < length done)%nat).
          - rewrite lookup_app_l in Hp |- * by done. done.
          - rewrite lookup_app_r in Hp |- * by lia.
            destruct (j - length done)%nat as [|m] eqn:E; [lia|done]. }
        destruct (Hok j p Hp') as (y & Hy & Hey & Hspy).
        exists y. split; [done|]. split; [|done].
        destruct (task_spares_settles h (π j) q _ _ _ Hset w eq_refl)
          as (w' & Hw' & Hv).
        { apply Hsp; [done|by eapply lookup_lt_Some]. }
        assert (w' = w1) as -> by (by injection Hw').
        by rewrite Hv. }
    destruct (IH (done ++ [Fin c]) w1 Hok1 Hret)
      as (sched2 & w' & fin & H2 & Hok2 & Hfin & Hlen).
    exists (sched1 ++ sched2), w', (Fin c :: fin).
    rewrite run_sched_app, H1.
    rewrite <- (app_assoc done [Fin c] rest),
      <- (app_assoc done [Fin c] fin) in H2.
    rewrite <- (app_assoc done [Fin c] fin) in Hok2.
    split; [exact H2|]. split; [exact Hok2|].
    split; [constructor; [by exists c|done]|]. simpl. by rewrite Hlen.
Qed.

Lemma all_fulfilled_finished (ps : list (proc value)) :
  Forall (λ p, ∃ v, p = Fin (Return v)) ps →
  ∃ vs, all_fulfilled ps = Some vs.
Proof.
  induction 1 as [|p ps [v ->] _ [vs IH]]; [by exists []|].
  exists (v :: vs). simpl. by rewrite IH.
Qed.

(** When the cycle of every item returns, some schedule fulfils the
    parallel wrapped execute with their results in input order. *)
Lemma par_completes w ps vs :
  ok w ps → length ps = length xs →
  Forall2 (λ x v, cyc x = Return v) xs vs →
  ∃ sched w',
    run_sched sched (par ps collect) (with_world w h)
    = (with_world w' h, Fin (Return (VArr vs))).
Proof.
  intros Hok Hlen Hvs.
  assert (Hret : returns).
  { clear -Hvs. induction Hvs; constructor; eauto. }
  destruct (pool_completes ps [] w Hok Hret)
    as (sched & w' & fin & Hrun & Hok' & Hfin & Hlen').
  simpl in Hrun, Hok'.
  assert (Hall : Forall (λ p, ∃ v, p = Fin (Return v)) fin).
  { apply Forall_lookup_2. intros i p Hp.
    destruct (Forall_lookup_1 _ _ _ _ Hfin Hp) as [c ->].
    destruct (pool_ok_outcome _ _ _ _ c Hok' Hp eq_refl) as (x & Hx & Hc).
    rewrite Forall_forall in Hret.
    destruct (Hret x) as [v Hv]; [by eapply list_elem_of_lookup_2|].
    exists v. congruence. }
  destruct (all_fulfilled_finished _ Hall) as [vs' Hvs'].
  assert (vs' = vs) as ->.
  { pose proof (pool_ok_fulfilled _ _ _ Hok' ltac:(lia) Hvs') as H.
    clear -H Hvs. revert vs' H.
    induction Hvs as [|x v xs' vs Hx _ IH]; intros vs' H; inversion H; subst.
    - done.
    - f_equal; [congruence|by apply IH]. }
  destruct (pool_ok_calm _ _ Hok' Hret) as [Hr Hs].
  assert (Hpar : par fin collect = collect (Return vs)).
  { unfold par. by rewrite first_rejection_None, existsb_is_stuck_false, Hvs'. }
  exists (sched ++ [[]]), w'.
  rewrite run_sched_app, Hrun, Hpar. reflexivity.
Qed.

End Batch.
(** Whenever the parallel wrapped execute returns, each element of its
    result is what the task at the same position was fulfilled with, and
    the task at position [i] is the cycle launched for the item at
    [i]. *)
Lemma parallel_exec_positions this xs s sched st' P' v :
  run_sched sched (snd (AsyncParallelBatchNode_exec this (VArr xs) s))
            (fst (AsyncParallelBatchNode_exec this (VArr xs) s))
    = (st', P') →
  outcome_of P' = Some (Return v) →
  ∃ s0 tasks sched1 sched2 s1 tasks1 rs,
    launch (AsyncNode_exec this <$> xs) s = (s0, tasks) ∧
    Forall2 (λ x p, ∃ si, p = snd (AsyncNode_exec this x si)) xs tasks ∧
    sched = sched1 ++ sched2 ∧
    pool_run sched1 tasks s0 = (s1, tasks1) ∧
    v = VArr rs ∧ length rs = length xs ∧
    ∀ i, fulfilment <$> tasks1 !! i = Some <$> rs !! i.
Proof.
  unfold AsyncParallelBatchNode_exec.
  pose proof (launch_length (AsyncNode_exec this <$> xs) s) as Hl.
  pose proof (launch_tasks (AsyncNode_exec this) xs s) as Ht.
  destruct (launch _ s) as [s0 tasks]. simpl in Hl, Ht.
  rewrite length_fmap in Hl. simpl. intros Hrun Hout.
  destruct (par_run_cases _ _ _ _ _ _ Hrun)
    as [(ps' & -> & Hp)|[->|[(sched1 & sched2 & s1 & ps1 & e & -> & Hp & He & Hr)
                            |(sched1 & sched2 & s1 & ps1 & vs & -> & Hp & Hv & Hr)]]];
    [done|done| |].
  - exfalso.
    eapply (rejected_never_returns e sched2 _ ps1 s1); [by left|].
    unfold collect in Hr. rewrite Hr. exact Hout.
  - exists s0, tasks, sched1, sched2, s1, ps1, vs.
    split; [done|]. split; [done|]. split; [done|]. split; [done|].
    pose proof (run_collect _ _ _ _ _ _ Hr Hout) as Hc. simpl in Hc.
    split; [congruence|]. split.
    + rewrite (all_fulfilled_length _ _ Hv).
      pose proof (pool_run_length sched1 tasks s0) as Hpl.
      rewrite Hp in Hpl. simpl in Hpl. congruence.
    + by apply all_fulfilled_lookup.
Qed.

Lemma Forall2_returns (f : value → completion value) xs vs x :
  Forall2 (λ x r, f x = Return r) xs vs → x ∈ xs → ∃ v, f x = Return v.
Proof.
  induction 1 as [|y v xs' vs Hy _ IH]; intros Hx.
  - by apply elem_of_nil in Hx.
  - apply elem_of_cons in Hx as [->|Hx]; [by exists v|by apply IH].
Qed.

(** C8 as amended.  Positions are kept whatever the callbacks do: when
    the parallel wrapped execute returns, under whatever schedule, its
    result has one element for each item, and the element at position [i]
    is what the task at position [i] was fulfilled with, which is the
    cycle launched for the item at [i].  The values are those of the
    sequential wrapped execute when the cycles do not interfere: for
    every family [π] that shows, for each position, all that the
    callbacks read there and nothing the callbacks write elsewhere
    (they may share a log, and keep state of their own between the
    attempts), under any two schedules under which the sequential and
    the parallel wrapped execute settle, one returns a result sequence
    exactly when the other returns the same one, which holds at each
    position what the cycle of the item returns when it is run alone,
    retries and fallback included; and both do settle: the sequential one
    under any long enough schedule, the parallel one, whenever every
    cycle returns, under some schedule. *)
Theorem parallel_batch_matches_sequential_when_independent
    (this : addr) (o : obj) (xs : list value) (s : state) :
  nodes s !! this = Some o →
  (∀ sched st' P' v,
     run_sched sched (snd (AsyncParallelBatchNode_exec this (VArr xs) s))
               (fst (AsyncParallelBatchNode_exec this (VArr xs) s))
       = (st', P') →
     outcome_of P' = Some (Return v) →
     ∃ s0 tasks sched1 sched2 s1 tasks1 rs,
       launch (AsyncNode_exec this <$> xs) s = (s0, tasks) ∧
       Forall2 (λ x p, ∃ si, p = snd (AsyncNode_exec this x si)) xs tasks ∧
       sched = sched1 ++ sched2 ∧
       pool_run sched1 tasks s0 = (s1, tasks1) ∧
       v = VArr rs ∧ length rs = length xs ∧
       ∀ i, fulfilment <$> tasks1 !! i = Some <$> rs !! i) ∧
  (∀ x, settles_call (AsyncNode_exec this x) s
          (cycle_result o (world s) x)
          (with_world
             (snd (cycle_alone o x (Z.to_nat (maxRetries o)) 0 (world s)))
             s)) ∧
  (∀ (V : Type) (π : nat → W → V),
     independent π o xs →
     (∀ sched1 sched2 c1 c2,
        outcome_of
          (snd (run_sched sched1
                  (snd (AsyncBatchNode_exec this (VArr xs) s))
                  (fst (AsyncBatchNode_exec this (VArr xs) s))))
        = Some c1 →
        outcome_of
          (snd (run_sched sched2
                  (snd (AsyncParallelBatchNode_exec this (VArr xs) s))
                  (fst (AsyncParallelBatchNode_exec this (VArr xs) s))))
        = Some c2 →
        (∀ v, c1 = Return v ↔ c2 = Return v) ∧
        (∀ v, c1 = Return v →
           ∃ vs, v = VArr vs ∧ length vs = length xs ∧
                 Forall2 (λ x r, cycle_result o (world s) x = Return r)
                         xs vs)) ∧
     (∃ n s', ∀ ch,
        run_sched (replicate n ch)
          (snd (AsyncBatchNode_exec this (VArr xs) s))
          (fst (AsyncBatchNode_exec this (VArr xs) s))
        = (s', Fin (seq_result (cycle_result o (world s)) xs []))) ∧
     (∀ vs,
        Forall2 (λ x r, cycle_result o (world s) x = Return r) xs vs →
        ∃ sched s',
          run_sched sched
            (snd (AsyncParallelBatchNode_exec this (VArr xs) s))
            (fst (AsyncParallelBatchNode_exec this (VArr xs) s))
          = (s', Fin (Return (VArr vs))))).
Proof.
  intros Ho. split; [|split].
  { intros. by eapply parallel_exec_positions. }
  { intros x. by apply settles_cycle_alone. }
  intros V π Hind.
  destruct (seq_settles π s this o xs (world s) Ho Hind xs [] [] (world s)
              eq_refl (λ _ _, eq_refl)) as [w1 Hseq].
  rewrite with_world_same in Hseq.
  change (abatch_items this xs []) with (AsyncBatchNode_exec this (VArr xs))
    in Hseq.
  assert (Hpar : ∃ w2 ps,
            AsyncParallelBatchNode_exec this (VArr xs) s
            = (with_world w2 s, par ps collect) ∧
            pool_ok s π o xs (world s) w2 ps ∧ length ps = length xs).
  { unfold AsyncParallelBatchNode_exec.
    pose proof (launch_length (AsyncNode_exec this <$> xs) s) as Hl.
    destruct (launch (AsyncNode_exec this <$> xs) s) as [s2 ps] eqn:El.
    simpl in Hl. rewrite length_fmap in Hl.
    rewrite <- (with_world_same s) in El at 1.
    destruct (pool_ok_launched π s this o xs (world s) Ho Hind _ _ El)
      as (w2 & -> & Hok).
    by exists w2, ps. }
  destruct Hpar as (w2 & ps & Epar & Hok & Hlen). rewrite Epar.
  cbn [fst snd].
  split; [|split].
  - intros sched1 sched2 c1 c2 H1 H2.
    apply (settles_outcome _ _ _ _ Hseq) in H1. subst c1.
    destruct (run_sched sched2 (par ps collect) (with_world w2 s))
      as [s' P'] eqn:Erun.
    simpl in H2.
    destruct (pool_ok_par_outcome π s o xs (world s) w2 ps sched2 s' P'
                c2 Hok Hlen Erun H2)
      as [(vs & -> & Hvs)|(e & e' & x & -> & Hx & Hc)].
    + assert (Hs : seq_result (cycle_result o (world s)) xs []
                   = Return (VArr vs))
        by (apply seq_result_Return; by exists vs).
      rewrite Hs. split; [done|].
      intros v [= <-]. exists vs. split; [done|]. split; [|done].
      symmetry. by eapply Forall2_length.
    + split.
      * intros v. split; [|done]. intros Hs.
        apply seq_result_Return in Hs as (vs & _ & Hvs).
        destruct (Forall2_returns _ _ _ _ Hvs Hx) as [r Hr].
        congruence.
      * intros v Hs.
        apply seq_result_Return in Hs as (vs & _ & Hvs).
        destruct (Forall2_returns _ _ _ _ Hvs Hx) as [r Hr].
        congruence.
  - destruct (settles_call_run _ _ _ _ Hseq) as [n Hn].
    by exists n, (with_world w1 s).
  - intros vs Hvs.
    destruct (par_completes π s o xs (world s) w2 ps vs Hok Hlen Hvs)
      as (sched & w' & Hrun).
    by exists sched, (with_world w' s).
Qed.

End Properties.

(** * The properties on the example graphs *)

Module Instances.

Import Examples.

(** ** Retry *)

(** Three attempts allowed, the third succeeds: it sees [curRetry = 2], and
    the fallback has logged nothing. *)
Lemma retry_succeeds_without_fallback_witness :
  Node_exec 0%nat VUndefined (retry_state 2 3)
  = Some (Return (VNum 2),
          at_retry 0%nat (retry_node 2 3) 2
            (3, ["exec failed"; "exec failed"; "exec returned"])
            (retry_state 2 3)) ∧
  curRetry <$>
    nodes (at_retry 0%nat (retry_node 2 3) 2
             (3, ["exec failed"; "exec failed"; "exec returned"])
             (retry_state 2 3)) !! 0%nat = Some 2 ∧
  ∀ fuel shared s0,
    cls (retry_node 2 3) = CNode →
    call_prep 0%nat shared s0 = Some (Return VUndefined, retry_state 2 3) →
    run (S fuel) 0%nat shared s0
    = call_post 0%nat shared VUndefined (VNum 2)
        (at_retry 0%nat (retry_node 2 3) 2
           (3, ["exec failed"; "exec failed"; "exec returned"])
           (retry_state 2 3)).
Proof.
  apply (retry_succeeds_without_fallback 0%nat (retry_node 2 3)
           (flaky_exec 2) VUndefined (VNum 2) 3
           [VError "attempt 1"; VError "attempt 2"]
           (2, ["exec failed"; "exec failed"])
           (3, ["exec failed"; "exec failed"; "exec returned"])
           (retry_state 2 3)).
  - reflexivity.
  - reflexivity.
  - reflexivity.
  - lia.
  - vm_compute. reflexivity.
  - vm_compute. reflexivity.
Defined.

(** Two attempts allowed, both fail: one call of the fallback, on the
    error of the second attempt. *)
Lemma retry_exhausted_calls_fallback_once_witness :
  Node_exec 0%nat VUndefined (retry_state 5 2)
  = Some (Return (VError "attempt 2"),
          at_retry 0%nat (retry_node 5 2) 1
            (2, ["exec failed"; "exec failed"; "fallback"])
            (retry_state 5 2)).
Proof.
  destruct (retry_exhausted_calls_fallback_once 0%nat (retry_node 5 2)
              (flaky_exec 5) VUndefined (VError "attempt 2") 2
              [VError "attempt 1"; VError "attempt 2"]
              (2, ["exec failed"; "exec failed"])
              (retry_state 5 2)) as (_ & H & _).
  - reflexivity.
  - reflexivity.
  - reflexivity.
  - lia.
  - vm_compute. reflexivity.
  - reflexivity.
  - exact (H logged_fallback eq_refl).
Defined.

(** No attempt allowed: nothing is logged, the counter does not move. *)
Lemma zero_retries_returns_undefined_witness :
  Node_exec 0%nat VUndefined (retry_state 0 0)
  = Some (Return VUndefined,
          at_retry 0%nat (retry_node 0 0) 0 (0, []) (retry_state 0 0)) ∧
  ∀ fuel shared s0,
    cls (retry_node 0 0) = CNode →
    call_prep 0%nat shared s0 = Some (Return VUndefined, retry_state 0 0) →
    run (S fuel) 0%nat shared s0
    = call_post 0%nat shared VUndefined VUndefined
        (at_retry 0%nat (retry_node 0 0) 0 (0, []) (retry_state 0 0)).
Proof.
  apply (zero_retries_returns_undefined 0%nat (retry_node 0 0) VUndefined
           (retry_state 0 0)).
  - reflexivity.
  - reflexivity.
Defined.

(** ** Batched task *)

Lemma batch_exec_maps_items_in_order_witness :
  BatchNode_exec 0%nat (VArr [VStr "a"; VStr "b"]) flaky_batch_state
  = Some (Return (VArr [VError "attempt 2"; VNum 1]),
          at_retry 0%nat flaky_batch 1
            (4, ["exec failed"; "exec failed"; "fallback";
                 "exec failed"; "exec returned"])
            flaky_batch_state) ∧
  served_in_order flaky_batch [VStr "a"; VStr "b"] (0, [])
    [VError "attempt 2"; VNum 1]
    (4, ["exec failed"; "exec failed"; "fallback";
         "exec failed"; "exec returned"]).
Proof.
  assert (H : BatchNode_exec 0%nat (VArr [VStr "a"; VStr "b"])
                flaky_batch_state
              = Some (Return (VArr [VError "attempt 2"; VNum 1]),
                      at_retry 0%nat flaky_batch 1
                        (4, ["exec failed"; "exec failed"; "fallback";
                             "exec failed"; "exec returned"])
                        flaky_batch_state))
    by (vm_compute; reflexivity).
  split; [exact H|].
  destruct (batch_exec_maps_items_in_order 0%nat flaky_batch
              [VStr "a"; VStr "b"] flaky_batch_state eq_refl)
    as (_ & H2 & _).
  destruct (H2 _ _ H) as (rs & Hv & _ & Hs & _).
  injection Hv as <-. exact Hs.
Defined.

(** ** Flows *)

(** The graph [a_then_b] is what [A.next(B, "x")] builds. *)
Lemma a_then_b_wiring :
  next 0%nat 1%nat "x" (two_nodes "x" ∅) = Some (Return 1%nat, a_then_b).
Proof. reflexivity. Qed.


(** [A] returns ["other"]: the traversal ends there, [B] does not run. *)
Lemma unmatched_key_ends_traversal_witness :
  orch_loop 2 (Some (NodeRef 0%nat)) ∅ store (Some "default"%string) a_unmatched
  = Some (Return (Some "other"%string), a_unmatched_done).
Proof.
  apply (unmatched_key_ends_traversal 1 0%nat ∅ store (Some "default"%string)
           (Some "other"%string)
           (node CNode (logging "A" "other") 0%nat 1 None)
           {[ "x"%string := 1%nat ]} a_unmatched a_unmatched_done).
  - reflexivity.
  - reflexivity.
  - vm_compute. reflexivity.
  - reflexivity.
  - vm_compute. intros H. by repeat (apply elem_of_cons in H as [H|H]; [done|]);
      apply elem_of_nil in H.
Defined.

(** [A] returns the empty label, which has no entry in its table: the
    lookup is made under ["default"], [B] runs, and the traversal returns
    the label of [B], not the empty one. *)
Lemma empty_label_follows_default :
  (∃ oA t,
     nodes a_empty_label !! 0%nat = Some oA ∧
     tables a_empty_label !! successors oA = Some t ∧
     t !! ""%string = None ∧
     _run 1 0%nat store (bound 0%nat ∅ oA a_empty_label)
     = Some (Return (Some ""%string),
             mkState (nodes a_empty_label) (tables a_empty_label)
                     (0, ["A.prep"; "A.exec"; "A.post"]))) ∧
  (∃ s', orch_loop 3 (Some (NodeRef 0%nat)) ∅ store (Some "default"%string)
           a_empty_label
         = Some (Return (Some "done"%string), s') ∧
         world s'
         = (0, ["A.prep"; "A.exec"; "A.post"; "B.prep"; "B.exec"; "B.post"])) ∧
  ¬ (∃ s', orch_loop 3 (Some (NodeRef 0%nat)) ∅ store (Some "default"%string)
             a_empty_label
           = Some (Return (Some ""%string), s')).
Proof.
  split; [|split].
  - eexists _, _. repeat split; reflexivity.
  - eexists. split; [vm_compute; reflexivity|reflexivity].
  - intros [s' H]. vm_compute in H. discriminate.
Defined.

(** ** Batch flow *)

Lemma parallel_translations_all_sync : all_sync parallel_translations.
Proof.
  intros a o Ha.
  destruct a as [|[|a]]; simpl in Ha; [| |done];
    injection Ha as <-; reflexivity.
Defined.

(** Two parameter sets, two traversals in order, each bound to its own
    language, which wins over the flow's ["en"]; the parallel flow runs
    them when it launches them, between its [prepAsync] and its
    [postAsync]. *)
Lemma batch_flow_runs_one_traversal_per_parameter_set_witness :
  run 4 1%nat store translations = Some (Return None, translated) ∧
  launch (traversal_call 3 1%nat store <$> languages)
         (with_world (0, ["prepAsync"]) parallel_translations)
  = (parallel_launched,
     [Fin (Return (Some "default"%string));
      Fin (Return (Some "default"%string))]) ∧
  ∃ n, ∀ ch,
    run_sched (replicate n ch)
      (snd (runAsync 3 1%nat store parallel_translations))
      (fst (runAsync 3 1%nat store parallel_translations))
    = (parallel_translated, Fin (Return (Some "joined"%string))).
Proof.
  destruct (batch_flow_runs_one_traversal_per_parameter_set 3 1%nat store
              batch_flow languages translations translations)
    as (Hseq & _ & _ & _ & _ & _ & _ & Hpar).
  - reflexivity.
  - reflexivity.
  - reflexivity.
  - split.
    + rewrite (Hseq translated); [reflexivity|].
      econstructor; [vm_compute; reflexivity|].
      econstructor; [vm_compute; reflexivity|].
      constructor.
    + destruct (Hpar 3%nat 1%nat parallel_batch_flow parallel_translations
                  (0, ["prepAsync"]) parallel_launched)
        as [_ [n Hn]].
      * reflexivity.
      * reflexivity.
      * exact parallel_translations_all_sync.
      * reflexivity.
      * econstructor; [vm_compute; reflexivity|].
        econstructor; [vm_compute; reflexivity|].
        constructor.
      * split; [vm_compute; reflexivity|].
        exists n. intros ch. exact (Hn ch).
Defined.

(** ** Isolation *)

Lemma loop_graph_wf : wf 2 loop_graph.
Proof.
  split; [simpl; lia|]. split.
  - intros a o b Ha Hb.
    destruct a as [|[|a]]; simpl in Ha; [| |done];
      injection Ha as <-; simpl in Hb; [done|]. injection Hb as <-. lia.
  - intros t m k b Ht Hk.
    destruct t as [|[|t]]; simpl in Ht; [| |done]; injection Ht as <-.
    + apply lookup_singleton_Some in Hk as [_ <-]. lia.
    + done.
Defined.

(** The node is visited twice: the first visit retries once and leaves
    its copy at [curRetry = 1]; the second visit starts from the node as it
    was built.  A second run of the flow behaves as the first. *)
Lemma flow_run_leaves_graph_nodes_unchanged_witness :
  ∃ s',
    run 6 1%nat store loop_graph = Some (Return (Some "stop"%string), s') ∧
    world s' = (3, ["exec sees retry 1"; "exec sees retry 0"]) ∧
    tables s' = tables loop_graph ∧
    nodes loop_graph `prefix_of` nodes s' ∧
    same_outcome (run 6 1%nat store (with_world (0, []) loop_graph))
                 (run 6 1%nat store (with_world (0, []) s')).
Proof.
  eexists. split; [vm_compute; reflexivity|]. split; [reflexivity|].
  match goal with
  | |- tables ?s' = _ ∧ _ =>
      destruct (flow_run_leaves_graph_nodes_unchanged 6 1%nat store
                  (node CFlow no_methods 1%nat 1 (Some 0%nat))
                  loop_graph s' (Return (Some "stop"%string)))
        as (_ & [Ht Hp] & _ & Hsame & _)
  end.
  - reflexivity.
  - reflexivity.
  - vm_compute. reflexivity.
  - split; [exact Ht|]. split; [exact Hp|].
    exact (Hsame loop_graph_wf 6%nat store (0, [])).
Defined.

(** ** Suspendable nodes *)

Lemma async_node_sync_run_throws_witness :
  run 1 0%nat store async_state
  = Some (Throw (VError "Use runAsync."), async_state).
Proof.
  destruct (async_node_sync_run_throws 0%nat
              (node CAsyncNode (logging "A" "x") 0%nat 1 None) async_state)
    as (H & _).
  - reflexivity.
  - reflexivity.
  - exact (H 0%nat store).
Defined.

Lemma own_lines_app t (w : Wd) l :
  own_lines t (fst w, snd w ++ [l])
  = own_lines t w ++ (if bool_decide (l = t) then [l] else []).
Proof.
  unfold own_lines. simpl. rewrite filter_app. f_equal.
  rewrite filter_cons, filter_nil. case_bool_decide as H.
  - by rewrite decide_True.
  - by rewrite decide_False.
Qed.

(** The cycles of two different items depend on their own lines of the
    log only, and add no line to those of the other item. *)
Lemma once_more_independent c :
  independent (lines_at [VStr "a"; VStr "b"]) (once_more_node c)
              [VStr "a"; VStr "b"].
Proof.
  assert (Hr : ∀ t, reads_only (own_lines t)
                      (once_more_execAsync (view_of (once_more_node c))
                         (VStr t))).
  { intros t. split; intros w1 w2 Hw; simpl; [done|].
    constructor; intros w1' w2' Hw'; simpl.
    - by rewrite !own_lines_app, Hw'.
    - rewrite Hw. constructor. }
  assert (Hs : ∀ t u, t ≠ u →
                 spares (own_lines u)
                   (once_more_execAsync (view_of (once_more_node c))
                      (VStr t))).
  { intros t u Htu w. split; [done|]. simpl. intros w'. split; [|done].
    rewrite own_lines_app. rewrite bool_decide_eq_false_2 by done.
    by rewrite app_nil_r. }
  assert (Hfr : ∀ V (π : Wd → V) x e,
                  reads_only π (fallbackAsync_of (once_more_node c) x e)).
  { intros V π x e. split; intros w1 w2 Hw; simpl; [done|constructor]. }
  assert (Hfs : ∀ V (π : Wd → V) x e,
                  spares π (fallbackAsync_of (once_more_node c) x e)).
  { intros V π x e w. by split. }
  intros i x Hx.
  destruct i as [|[|i]]; simpl in Hx; [| |done]; injection Hx as <-;
    (split; [apply Hr|]); (split; [intros e; apply Hfr|]);
    intros j Hj Hlt; simpl in Hlt;
    (destruct j as [|[|j]]; [try done|try done|lia]);
    (split; [by apply Hs|intros e; apply Hfs]).
Defined.

(** Each item is rejected once and then fulfilled, whatever the order in
    which the log receives the lines of the two items: both variants
    return the items in input order. *)
Lemma parallel_batch_matches_sequential_when_independent_witness :
  (∃ n s', ∀ ch,
     run_sched (replicate n ch)
       (snd (AsyncBatchNode_exec 0%nat two_items
               (once_more_state CAsyncBatchNode)))
       (fst (AsyncBatchNode_exec 0%nat two_items
               (once_more_state CAsyncBatchNode)))
     = (s', Fin (Return two_items))) ∧
  (∃ sched s',
     run_sched sched
       (snd (AsyncParallelBatchNode_exec 0%nat two_items
               (once_more_state CAsyncParallelBatchNode)))
       (fst (AsyncParallelBatchNode_exec 0%nat two_items
               (once_more_state CAsyncParallelBatchNode)))
     = (s', Fin (Return two_items))) ∧
  outcome_of
    (snd (run_sched [[0]; [1]; [0]; [1]; [0]; [1]; [0]; [1]; []]%nat
            (snd (AsyncParallelBatchNode_exec 0%nat two_items
                    (once_more_state CAsyncParallelBatchNode)))
            (fst (AsyncParallelBatchNode_exec 0%nat two_items
                    (once_more_state CAsyncParallelBatchNode)))))
  = Some (Return two_items).
Proof.
  split; [|split].
  - destruct (parallel_batch_matches_sequential_when_independent 0%nat
                (once_more_node CAsyncBatchNode) [VStr "a"; VStr "b"]
                (once_more_state CAsyncBatchNode) eq_refl)
      as (_ & _ & H).
    destruct (H _ _ (once_more_independent CAsyncBatchNode))
      as (_ & Hseq & _).
    exact Hseq.
  - destruct (parallel_batch_matches_sequential_when_independent 0%nat
                (once_more_node CAsyncParallelBatchNode)
                [VStr "a"; VStr "b"]
                (once_more_state CAsyncParallelBatchNode) eq_refl)
      as (_ & _ & H).
    destruct (H _ _ (once_more_independent CAsyncParallelBatchNode))
      as (_ & _ & Hpar).
    apply Hpar. repeat constructor.
  - vm_compute. reflexivity.
Defined.

(** Cycles that share a counter: run one after the other they return
    [[0, 1]]; launched together, both read the counter before either
    writes it, and they return [[0, 0]]. *)
Lemma parallel_batch_differs_from_sequential :
  outcome_of
    (snd (run_sched (replicate 6 [0%nat])
            (snd (AsyncBatchNode_exec 0%nat two_items
                    (racy_state CAsyncBatchNode)))
            (fst (AsyncBatchNode_exec 0%nat two_items
                    (racy_state CAsyncBatchNode)))))
  = Some (Return (VArr [VNum 0; VNum 1])) ∧
  outcome_of
    (snd (run_sched [[0]; [1]; [0]; [1]; [0]]%nat
            (snd (AsyncParallelBatchNode_exec 0%nat two_items
                    (racy_state CAsyncParallelBatchNode)))
            (fst (AsyncParallelBatchNode_exec 0%nat two_items
                    (racy_state CAsyncParallelBatchNode)))))
  = Some (Return (VArr [VNum 0; VNum 0])).
Proof. split; vm_compute; reflexivity. Defined.


(** ** Registering successors *)

Lemma next_registers_successor_witness :
  ∃ s',
    next 0%nat 1%nat "x" (two_nodes "x" ∅) = Some (Return 1%nat, s') ∧
    getNextNode 0%nat (Some "x"%string) s'
    = Some (Return (Some (NodeRef 1%nat)), s') ∧
    getNextNode 0%nat (Some "y"%string) s' = Some (Return None, s').
Proof.
  destruct (next_registers_successor 0%nat 1%nat "x"
              (node CNode (logging "A" "x") 0%nat 1 None) ∅
              (two_nodes "x" ∅))
    as (s' & H1 & _ & _ & _ & _ & H3 & H4 & _).
  - reflexivity.
  - reflexivity.
  - discriminate.
  - exists s'. split; [exact H1|]. split.
    + apply H4. discriminate.
    + apply (H3 (Some "y"%string)). discriminate.
Defined.

Lemma empty_label_registration_is_never_followed_witness :
  ∃ s',
    next 0%nat 1%nat "" (two_nodes "" ∅) = Some (Return 1%nat, s') ∧
    getNextNode 0%nat (Some ""%string) s' = Some (Return None, s').
Proof.
  destruct (empty_label_registration_is_never_followed 0%nat 1%nat
              (node CNode (logging "A" "") 0%nat 1 None) ∅
              (two_nodes "" ∅))
    as (s' & H1 & H2).
  - reflexivity.
  - reflexivity.
  - exists s'. split; [exact H1|]. apply (H2 (Some ""%string)).
Defined.

Lemma pipe_chains_witness :
  ∃ s',
    bind (pipe 0%nat 1%nat) (λ n, pipe n 2%nat) (two_nodes "x" ∅)
    = Some (Return 2%nat, s') ∧
    getNextNode 0%nat None s' = Some (Return (Some (NodeRef 1%nat)), s') ∧
    getNextNode 1%nat None s' = Some (Return (Some (NodeRef 2%nat)), s').
Proof.
  destruct (pipe_chains 0%nat 1%nat 2%nat
              (node CNode (logging "A" "x") 0%nat 1 None)
              (node CNode (logging "B" "done") 1%nat 1 None) ∅ ∅
              (two_nodes "x" ∅))
    as (s' & H1 & H2).
  - reflexivity.
  - reflexivity.
  - reflexivity.
  - reflexivity.
  - discriminate.
  - exists s'. split; [exact H1|]. apply (H2 None). reflexivity.
Defined.

Lemma action_next_branches_witness :
  ∃ s',
    bind (ConditionalTransition_next (BaseNode_action 0%nat "yes") 1%nat)
         (λ _, ConditionalTransition_next (BaseNode_action 0%nat "no") 2%nat)
         (two_nodes "yes" ∅)
    = Some (Return 2%nat, s') ∧
    getNextNode 0%nat (Some "yes"%string) s'
    = Some (Return (Some (NodeRef 1%nat)), s') ∧
    getNextNode 0%nat (Some "no"%string) s'
    = Some (Return (Some (NodeRef 2%nat)), s').
Proof.
  destruct (action_next_branches 0%nat 1%nat 2%nat "yes" "no"
              (node CNode (logging "A" "yes") 0%nat 1 None) ∅
              (two_nodes "yes" ∅))
    as (s' & H1 & _ & _ & _ & H2 & H3 & _).
  - reflexivity.
  - reflexivity.
  - discriminate.
  - discriminate.
  - discriminate.
  - exists s'. split; [exact H1|]. split.
    + apply H2. discriminate.
    + apply H3. discriminate.
Defined.

Lemma a_then_b_constructed : constructed a_then_b.
Proof.
  eapply (constructed_next 0%nat 1%nat "x" (two_nodes "x" ∅));
    [|simpl; lia|reflexivity].
  eapply (constructed_new_Flow CFlow no_methods (Some 0%nat)
            (mkState [ node CNode (logging "A" "x") 0%nat 1 None;
                       node CNode (logging "B" "done") 1%nat 1 None ]
                     [ ∅; ∅ ] (0, [])));
    [|intros n [= <-]; simpl; lia|reflexivity].
  eapply (constructed_new_Node CNode (logging "B" "done") None None
            (mkState [ node CNode (logging "A" "x") 0%nat 1 None ]
                     [ ∅ ] (0, [])));
    [|reflexivity].
  eapply (constructed_new_Node CNode (logging "A" "x") None None empty_heap);
    [|reflexivity].
  exact (constructed_empty (world empty_heap)).
Defined.

Lemma constructed_heap_is_closed_witness :
  own_tables a_then_b ∧ wf 3 a_then_b.
Proof.
  exact (constructed_heap_is_closed a_then_b a_then_b_constructed).
Defined.

(** ** Traversals *)

Lemma start_sets_traversal_entry_witness :
  ∃ s',
    start 2%nat 1%nat a_then_b = Some (Return 1%nat, s') ∧
    nodes s' !! 2%nat
    = Some (node CFlow no_methods 2%nat 1 (Some 1%nat)) ∧
    run 3 2%nat store s'
    = Some (Return (Some "done"%string),
            mkState (nodes s' ++ [node CNode (logging "B" "done") 1%nat 1 None])
                    (tables s') (0, ["B.prep"; "B.exec"; "B.post"])).
Proof.
  destruct (start_sets_traversal_entry 2%nat 1%nat
              (node CFlow no_methods 2%nat 1 (Some 0%nat))
              (node CNode (logging "B" "done") 1%nat 1 None) a_then_b)
    as (s' & H1 & _ & _ & _ & H2 & _).
  - reflexivity.
  - reflexivity.
  - reflexivity.
  - discriminate.
  - exists s'. split; [exact H1|]. split; [exact H2|].
    injection H1 as <-. vm_compute. reflexivity.
Defined.

Lemma empty_flow_returns_default_witness :
  run 1 0%nat store empty_flow
  = Some (Return (Some "default"%string), empty_flow).
Proof.
  destruct (empty_flow_returns_default 0%nat
              (node CFlow no_methods 0%nat 1 None) empty_flow)
    as (_ & _ & H).
  - reflexivity.
  - reflexivity.
  - rewrite (H eq_refl 0%nat store). reflexivity.
Defined.

Lemma batch_flow_returns_null_witness :
  run 4 1%nat store translations = Some (Return None, translated) ∧
  key_of None = "default"%string.
Proof.
  assert (H : run 4 1%nat store translations = Some (Return None, translated))
    by (vm_compute; reflexivity).
  split; [exact H|].
  exact (proj2 (batch_flow_returns_null 4 1%nat store batch_flow
                  translations translated None eq_refl eq_refl eq_refl H)).
Defined.

Lemma nested_flow_runs_with_parent_params_witness :
  _run 3 2%nat store
    (bound 2%nat {[ "lang"%string := VStr "fr" ]}
       (node CFlow no_methods 2%nat 1 (Some 0%nat)) a_then_b)
  = bind (call_prep 2%nat store) (λ pr,
      bind (_orch 2 2%nat store (Some {[ "lang"%string := VStr "fr" ]}))
           (λ a, call_flow_post 2%nat store pr a))
      (bound 2%nat {[ "lang"%string := VStr "fr" ]}
         (node CFlow no_methods 2%nat 1 (Some 0%nat)) a_then_b).
Proof.
  exact (proj1 (nested_flow_runs_with_parent_params 2 2%nat
                  {[ "lang"%string := VStr "fr" ]} store
                  (node CFlow no_methods 2%nat 1 (Some 0%nat)) a_then_b
                  eq_refl) eq_refl).
Defined.

(** ** Nodes outside a flow *)


Lemma batch_node_without_items_witness :
  run 1 0%nat store batch_without_items
  = Some (Return (Some "done"%string),
          mkState (nodes batch_without_items) (tables batch_without_items)
                  (0, ["post"])).
Proof.
  destruct (batch_node_without_items 0 0%nat
              (node CBatchNode batch_logging 0%nat 1 None) store VUndefined
              batch_without_items batch_without_items)
    as (H & _).
  - reflexivity.
  - reflexivity.
  - reflexivity.
  - rewrite H; [reflexivity|by left].
Defined.

Lemma node_rerun_starts_afresh_witness :
  ∃ c s1,
    Node_exec 0%nat VUndefined (retry_state 2 3) = Some (c, s1) ∧
    curRetry <$> nodes s1 !! 0%nat = Some 2 ∧
    Node_exec 0%nat VUndefined s1
    = Node_exec 0%nat VUndefined (with_world (world s1) (retry_state 2 3)).
Proof.
  eexists _, _. split; [vm_compute; reflexivity|]. split; [reflexivity|].
  eapply (node_rerun_starts_afresh 0%nat (retry_node 2 3) VUndefined VUndefined
            (retry_state 2 3)).
  - reflexivity.
  - vm_compute. reflexivity.
Defined.


(** ** Suspendable retry *)

(** Three attempts allowed, the third is fulfilled; it still sees
    [curRetry = 0]. *)
Lemma suspendable_retry_returns_first_success_witness :
  ∃ n, ∀ ch,
    run_sched (replicate n ch)
      (snd (AsyncNode_exec 0%nat VUndefined (async_retry_state 2 3)))
      (fst (AsyncNode_exec 0%nat VUndefined (async_retry_state 2 3)))
    = (with_world (3, ["execAsync rejected"; "execAsync rejected";
                       "execAsync fulfilled"]) (async_retry_state 2 3),
       Fin (Return (VNum 0))).
Proof.
  apply (suspendable_retry_returns_first_success 0%nat (async_retry_node 2 3)
           (flaky_execAsync 2) VUndefined (VNum 0) 3
           [VError "attempt 1"; VError "attempt 2"]
           (2, ["execAsync rejected"; "execAsync rejected"])
           (3, ["execAsync rejected"; "execAsync rejected";
                "execAsync fulfilled"])
           (async_retry_state 2 3)).
  - reflexivity.
  - reflexivity.
  - reflexivity.
  - lia.
  - vm_compute. reflexivity.
  - vm_compute. reflexivity.
Defined.

Lemma suspendable_retry_falls_back_once_witness :
  ∃ n, ∀ ch,
    run_sched (replicate n ch)
      (snd (AsyncNode_exec 0%nat VUndefined (async_retry_state 5 2)))
      (fst (AsyncNode_exec 0%nat VUndefined (async_retry_state 5 2)))
    = (with_world (2, ["execAsync rejected"; "execAsync rejected";
                       "fallback"]) (async_retry_state 5 2),
       Fin (Return (VError "attempt 2"))).
Proof.
  destruct (suspendable_retry_falls_back_once 0%nat (async_retry_node 5 2)
              (flaky_execAsync 5) VUndefined (VError "attempt 2") 2
              [VError "attempt 1"; VError "attempt 2"]
              (2, ["execAsync rejected"; "execAsync rejected"])
              (async_retry_state 5 2)) as (H & _).
  - reflexivity.
  - reflexivity.
  - reflexivity.
  - lia.
  - vm_compute. reflexivity.
  - reflexivity.
  - exact (H logged_fallbackAsync eq_refl).
Defined.

(** ** Suspendable lifecycles *)

Lemma async_logging_exec_settles :
  settles_call (AsyncNode_exec 0%nat (VNum 7))
    (with_world (0, ["prepAsync"]) async_logging_state)
    (Return (VNum 7))
    (with_world (0, ["prepAsync"; "execAsync"]) async_logging_state).
Proof.
  unfold settles_call.
  eapply settles_atom; [reflexivity|].
  eapply settles_atom; [reflexivity|].
  apply settles_fin.
Defined.

Lemma async_node_lifecycle_witness :
  ∃ n, ∀ ch,
    run_sched (replicate n ch)
      (snd (runAsync 0 0%nat store async_logging_state))
      (fst (runAsync 0 0%nat store async_logging_state))
    = (with_world (0, ["prepAsync"; "execAsync"; "postAsync"])
         async_logging_state,
       Fin (Return (Some "done"%string))).
Proof.
  destruct (async_node_lifecycle 0 0%nat async_logging_node store
              async_logging_state) as (_ & _ & H).
  - reflexivity.
  - reflexivity.
  - exact (H (VNum 7) (0, ["prepAsync"]) (VNum 7) _ eq_refl
             async_logging_exec_settles).
Defined.

Lemma racy_cycles_in_turn :
  cycles_in_turn 0%nat [VStr "a"; VStr "b"] []
    (racy_state CAsyncBatchNode)
    (Return (VArr [VNum 0; VNum 1]))
    (with_world (2, []) (racy_state CAsyncBatchNode)).
Proof.
  eapply (cycles_next 0%nat (VStr "a") [VStr "b"] [] (VNum 0)
            (racy_state CAsyncBatchNode)
            (with_world (App:=logging_application) (1, [])
               (racy_state CAsyncBatchNode))).
  { unfold settles_call.
    eapply settles_atom; [reflexivity|].
    eapply settles_atom; [reflexivity|].
    apply settles_fin. }
  eapply (cycles_next 0%nat (VStr "b") [] [VNum 0] (VNum 1)
            (with_world (App:=logging_application) (1, [])
               (racy_state CAsyncBatchNode))
            (with_world (App:=logging_application) (2, [])
               (racy_state CAsyncBatchNode))).
  { unfold settles_call.
    eapply settles_atom; [reflexivity|].
    eapply settles_atom; [reflexivity|].
    apply settles_fin. }
  apply cycles_done.
Defined.

Lemma async_batch_runs_cycles_in_turn_witness :
  ∃ n, ∀ ch,
    run_sched (replicate n ch)
      (snd (AsyncBatchNode_exec 0%nat two_items (racy_state CAsyncBatchNode)))
      (fst (AsyncBatchNode_exec 0%nat two_items (racy_state CAsyncBatchNode)))
    = (with_world (2, []) (racy_state CAsyncBatchNode),
       Fin (Return (VArr [VNum 0; VNum 1]))).
Proof.
  exact (proj1 (async_batch_runs_cycles_in_turn 0%nat [VStr "a"; VStr "b"]
                  _ _ _ racy_cycles_in_turn)).
Defined.

Lemma async_flow_graph_all_sync : all_sync async_flow_graph.
Proof.
  intros a o Ha.
  destruct a as [|[|[|a]]]; simpl in Ha; [| | |done];
    injection Ha as <-; reflexivity.
Defined.

Lemma async_flow_over_sync_nodes_witness :
  _orchAsync 3 2%nat store None async_flow_graph
  = (async_flow_done, Fin (Return (Some "done"%string))).
Proof.
  apply (async_flow_over_sync_nodes 3 2%nat store None async_flow_graph
           async_flow_done (Return (Some "done"%string))).
  - exact async_flow_graph_all_sync.
  - vm_compute. reflexivity.
Defined.

Lemma async_flow_lifecycle_witness :
  ∃ n, ∀ ch,
    run_sched (replicate n ch)
      (snd (runAsync 3 2%nat store async_flow_graph))
      (fst (runAsync 3 2%nat store async_flow_graph))
    = (async_flow_done, Fin (Return (Some "done"%string))).
Proof.
  destruct (async_flow_lifecycle 3 2%nat
              (node CAsyncFlow no_methods 2%nat 1 (Some 0%nat)) store
              async_flow_graph) as (_ & _ & H).
  - reflexivity.
  - reflexivity.
  - exact async_flow_graph_all_sync.
  - apply (H VUndefined (0, []) (Some "done"%string) async_flow_done).
    + reflexivity.
    + vm_compute. reflexivity.
Defined.

(** ** A node that selects itself *)

Lemma self_loop_never_returns_witness :
  ¬ ∃ fuel a s', run fuel 1%nat store spin_graph = Some (Return a, s').
Proof.
  intros (fuel & a & s' & H).
  destruct (self_loop_never_returns 1%nat 0%nat
              (node CFlow no_methods 1%nat 1 (Some 0%nat))
              (node CNode spinning 0%nat 1 None) again_post "again"
              {[ "again"%string := 0%nat ]} spin_graph) as (_ & Hrun).
  - reflexivity.
  - reflexivity.
  - reflexivity.
  - reflexivity.
  - reflexivity.
  - intros v sh pr e w l [= <-]. reflexivity.
  - reflexivity.
  - reflexivity.
  - exact (Hrun eq_refl fuel store a s' H).
Defined.

End Instances.
